(** * Sudoku generator and solver: a shallow embedding of [sudoku.model.ts]

    The class [Sudoku] is embedded function by function.  JavaScript strings
    are [string]s, the one-character strings the code passes around as digits
    are [ascii] characters, string arrays are lists, and the objects used as
    maps ([CandidatesMap], [UnitsMap], [PeersMap]) are association lists in
    key-insertion order, which is the order [for ... in] enumerates them.
    Recursion that the source does not bound takes a [fuel] argument; running
    out of fuel is [None], never a result of the program.  The one recursion
    that can go on for ever, the retry of [generate], takes the room left on
    the call stack instead, and ends in the runtime's [RangeError]. *)

From Stdlib Require Import String Ascii List Arith Bool Lia ZArith Permutation.
Import ListNotations.

Open Scope string_scope.
Open Scope list_scope.
Open Scope nat_scope.

(* ================================================================= *)
(** ** JavaScript strings, arrays and objects *)

Module Js.

(** [s.split('')]: the characters of [s], in order. *)
Definition split (s : string) : list ascii := list_ascii_of_string s.

(** The one-character string made of [c]. *)
Definition str (c : ascii) : string := String c EmptyString.

(** [seq.indexOf(v)] for a one-character [v]: the first position of [v],
    or [-1]. *)
Fixpoint indexOf (seq : string) (v : ascii) : Z :=
  match seq with
  | EmptyString => (-1)%Z
  | String c rest =>
      if Ascii.eqb c v then 0%Z
      else let i := indexOf rest v in
           if (i =? -1)%Z then (-1)%Z else (i + 1)%Z
  end.

(** [s.replace(v, '')] for a one-character [v]: the first occurrence of
    [v] is dropped, later ones stay. *)
Fixpoint replace (s : string) (v : ascii) : string :=
  match s with
  | EmptyString => EmptyString
  | String c rest => if Ascii.eqb c v then rest else String c (replace rest v)
  end.

(** [arr.indexOf(x) !== -1] on an array of strings. *)
Fixpoint includes (arr : list string) (x : string) : bool :=
  match arr with
  | [] => false
  | y :: rest => if String.eqb y x then true else includes rest x
  end.

(** Property read [obj[key]]; [None] is [undefined]. *)
Fixpoint get {V : Type} (obj : list (string * V)) (key : string) : option V :=
  match obj with
  | [] => None
  | (k, v) :: rest => if String.eqb k key then Some v else get rest key
  end.

(** Property write [obj[key] = v]: an existing key keeps its place, a new
    key goes last. *)
Fixpoint set {V : Type} (obj : list (string * V)) (key : string) (v : V)
  : list (string * V) :=
  match obj with
  | [] => [(key, v)]
  | (k, w) :: rest =>
      if String.eqb k key then (k, v) :: rest else (k, w) :: set rest key v
  end.

(** The keys of an object, as [for (k in obj)] enumerates them. *)
Definition keys {V : Type} (obj : list (string * V)) : list string :=
  map fst obj.

End Js.

(* ================================================================= *)
(** ** Types of the interface file and of the two enums *)

Definition Board := string.
Definition CandidatesMap := list (string * string).
Definition UnitsMap := list (string * list (list string)).
Definition PeersMap := list (string * list string).

(** Modelled from the spec: the enum [Difficulty] of
    [../enum/difficulty.enum] is not among the sources; its six labels are
    the keys of [DIFFICULTY_MAP]. *)
Inductive Difficulty : Type :=
| EASY | MEDIUM | HARD | VERY_HARD | INSANE | INHUMAN.

(** Modelled from the spec: the enum [ErrorCode] of
    [../enum/error-code.enum] is not among the sources; these are the five
    members the class throws. *)
Inductive ErrorCode : Type :=
| ERR_BOARD_EMPTY
| ERR_BOARD_SIZE_INVALID
| ERR_BOARD_CHARACTER_INVALID
| ERR_GIVENS_SIZE_INSUFFICIENT
| ERR_RANGE_UNDEFINED.

(** What a [throw] carries: [new Error(code)], the [TypeError] the runtime
    raises when a property of [undefined] is read, or the [RangeError] it
    raises when a call finds the call stack exhausted. *)
Inductive exn : Type :=
| Error (code : ErrorCode)
| TypeError
| RangeError.

(** A call either returns or throws. *)
Inductive outcome (A : Type) : Type :=
| Ret (a : A)
| Throw (e : exn).
Arguments Ret {A} a.
Arguments Throw {A} e.

(* ================================================================= *)
(** ** Constants and topology *)

Definition DIFFICULTY_MAP (d : Difficulty) : nat :=
  match d with
  | EASY => 62
  | MEDIUM => 53
  | HARD => 44
  | VERY_HARD => 35
  | INSANE => 26
  | INHUMAN => 17
  end.

Definition DIGITS : string := "123456789".
Definition BLANK_CHAR : ascii := "."%char.
Definition BLANK_BOARD : string :=
  string_of_list_ascii (repeat BLANK_CHAR 81).
Definition ROWS : string := "ABCDEFGHI".
Definition COLS : string := "123456789".
Definition MIN_GIVENS : nat := 17.
Definition NR_SQUARES : nat := 81.

(** [_in(v, seq)]. *)
Definition _in (v : ascii) (seq : string) : bool :=
  negb (Js.indexOf seq v =? -1)%Z.

(** [_cross(a, b)]: every character of [a] followed by every character of
    [b], row-major. *)
Definition _cross (a b : string) : list string :=
  flat_map (fun ai => map (fun bi => String ai (Js.str bi)) (Js.split b))
           (Js.split a).

(** [_get_all_units]: nine rows, nine columns, nine boxes, in that order. *)
Definition _get_all_units (rows cols : string) : list (list string) :=
  let row_squares := ["ABC"; "DEF"; "GHI"] in
  let col_squares := ["123"; "456"; "789"] in
  map (fun row_val => _cross (Js.str row_val) cols) (Js.split rows)
  ++ map (fun col_val => _cross rows (Js.str col_val)) (Js.split cols)
  ++ flat_map (fun rsi => map (fun csi => _cross rsi csi) col_squares)
              row_squares.

(** [_get_square_units_map]: each square with the units that contain it, in
    the order of [units]. *)
Definition _get_square_units_map (squares : list string)
  (units : list (list string)) : UnitsMap :=
  map (fun cur_square =>
         (cur_square, filter (fun cur_unit => Js.includes cur_unit cur_square) units))
      squares.

(** The innermost step of [_get_square_peers_map]: push a square that is new
    and is not the square itself. *)
Definition push_peer (cur_square : string) (cur_square_peers : list string)
  (cur_unit_square : string) : list string :=
  if negb (Js.includes cur_square_peers cur_unit_square)
     && negb (String.eqb cur_unit_square cur_square)
  then cur_square_peers ++ [cur_unit_square] else cur_square_peers.

(** The two loops around it, over the units of the square and over the
    squares of each unit. *)
Definition collect_peers (cur_square : string)
  (cur_square_units : list (list string)) : list string :=
  fold_left (fun cur_square_peers cur_unit =>
               fold_left (push_peer cur_square) cur_unit cur_square_peers)
            cur_square_units [].

(** [_get_square_peers_map]; [units_map[cur_square]] is read for squares of
    the same list the map was built from, so it is never [undefined]. *)
Definition _get_square_peers_map (squares : list string) (units_map : UnitsMap)
  : PeersMap :=
  map (fun cur_square =>
         (cur_square,
          collect_peers cur_square
            (match Js.get units_map cur_square with
             | Some us => us
             | None => []
             end)))
      squares.

(** The four fields the constructor fills, computed once. *)
Definition squares : list string := Eval vm_compute in
  _cross ROWS COLS.
Definition units : list (list string) := Eval vm_compute in
  _get_all_units ROWS COLS.
Definition square_units_map : UnitsMap := Eval vm_compute in
  _get_square_units_map squares units.
Definition square_peers_map : PeersMap := Eval vm_compute in
  _get_square_peers_map squares square_units_map.

(* ================================================================= *)
(** ** Propagation: [_eliminate] and [_assign]

    Both mutate the object [candidates] in place and return it, or [false].
    The embedding threads the contents of that one object: a call yields the
    returned flag ([true] for the object itself, [false] for [false]) or the
    exception, together with the contents the object is left with. *)

Definition propagation : Type := option (outcome bool * CandidatesMap).

(** [for (x of xs) { if (!body(x)) return false; }], the shape of every loop
    of the two functions: stop at the first [false], exception or exhausted
    fuel. *)
Fixpoint for_each {A : Type} (body : CandidatesMap -> A -> propagation)
  (xs : list A) (candidates : CandidatesMap) : propagation :=
  match xs with
  | [] => Some (Ret true, candidates)
  | x :: rest =>
      match body candidates x with
      | Some (Ret true, candidates') => for_each body rest candidates'
      | stop => stop
      end
  end.

(** The squares of [unit] whose candidates still hold [val]; [None] when a
    square of the unit has no entry ([_in(val, undefined)] throws). *)
Fixpoint val_places (candidates : CandidatesMap) (val : ascii)
  (unit : list string) : option (list string) :=
  match unit with
  | [] => Some []
  | unit_square :: rest =>
      match Js.get candidates unit_square with
      | None => None
      | Some cs =>
          match val_places candidates val rest with
          | None => None
          | Some places => Some (if _in val cs then unit_square :: places else places)
          end
      end
  end.

(** The body of [_assign], over the [_eliminate] it calls. *)
Definition assign_with
  (eliminate : CandidatesMap -> string -> ascii -> propagation)
  (candidates : CandidatesMap) (square : string) (val : ascii) : propagation :=
  match Js.get candidates square with
  | None => Some (Throw TypeError, candidates)
  | Some cs =>
      let other_vals := Js.replace cs val in
      for_each (fun c other_val => eliminate c square other_val)
               (Js.split other_vals) candidates
  end.

(** The body of [_eliminate], over the [_eliminate] it calls. *)
Definition eliminate_with
  (eliminate : CandidatesMap -> string -> ascii -> propagation)
  (candidates : CandidatesMap) (square : string) (val : ascii) : propagation :=
  match Js.get candidates square with
  | None => Some (Throw TypeError, candidates)
  | Some cs =>
      if negb (_in val cs) then Some (Ret true, candidates)
      else
        let cs' := Js.replace cs val in
        let candidates := Js.set candidates square cs' in
        let after_peers :=
          match cs' with
          | String target_val EmptyString =>
              (* nr_candidates === 1 *)
              match Js.get square_peers_map square with
              | None => Some (Throw TypeError, candidates)
              | Some peers =>
                  for_each (fun c peer => eliminate c peer target_val)
                           peers candidates
              end
          | EmptyString =>
              (* nr_candidates === 0 *)
              Some (Ret false, candidates)
          | _ => Some (Ret true, candidates)
          end in
        match after_peers with
        | Some (Ret true, candidates) =>
            match Js.get square_units_map square with
            | None => Some (Throw TypeError, candidates)
            | Some square_units =>
                for_each
                  (fun c unit =>
                     match val_places c val unit with
                     | None => Some (Throw TypeError, c)
                     | Some [] => Some (Ret false, c)
                     | Some [place] => assign_with eliminate c place val
                     | Some _ => Some (Ret true, c)
                     end)
                  square_units candidates
            end
        | stop => stop
        end
  end.

(** [_eliminate].  [fuel] bounds the nesting of [_eliminate] calls; the
    [_assign] frames in between are not counted. *)
Fixpoint _eliminate (fuel : nat) : CandidatesMap -> string -> ascii -> propagation :=
  match fuel with
  | O => fun _ _ _ => None
  | S fuel' => eliminate_with (_eliminate fuel')
  end.

(** [_assign]. *)
Definition _assign (fuel : nat) : CandidatesMap -> string -> ascii -> propagation :=
  assign_with (_eliminate fuel).

(* ================================================================= *)
(** ** Board validation and seeding *)

(** [validate_board]: [true], or one of three errors. *)
Definition validate_board (board : Board) : outcome bool :=
  match board with
  | EmptyString => Throw (Error ERR_BOARD_EMPTY)
  | _ =>
      if negb (String.length board =? NR_SQUARES)
      then Throw (Error ERR_BOARD_SIZE_INVALID)
      else if forallb (fun char => _in char DIGITS || Ascii.eqb char BLANK_CHAR)
                      (Js.split board)
           then Ret true
           else Throw (Error ERR_BOARD_CHARACTER_INVALID)
  end.

(** [_get_square_vals_map]: square [i] with character [i] of the board. *)
Definition _get_square_vals_map (board : Board)
  : outcome (list (string * ascii)) :=
  if negb (String.length board =? List.length squares)
  then Throw (Error ERR_BOARD_SIZE_INVALID)
  else Ret (combine squares (Js.split board)).

(** [_get_candidates_map]: a fresh object with all digits everywhere, then
    every given assigned in board order.  [Ret None] is the return of
    [false]. *)
Definition _get_candidates_map (fuel : nat) (board : Board)
  : option (outcome (option CandidatesMap)) :=
  match validate_board board with
  | Throw e => Some (Throw e)
  | Ret _ =>
      match _get_square_vals_map board with
      | Throw e => Some (Throw e)
      | Ret squares_values_map =>
          let candidate_map :=
            fold_left (fun m sq => Js.set m sq DIGITS) squares [] in
          match for_each
                  (fun c (entry : string * ascii) =>
                     let (square, val) := entry in
                     if _in val DIGITS then _assign fuel c square val
                     else Some (Ret true, c))
                  squares_values_map candidate_map with
          | None => None
          | Some (Throw e, _) => Some (Throw e)
          | Some (Ret false, _) => Some (Ret None)
          | Some (Ret true, c) => Some (Ret (Some c))
          end
      end
  end.

(* ================================================================= *)
(** ** Search

    [_search] copies the object it is given before every assignment and may
    return the very object it received, so objects live in a heap and are
    passed by reference. *)

Definition heap : Type := list CandidatesMap.

(** [CandidatesMap | boolean] as [_search] takes and returns it. *)
Inductive value : Type :=
| VFalse
| VRef (l : nat).

(** A call of [_search]: its return value or exception, and the heap it
    leaves. *)
Definition searching : Type := option (outcome value * heap).

(** [JSON.parse(JSON.stringify(o))]: a new object with the same entries. *)
Definition json_copy (h : heap) (o : CandidatesMap) : nat * heap :=
  (List.length h, h ++ [o]).

(** Overwrite the object at [l]. *)
Fixpoint store (h : heap) (l : nat) (o : CandidatesMap) : heap :=
  match h, l with
  | [], _ => []
  | _ :: rest, O => o :: rest
  | x :: rest, S l' => x :: store rest l' o
  end.

(** Run a propagation on the object at [l]: the object is mutated where it
    is, and the reference itself (or [false]) comes back.  References are
    only made by [json_copy] and by [solve], so they always point into the
    heap; the [None] branches here and in [search_with] are never taken. *)
Definition at_ref (l : nat) (run : CandidatesMap -> propagation) (h : heap) : searching :=
  match nth_error h l with
  | None => Some (Throw TypeError, h)
  | Some o =>
      match run o with
      | None => None
      | Some (Ret true, o') => Some (Ret (VRef l), store h l o')
      | Some (Ret false, o') => Some (Ret VFalse, store h l o')
      | Some (Throw e, o') => Some (Throw e, store h l o')
      end
  end.

(** First loop of [_search]: the largest candidate count ([None] when a
    square has no entry).  The square it belongs to is never read. *)
Fixpoint max_candidates (candidates : CandidatesMap) (sqs : list string)
  (max_nr_candidates : nat) : option nat :=
  match sqs with
  | [] => Some max_nr_candidates
  | square :: rest =>
      match Js.get candidates square with
      | None => None
      | Some cs =>
          let nr_candidates := String.length cs in
          max_candidates candidates rest
            (if max_nr_candidates <? nr_candidates then nr_candidates
             else max_nr_candidates)
      end
  end.

(** Second loop: the first square with the fewest candidates above one. *)
Fixpoint min_candidates (candidates : CandidatesMap) (sqs : list string)
  (min_nr_candidates : nat) (min_candidates_square : option string)
  : option (option string) :=
  match sqs with
  | [] => Some min_candidates_square
  | square :: rest =>
      match Js.get candidates square with
      | None => None
      | Some cs =>
          let nr_candidates := String.length cs in
          if (nr_candidates <? min_nr_candidates) && (1 <? nr_candidates)
          then min_candidates candidates rest nr_candidates (Some square)
          else min_candidates candidates rest min_nr_candidates min_candidates_square
      end
  end.

(** A square used as a property key; [null] reads the key ["null"]. *)
Definition key_of (square : option string) : string :=
  match square with
  | Some s => s
  | None => "null"
  end.

(** [for (val of vals) { r = body(val); if (r) return r; } return false]. *)
Fixpoint first_truthy {A : Type} (body : heap -> A -> searching) (xs : list A)
  (h : heap) : searching :=
  match xs with
  | [] => Some (Ret VFalse, h)
  | x :: rest =>
      match body h x with
      | Some (Ret VFalse, h') => first_truthy body rest h'
      | stop => stop
      end
  end.

(** The body of [_search], over the [_assign] and the [_search] it calls. *)
Definition search_with
  (assign : CandidatesMap -> string -> ascii -> propagation)
  (search : heap -> value -> bool -> searching)
  (h : heap) (candidates : value) (reverse : bool) : searching :=
  match candidates with
  | VFalse => Some (Ret VFalse, h)
  | VRef l =>
      match nth_error h l with
      | None => Some (Throw TypeError, h)
      | Some c =>
          match max_candidates c squares 0 with
          | None => Some (Throw TypeError, h)
          | Some max_nr_candidates =>
              if max_nr_candidates =? 1 then Some (Ret (VRef l), h)
              else
                match min_candidates c squares 10 None with
                | None => Some (Throw TypeError, h)
                | Some min_candidates_square =>
                    let square := key_of min_candidates_square in
                    match Js.get c square with
                    | None => Some (Throw TypeError, h)
                    | Some min_cs =>
                        let branch (rv : bool) (h : heap) (val : ascii) : searching :=
                          match nth_error h l with
                          | None => Some (Throw TypeError, h)
                          | Some now =>
                              let (l', h) := json_copy h now in
                              match at_ref l' (fun o => assign o square val) h with
                              | Some (Ret v, h) => search h v rv
                              | stop => stop
                              end
                          end in
                        if negb reverse
                        then first_truthy (branch false) (Js.split min_cs) h
                        else first_truthy (branch reverse) (rev (Js.split min_cs)) h
                    end
                end
          end
      end
  end.

(** [_search].  [fuel] bounds the depth of the search, and the propagation
    of each assignment as well. *)
Fixpoint _search (fuel : nat) : heap -> value -> bool -> searching :=
  match fuel with
  | O => fun _ _ _ => None
  | S fuel' => search_with (_assign fuel') (_search fuel')
  end.

(** What [solve] returns: [false] or the solution string. *)
Inductive solve_result : Type :=
| NoSolution
| Solution (s : string).

(** [solve]. *)
Definition solve (fuel : nat) (board : Board) (reverse : bool)
  : option (outcome solve_result) :=
  match validate_board board with
  | Throw e => Some (Throw e)
  | Ret _ =>
      let nr_givens :=
        List.length
          (filter (fun char => negb (Ascii.eqb char BLANK_CHAR) && _in char DIGITS)
                  (Js.split board)) in
      if nr_givens <? MIN_GIVENS
      then Some (Throw (Error ERR_GIVENS_SIZE_INSUFFICIENT))
      else
        match _get_candidates_map fuel board with
        | None => None
        | Some (Throw e) => Some (Throw e)
        | Some (Ret made) =>
            let (candidates, h) :=
              match made with
              | Some c => (VRef 0, [c])
              | None => (VFalse, [])
              end in
            match _search fuel h candidates reverse with
            | None => None
            | Some (Throw e, _) => Some (Throw e)
            | Some (Ret VFalse, _) => Some (Ret NoSolution)
            | Some (Ret (VRef l), h) =>
                match nth_error h l with
                | None => Some (Throw TypeError)
                | Some result =>
                    Some (Ret (Solution
                      (fold_left
                         (fun solution square =>
                            (solution ++ match Js.get result square with
                                         | Some cs => cs
                                         | None => "undefined"
                                         end)%string)
                         (Js.keys result) EmptyString)))
                end
            end
        end
  end.

(* ================================================================= *)
(** ** Random utilities and generation

    [Math.random()] is the one input of [generate] besides its arguments.
    Call number [n] of a run returns the fraction [p / (p + k + 1)] for
    [rnd n = (p, k)], which ranges over all rationals of [[0, 1)]; a run
    carries the number of calls made so far. *)

Definition random_source : Type := nat -> nat * nat.

(** [_rand_range(max, min = 0)].  The class never passes [min], so
    [max - min] is never negative. *)
Definition _rand_range (rnd : random_source) (calls : nat) (max min : nat)
  : outcome nat * nat :=
  if max =? 0 then (Throw (Error ERR_RANGE_UNDEFINED), calls)
  else
    let (p, k) := rnd calls in
    (Ret ((p * (max - min)) / (p + k + 1) + min), S calls).

Section Shuffle.

(** The elements shuffled are strings: squares, or the index keys that
    [for (i in squares)] yields.  An array slot holds an element or the
    filler [false] ([None]); [truthy] tells which elements pass
    [while (shuffled[ti])]. *)
Variable A : Type.
Variable truthy : A -> bool.

(** [shuffled[i] = x].  Past the end the array grows, and the holes this
    leaves read as [undefined], falsy like the filler. *)
Fixpoint set_slot (shuffled : list (option A)) (i : nat) (x : A)
  : list (option A) :=
  match shuffled, i with
  | [], O => [Some x]
  | [], S i' => None :: set_slot [] i' x
  | _ :: rest, O => Some x :: rest
  | slot :: rest, S i' => slot :: set_slot rest i' x
  end.

(** [shuffled[ti]] read as a condition; past the end it is [undefined]. *)
Definition occupied (slot : option (option A)) : bool :=
  match slot with
  | Some (Some x) => truthy x
  | _ => false
  end.

(** [while (shuffled[ti]) ti = (ti + 1) > (n - 1) ? 0 : (ti + 1)]. *)
Fixpoint probe (fuel : nat) (shuffled : list (option A)) (n ti : nat)
  : option nat :=
  match fuel with
  | O => None
  | S fuel' =>
      if occupied (nth_error shuffled ti)
      then probe fuel' shuffled n (if n - 1 <? ti + 1 then 0 else ti + 1)
      else Some ti
  end.

(** The loop of [_shuffle] over the elements still to place. *)
Fixpoint place_all (fuel : nat) (rnd : random_source) (n : nat)
  (seq : list A) (shuffled : list (option A)) (calls : nat)
  : option (outcome (list (option A)) * nat) :=
  match seq with
  | [] => Some (Ret shuffled, calls)
  | x :: rest =>
      match _rand_range rnd calls n 0 with
      | (Throw e, calls) => Some (Throw e, calls)
      | (Ret ti, calls) =>
          match probe fuel shuffled n ti with
          | None => None
          | Some ti => place_all fuel rnd n rest (set_slot shuffled ti x) calls
          end
      end
  end.

(** [_shuffle]. *)
Definition _shuffle (fuel : nat) (rnd : random_source) (seq : list A)
  (calls : nat) : option (outcome (list (option A)) * nat) :=
  place_all fuel rnd (List.length seq) seq
            (repeat None (List.length seq)) calls.

End Shuffle.

Arguments set_slot {A} shuffled i x.
Arguments occupied {A} truthy slot.
Arguments probe {A} truthy fuel shuffled n ti.
Arguments place_all {A} truthy fuel rnd n seq shuffled calls.
Arguments _shuffle {A} truthy fuel rnd seq calls.

(** Truthiness of a string: every string but the empty one. *)
Definition truthy_string (s : string) : bool :=
  match s with
  | EmptyString => false
  | _ => true
  end.

(** [_strip_dups]: the first occurrence of each element, in order. *)
Definition _strip_dups (seq : list string) : list string :=
  fold_left (fun seq_set e => if Js.includes seq_set e then seq_set
                              else seq_set ++ [e])
            seq [].

(** [_force_range(max, nr = 0, min = 0)]. *)
Definition _force_range (max nr min : nat) : nat :=
  if nr <? min then min
  else if max <? nr then max
  else nr.

(** [candidates[square]] for every square with exactly one candidate;
    [None] when a square has no entry. *)
Fixpoint single_candidates (candidates : CandidatesMap) (sqs : list string)
  : option (list string) :=
  match sqs with
  | [] => Some []
  | square :: rest =>
      match Js.get candidates square, single_candidates candidates rest with
      | Some cs, Some singles =>
          Some (if String.length cs =? 1 then cs :: singles else singles)
      | _, _ => None
      end
  end.

(** The loop that writes the board: the digit of every single-candidate
    square, [BLANK_CHAR] elsewhere, and the indices of the digits written. *)
Fixpoint board_of (candidates : CandidatesMap) (sqs : list string) (i : nat)
  : option (string * list nat) :=
  match sqs with
  | [] => Some (EmptyString, [])
  | square :: rest =>
      match Js.get candidates square, board_of candidates rest (S i) with
      | Some cs, Some (board, givens_idxs) =>
          Some (if String.length cs =? 1
                then ((cs ++ board)%string, i :: givens_idxs)
                else (String BLANK_CHAR board, givens_idxs))
      | _, _ => None
      end
  end.

(** [s.substring(0, n)] and [s.substring(n)]. *)
Fixpoint take (n : nat) (s : string) : string :=
  match n, s with
  | S n', String c rest => String c (take n' rest)
  | _, _ => EmptyString
  end.

Fixpoint drop (n : nat) (s : string) : string :=
  match n, s with
  | S n', String _ rest => drop n' rest
  | _, _ => s
  end.

(** One round of the trimming loop.  [target] is [parseInt] of the shuffled
    entry; on the filler [false] it is [NaN], which [substring] reads as 0
    in both places. *)
Definition blank_out (board : string) (entry : option nat) : string :=
  match entry with
  | Some target =>
      (take target board ++ String BLANK_CHAR (drop (target + 1) board))%string
  | None => String BLANK_CHAR board
  end.

(** [for (i = 0; i < count; ++i) board = blank_out(board, givens_idxs[i])];
    past the end of the array the entry is [undefined], [NaN] again. *)
Fixpoint trim (count : nat) (givens_idxs : list (option nat)) (board : string)
  : string :=
  match count with
  | O => board
  | S count' =>
      match givens_idxs with
      | [] => trim count' [] (blank_out board None)
      | entry :: rest => trim count' rest (blank_out board entry)
      end
  end.

(** How the walk over the shuffled squares ends: with a board returned, or
    by leaving the loop. *)
Inductive walk_end : Type :=
| Returned (board : Board)
| GaveUp.

(** The [for (square of shuffled_squares)] loop of [generate]. *)
Fixpoint walk (fuel : nat) (rnd : random_source) (givens_for_difficulty : nat)
  (shuffled_squares : list (option string)) (candidates : CandidatesMap)
  (calls : nat) : option (outcome walk_end * nat) :=
  match shuffled_squares with
  | [] => Some (Ret GaveUp, calls)
  | slot :: rest =>
      let square := match slot with Some s => s | None => "false" end in
      match Js.get candidates square with
      | None => Some (Throw TypeError, calls)
      | Some cs =>
          match _rand_range rnd calls (String.length cs) 0 with
          | (Throw e, calls) => Some (Throw e, calls)
          | (Ret rand_candidate_idx, calls) =>
              match nth_error (Js.split cs) rand_candidate_idx with
              | None =>
                  (* never taken: the index drawn is below the length *)
                  Some (Throw TypeError, calls)
              | Some rand_candidate =>
                  match _assign fuel candidates square rand_candidate with
                  | None => None
                  | Some (Throw e, _) => Some (Throw e, calls)
                  | Some (Ret false, _) => Some (Ret GaveUp, calls)
                  | Some (Ret true, candidates) =>
                      match single_candidates candidates squares with
                      | None => Some (Throw TypeError, calls)
                      | Some singles =>
                          if (givens_for_difficulty <=? List.length singles)
                             && (8 <=? List.length (_strip_dups singles))
                          then
                            match board_of candidates squares 0 with
                            | None => Some (Throw TypeError, calls)
                            | Some (board, givens_idxs) =>
                                let nr_givens := List.length givens_idxs in
                                let trimmed :=
                                  if givens_for_difficulty <? nr_givens
                                  then
                                    match _shuffle (fun _ : nat => true) fuel rnd
                                                   givens_idxs calls with
                                    | None => None
                                    | Some (Throw e, calls) => Some (Throw e, calls)
                                    | Some (Ret shuffled, calls) =>
                                        Some (Ret (trim (nr_givens - givens_for_difficulty)
                                                        shuffled board), calls)
                                    end
                                  else Some (Ret board, calls) in
                                match trimmed with
                                | None => None
                                | Some (Throw e, calls) => Some (Throw e, calls)
                                | Some (Ret board, calls) =>
                                    match solve fuel board false with
                                    | None => None
                                    | Some (Throw e) => Some (Throw e, calls)
                                    | Some (Ret (Solution (String _ _))) =>
                                        Some (Ret (Returned board), calls)
                                    | Some (Ret _) =>
                                        walk fuel rnd givens_for_difficulty rest
                                             candidates calls
                                    end
                                end
                            end
                          else walk fuel rnd givens_for_difficulty rest candidates calls
                      end
                  end
              end
          end
      end
  end.

(** [generate].  Giving up ends in [return this.generate(difficulty)], a
    call that nothing bounds: each retry is one more frame on the call
    stack.  [stack] is the number of nested calls of [generate] the stack
    has room for; the call that finds no room throws the runtime's
    [RangeError].  [fuel] bounds the loops of the functions called. *)
Fixpoint generate (stack fuel : nat) (rnd : random_source)
  (difficulty : Difficulty) (unique : bool) (calls : nat) {struct stack}
  : option (outcome Board * nat) :=
  match stack with
  | O => Some (Throw RangeError, calls)
  | S stack' =>
      let givens_for_difficulty :=
        _force_range (NR_SQUARES + 1) (DIFFICULTY_MAP difficulty) MIN_GIVENS in
      let blank_board := BLANK_BOARD in
      match _get_candidates_map fuel blank_board with
      | None => None
      | Some (Throw e) => Some (Throw e, calls)
      | Some (Ret made) =>
          match _shuffle truthy_string fuel rnd squares calls with
          | None => None
          | Some (Throw e, calls) => Some (Throw e, calls)
          | Some (Ret shuffled_squares, calls) =>
              match made with
              | None =>
                  (* [candidates] is [false]: reading a square of it gives
                     [undefined], whose [length] cannot be read *)
                  Some (Throw TypeError, calls)
              | Some candidates =>
                  match walk fuel rnd givens_for_difficulty shuffled_squares
                             candidates calls with
                  | None => None
                  | Some (Throw e, calls) => Some (Throw e, calls)
                  | Some (Ret (Returned board), calls) => Some (Ret board, calls)
                  | Some (Ret GaveUp, calls) =>
                      generate stack' fuel rnd difficulty true calls
                  end
              end
          end
      end
  end.

(* ================================================================= *)
(** ** Notions the properties are stated with *)

(** The number of candidates a store holds, over all its squares. *)
Definition size (c : CandidatesMap) : nat :=
  list_sum (map (fun entry => String.length (snd entry)) c).

(** The one mutation of the class on a store:
    [candidates[square] = candidates[square].replace(val, '')] with [val]
    among the candidates. *)
Inductive removal : CandidatesMap -> CandidatesMap -> Prop :=
| removal_at c square cs val :
    Js.get c square = Some cs ->
    _in val cs = true ->
    removal c (Js.set c square (Js.replace cs val)).

(** Any number of such mutations, one after the other. *)
Inductive removals : CandidatesMap -> CandidatesMap -> Prop :=
| removals_none c : removals c c
| removals_more c1 c2 c3 : removal c1 c2 -> removals c2 c3 -> removals c1 c3.

(** A store keyed by the 81 squares and by nothing else. *)
Definition keyed (c : CandidatesMap) : Prop :=
  forall k, In k (Js.keys c) <-> In k squares.

(** The group of [groups] a row letter or column digit belongs to. *)
Definition band (ch : ascii) (groups : list string) : string :=
  match find (fun g => _in ch g) groups with
  | Some g => g
  | None => EmptyString
  end.

(** [b] is a peer of [a] according to [square_peers_map]. *)
Definition peer_of (a b : string) : Prop :=
  exists peers, Js.get square_peers_map a = Some peers /\ In b peers.

(** The non-blank characters of a board. *)
Definition givens (board : Board) : list ascii :=
  filter (fun char => negb (Ascii.eqb char BLANK_CHAR)) (Js.split board).

(** [clamp(n, lo, hi)] as the specification writes it. *)
Definition clamp (n lo hi : nat) : nat := Nat.max lo (Nat.min n hi).

(** The character a board holds at a square. *)
Definition board_at (board : Board) (square : string) : ascii :=
  match Js.get (combine squares (Js.split board)) square with
  | Some ch => ch
  | None => BLANK_CHAR
  end.

(** Every digit occurs exactly once among the squares of [unit]. *)
Definition unit_complete (board : Board) (unit : list string) : bool :=
  forallb (fun d => count_occ ascii_dec (map (board_at board) unit) d =? 1)
          (Js.split DIGITS).

(** A complete, correct solution: 81 digits, every unit complete. *)
Definition solved_board (board : Board) : bool :=
  (String.length board =? 81)
  && forallb (fun char => _in char DIGITS) (Js.split board)
  && forallb (unit_complete board) units.

(** The two boards of the concrete scenario: as the specification prints
    it, and with the blank marker in place of the zeros. *)
Definition classic_zeros : Board :=
  "003020600900305001001806400008102900700000008006708200002609500800203009005010300".
Definition classic : Board :=
  "..3.2.6..9..3.5..1..18.64....81.29..7.......8..67.82....26.95..8..2.3..9..5.1.3..".
Definition classic_solution : string :=
  "483921657967345821251876493548132976729564138136798245372689514814253769695417382".

(** A board in which every character ['0'] stands for a blank, rewritten
    with the blank marker. *)
Definition zeros_to_blanks (board : string) : Board :=
  string_of_list_ascii
    (map (fun char => if Ascii.eqb char "0" then BLANK_CHAR else char)
         (Js.split board)).

(** A fixed sequence of draws used to run the generator. *)
Definition sample_draws : random_source :=
  fun n => let x := (n * 37 + 13) mod 101 in (x, 100 - x).

(** [Math.random()] returning 0 at every call. *)
Definition zero_draws : random_source := fun _ => (0, 0).

(** All digits everywhere: the store before any given is assigned. *)
Definition full_store : CandidatesMap := map (fun sq => (sq, DIGITS)) squares.

(** A store agrees with an assignment [sol] of characters to squares when
    its candidate strings are repetition-free strings of digits and the
    candidates of every square still hold the character [sol] gives it. *)
Definition agrees (sol : string -> ascii) (c : CandidatesMap) : Prop :=
  (forall sq cs, Js.get c sq = Some cs ->
                 NoDup (Js.split cs) /\ incl (Js.split cs) (Js.split DIGITS))
  /\ (forall sq, In sq squares ->
                 exists cs, Js.get c sq = Some cs /\ In (sol sq) (Js.split cs)).

(** The square is down to the one candidate [sol] gives it. *)
Definition settled (sol : string -> ascii) (c : CandidatesMap) (sq : string)
  : Prop :=
  Js.get c sq = Some (Js.str (sol sq)).

(** Candidate strings are repetition-free strings of digits. *)
Definition tidy (c : CandidatesMap) : Prop :=
  forall sq cs, Js.get c sq = Some cs ->
                NoDup (Js.split cs) /\ incl (Js.split cs) (Js.split DIGITS).

(** The elements an array under shuffling holds so far, in slot order. *)
Definition filled {A : Type} (shuffled : list (option A)) : list A :=
  flat_map (fun slot => match slot with Some x => [x] | None => [] end) shuffled.

(** [h'] is [h] with new objects after it: every object of [h] is where
    it was and as it was. *)
Definition extends (h h' : heap) : Prop := exists fresh, h' = h ++ fresh.

(* ================================================================= *)
(** ** Conversions, printing and the remaining utilities *)

Definition BoardGrid := list (list string).

(** The line feed of [H_PADDING] and [H_BOX_PADDING]. *)
Definition LF : ascii := ascii_of_nat 10.

(** The loop of [board_string_to_grid], from entry [key] on: every value is
    pushed on the current row, and the row is pushed on the grid after the
    keys 8, 17, 26, ... *)
Fixpoint grid_rows (vals : list ascii) (key : nat) (cur_row : list string)
  (rows : BoardGrid) : BoardGrid :=
  match vals with
  | [] => rows
  | val :: rest =>
      let cur_row := cur_row ++ [Js.str val] in
      if key mod 9 =? 8
      then grid_rows rest (S key) [] (rows ++ [cur_row])
      else grid_rows rest (S key) cur_row rows
  end.

(** [board_string_to_grid].  A row still open when the string ends is not
    pushed. *)
Definition board_string_to_grid (board_string : Board) : BoardGrid :=
  grid_rows (Js.split board_string) 0 [] [].

(** [board_string += board_grid[r][c]] over the given index pairs: a missing
    row is [undefined], whose element cannot be read; a missing element
    appends the text of [undefined]. *)
Fixpoint append_cells (board_grid : BoardGrid) (cells : list (nat * nat))
  (board_string : string) : outcome string :=
  match cells with
  | [] => Ret board_string
  | (r, c) :: rest =>
      match nth_error board_grid r with
      | None => Throw TypeError
      | Some row =>
          append_cells board_grid rest
            (board_string ++ match nth_error row c with
                             | Some cell => cell
                             | None => "undefined"
                             end)%string
      end
  end.

(** [board_grid_to_string]: rows 0 to 8, columns 0 to 8 of each. *)
Definition board_grid_to_string (board_grid : BoardGrid) : outcome Board :=
  append_cells board_grid
    (flat_map (fun r => map (fun c => (r, c)) (seq 0 9)) (seq 0 9))
    EmptyString.

(** The loop of [print_board], from entry [key] on. *)
Fixpoint display (vals : list ascii) (key : nat) (display_string : string)
  : string :=
  match vals with
  | [] => display_string
  | val :: rest =>
      let V_PADDING := " " in
      let H_PADDING := Js.str LF in
      let V_BOX_PADDING := "  " in
      let H_BOX_PADDING := Js.str LF in
      let display_string := (display_string ++ Js.str val ++ V_PADDING)%string in
      let display_string :=
        if key mod 3 =? 2 then (display_string ++ V_BOX_PADDING)%string
        else display_string in
      let display_string :=
        if key mod 9 =? 8 then (display_string ++ H_PADDING)%string
        else display_string in
      let display_string :=
        if key mod 27 =? 26 then (display_string ++ H_BOX_PADDING)%string
        else display_string in
      display rest (S key) display_string
  end.

(** [print_board]: the text handed to [console.log], or the exception of
    [validate_board]. *)
Definition print_board (board : string) : outcome string :=
  match validate_board board with
  | Throw e => Throw e
  | Ret _ => Ret (display (Js.split board) 0 EmptyString)
  end.

(** [_first_true]: the first truthy element, or [false] ([None]). *)
Fixpoint _first_true (seq : list string) : option string :=
  match seq with
  | [] => None
  | s :: rest => if truthy_string s then Some s else _first_true rest
  end.

(** The characters of a printed board that are not padding. *)
Definition unpadded (text : string) : string :=
  string_of_list_ascii
    (filter (fun ch => negb (Ascii.eqb ch " ") && negb (Ascii.eqb ch LF))
            (Js.split text)).

(** [n] rows of nine cells each, cut from [cells] in order. *)
Fixpoint rows_of_nine (n : nat) (cells : list string) : BoardGrid :=
  match n with
  | O => []
  | S n' => firstn 9 cells :: rows_of_nine n' (skipn 9 cells)
  end.

(** A grid of nine rows of nine one-character cells. *)
Definition nine_by_nine (grid : BoardGrid) : Prop :=
  List.length grid = 9
  /\ forall row, In row grid ->
       List.length row = 9
       /\ forall cell, In cell row -> exists ch, cell = Js.str ch.

(* ================================================================= *)
(** ** Notions for the solver *)

(** No square of the store has run out of candidates. *)
Definition nonempty (c : CandidatesMap) : Prop :=
  forall sq cs, Js.get c sq = Some cs -> cs <> EmptyString.

(** No peer of [sq] has [d] among its candidates. *)
Definition lacks (c : CandidatesMap) (sq : string) (d : ascii) : Prop :=
  forall p cs, peer_of sq p -> Js.get c p = Some cs -> ~ In d (Js.split cs).

(** Every square that is down to one candidate has had it removed from all
    its peers. *)
Definition propagated (c : CandidatesMap) : Prop :=
  forall sq d, Js.get c sq = Some (Js.str d) -> lacks c sq d.

(** The state of a store between two calls of the solver: the 81 squares
    in order, candidate strings that are non-empty repetition-free strings
    of digits, and single candidates propagated. *)
Definition sound (c : CandidatesMap) : Prop :=
  Js.keys c = squares /\ tidy c /\ nonempty c /\ propagated c.

(** From [c] to [c'] candidates were only removed, no square was emptied,
    and every square that came down to one candidate had it removed from
    its peers. *)
Definition advances (c c' : CandidatesMap) : Prop :=
  removals c c'
  /\ (nonempty c -> nonempty c')
  /\ forall sq d, Js.get c' sq = Some (Js.str d) ->
                  Js.get c sq = Some (Js.str d) \/ lacks c' sq d.

(** [s] is a complete correct board that keeps every given of [board]. *)
Definition completes (s board : Board) : Prop :=
  solved_board s = true
  /\ forall sq, In sq squares ->
                board_at board sq <> BLANK_CHAR ->
                board_at s sq = board_at board sq.

(** The string [solve] reads off a store. *)
Definition solution_of (result : CandidatesMap) : string :=
  fold_left (fun solution square =>
               (solution ++ match Js.get result square with
                            | Some cs => cs
                            | None => "undefined"
                            end)%string)
            (Js.keys result) EmptyString.

(** *** The search, by value

    The same search with stores passed as values instead of references;
    [search_refines] relates it to [_search]. *)

Definition found : Type := option (outcome (option CandidatesMap)).

Fixpoint first_found {A : Type} (body : A -> found) (xs : list A) : found :=
  match xs with
  | [] => Some (Ret None)
  | x :: rest =>
      match body x with
      | Some (Ret None) => first_found body rest
      | stop => stop
      end
  end.

Definition search_store_with
  (assign : CandidatesMap -> string -> ascii -> propagation)
  (search : option CandidatesMap -> bool -> found)
  (candidates : option CandidatesMap) (reverse : bool) : found :=
  match candidates with
  | None => Some (Ret None)
  | Some c =>
      match max_candidates c squares 0 with
      | None => Some (Throw TypeError)
      | Some max_nr_candidates =>
          if max_nr_candidates =? 1 then Some (Ret (Some c))
          else
            match min_candidates c squares 10 None with
            | None => Some (Throw TypeError)
            | Some min_candidates_square =>
                let square := key_of min_candidates_square in
                match Js.get c square with
                | None => Some (Throw TypeError)
                | Some min_cs =>
                    let branch (rv : bool) (val : ascii) : found :=
                      match assign c square val with
                      | None => None
                      | Some (Throw e, _) => Some (Throw e)
                      | Some (Ret true, o) => search (Some o) rv
                      | Some (Ret false, _) => search None rv
                      end in
                    if negb reverse
                    then first_found (branch false) (Js.split min_cs)
                    else first_found (branch reverse) (rev (Js.split min_cs))
                end
            end
      end
  end.

Fixpoint search_store (fuel : nat) : option CandidatesMap -> bool -> found :=
  match fuel with
  | O => fun _ _ => None
  | S fuel' => search_store_with (_assign fuel') (search_store fuel')
  end.

(** What a reference or [false] stands for in a heap. *)
Definition content (h : heap) (v : value) : option CandidatesMap :=
  match v with
  | VFalse => None
  | VRef l => nth_error h l
  end.

(** A reference points into the heap. *)
Definition valid (h : heap) (v : value) : Prop :=
  match v with
  | VFalse => True
  | VRef l => l < List.length h
  end.

(** A call on the heap [h] and a call by value came to the same end. *)
Definition refines (h : heap) (res : searching) (res' : found) : Prop :=
  match res with
  | None => res' = None
  | Some (Throw e, _) => res' = Some (Throw e)
  | Some (Ret v, h') =>
      extends h h' /\ valid h' v /\ res' = Some (Ret (content h' v))
  end.

(** [solve] over the search by value. *)
Definition solve_store (fuel : nat) (board : Board) (reverse : bool)
  : option (outcome solve_result) :=
  match validate_board board with
  | Throw e => Some (Throw e)
  | Ret _ =>
      if List.length
           (filter (fun char => negb (Ascii.eqb char BLANK_CHAR) && _in char DIGITS)
                   (Js.split board)) <? MIN_GIVENS
      then Some (Throw (Error ERR_GIVENS_SIZE_INSUFFICIENT))
      else
        match _get_candidates_map fuel board with
        | None => None
        | Some (Throw e) => Some (Throw e)
        | Some (Ret made) =>
            match search_store fuel made reverse with
            | None => None
            | Some (Throw e) => Some (Throw e)
            | Some (Ret None) => Some (Ret NoSolution)
            | Some (Ret (Some result)) => Some (Ret (Solution (solution_of result)))
            end
        end
  end.

(** One turn of the loop of [_search] over the values of the chosen
    square, by value: assign [val] to [square] on a copy of [c] and search
    on from there. *)
Definition search_branch (fuel : nat) (c : CandidatesMap) (square : string)
  (rv : bool) (val : ascii) : found :=
  match _assign fuel c square val with
  | None => None
  | Some (Throw e, _) => Some (Throw e)
  | Some (Ret true, o) => search_store fuel (Some o) rv
  | Some (Ret false, _) => search_store fuel None rv
  end.

(* ================================================================= *)
(** * Properties *)

(* ----------------------------------------------------------------- *)
(** ** Strings, arrays and objects *)

Lemma in_iff (v : ascii) (seq : string) :
  _in v seq = true <-> In v (Js.split seq).
Proof.
  unfold _in. induction seq as [|c rest IH]; simpl.
  - split; [discriminate | tauto].
  - destruct (Ascii.eqb_spec c v) as [->|Hne]; simpl.
    + split; auto.
    + destruct (Js.indexOf rest v =? -1)%Z eqn:E; simpl in *.
      * split; [discriminate|]. intros [H|H]; [contradiction|].
        apply IH in H. discriminate.
      * split; intros H.
        -- right. apply IH. reflexivity.
        -- destruct (Js.indexOf rest v + 1 =? -1)%Z eqn:E'; [|reflexivity].
           exfalso. apply Z.eqb_eq in E'. apply Z.eqb_neq in E.
           assert (Hge : forall s, (-1 <= Js.indexOf s v)%Z).
           { clear. induction s as [|c s IHs]; simpl; [lia|].
             destruct (Ascii.eqb c v); [lia|].
             destruct (Js.indexOf s v =? -1)%Z; lia. }
           specialize (Hge rest). lia.
Qed.

Lemma in_false_iff (v : ascii) (seq : string) :
  _in v seq = false <-> ~ In v (Js.split seq).
Proof.
  rewrite <- in_iff. destruct (_in v seq); split; congruence.
Qed.

Lemma includes_iff (arr : list string) (x : string) :
  Js.includes arr x = true <-> In x arr.
Proof.
  induction arr as [|y rest IH]; simpl.
  - split; [discriminate | tauto].
  - destruct (String.eqb_spec y x) as [->|Hne].
    + split; auto.
    + rewrite IH. split; [auto|]. intros [H|H]; [contradiction | exact H].
Qed.

Lemma length_split (s : string) : List.length (Js.split s) = String.length s.
Proof. induction s; simpl; congruence. Qed.

Lemma split_replace_in (s : string) (v x : ascii) :
  In x (Js.split (Js.replace s v)) -> In x (Js.split s).
Proof.
  induction s as [|c rest IH]; simpl; [tauto|].
  destruct (Ascii.eqb c v); simpl; [auto|]. intros [H|H]; auto.
Qed.

Lemma split_replace_other (s : string) (v x : ascii) :
  x <> v -> In x (Js.split s) -> In x (Js.split (Js.replace s v)).
Proof.
  intros Hne. induction s as [|c rest IH]; simpl; [tauto|].
  destruct (Ascii.eqb_spec c v) as [->|Hcv]; simpl.
  - intros [H|H]; [congruence | exact H].
  - intros [H|H]; auto.
Qed.

Lemma length_replace (s : string) (v : ascii) :
  _in v s = true -> S (String.length (Js.replace s v)) = String.length s.
Proof.
  rewrite in_iff. induction s as [|c rest IH]; simpl; [tauto|].
  destruct (Ascii.eqb_spec c v) as [->|Hcv]; simpl; [reflexivity|].
  intros [H|H]; [contradiction|]. rewrite IH; auto.
Qed.

Lemma NoDup_replace (s : string) (v : ascii) :
  NoDup (Js.split s) -> NoDup (Js.split (Js.replace s v)).
Proof.
  induction s as [|c rest IH]; simpl; intros H; [exact H|].
  inversion H as [|? ? Hn Hd]; subst.
  destruct (Ascii.eqb c v); simpl; [exact Hd|].
  constructor; [|auto]. intros Hin. apply Hn. eapply split_replace_in; eauto.
Qed.

Lemma replace_gone (s : string) (v : ascii) :
  NoDup (Js.split s) -> ~ In v (Js.split (Js.replace s v)).
Proof.
  induction s as [|c rest IH]; simpl; intros H; [tauto|].
  inversion H as [|? ? Hn Hd]; subst.
  destruct (Ascii.eqb_spec c v) as [->|Hcv]; simpl; [exact Hn|].
  intros [Hx|Hx]; [contradiction | exact (IH Hd Hx)].
Qed.

Lemma get_set_same {V : Type} (obj : list (string * V)) (k : string) (v w : V) :
  Js.get obj k = Some w -> Js.get (Js.set obj k v) k = Some v.
Proof.
  induction obj as [|[k' w'] rest IH]; simpl; [discriminate|].
  destruct (String.eqb k' k) eqn:E; simpl; rewrite E; auto.
Qed.

Lemma get_set_other {V : Type} (obj : list (string * V)) (k k' : string) (v : V) :
  k' <> k -> Js.get (Js.set obj k v) k' = Js.get obj k'.
Proof.
  intros Hne. induction obj as [|[k0 w0] rest IH]; simpl.
  - destruct (String.eqb_spec k k'); congruence.
  - destruct (String.eqb_spec k0 k) as [->|Hk]; simpl.
    + destruct (String.eqb_spec k k'); congruence.
    + rewrite IH. reflexivity.
Qed.

Lemma keys_set {V : Type} (obj : list (string * V)) (k : string) (v w : V) :
  Js.get obj k = Some w -> Js.keys (Js.set obj k v) = Js.keys obj.
Proof.
  unfold Js.keys.
  induction obj as [|[k' w'] rest IH]; simpl; [discriminate|].
  destruct (String.eqb k' k) eqn:E; simpl; [reflexivity|].
  intros H. rewrite IH; auto.
Qed.

Lemma get_in_keys {V : Type} (obj : list (string * V)) (k : string) :
  In k (Js.keys obj) <-> exists v, Js.get obj k = Some v.
Proof.
  unfold Js.keys. induction obj as [|[k' w'] rest IH]; simpl.
  - split; [tauto | intros [v H]; discriminate].
  - destruct (String.eqb_spec k' k) as [->|Hk].
    + split; eauto.
    + rewrite <- IH. split; [intros [H|H]; [contradiction | exact H] | auto].
Qed.

Lemma get_tabulate {V : Type} (f : string -> V) (l : list string) (k : string) :
  In k l -> Js.get (map (fun s => (s, f s)) l) k = Some (f k).
Proof.
  induction l as [|x rest IH]; simpl; [tauto|].
  destruct (String.eqb_spec x k) as [->|Hk]; [reflexivity|].
  intros [H|H]; [contradiction | auto].
Qed.

Lemma get_tabulate_inv {V : Type} (f : string -> V) (l : list string)
  (k : string) (v : V) :
  Js.get (map (fun s => (s, f s)) l) k = Some v -> In k l /\ v = f k.
Proof.
  induction l as [|x rest IH]; simpl; [discriminate|].
  destruct (String.eqb_spec x k) as [->|Hk].
  - intros H. inversion H. auto.
  - intros H. destruct (IH H). auto.
Qed.

(* ----------------------------------------------------------------- *)
(** ** Topology *)

Lemma units_map_built :
  square_units_map = _get_square_units_map squares units.
Proof. reflexivity. Qed.

Lemma peers_map_built :
  square_peers_map = _get_square_peers_map squares square_units_map.
Proof. reflexivity. Qed.

(** The units of a square are exactly the units that contain it. *)
Lemma units_of_square (sq : string) (us : list (list string)) :
  Js.get square_units_map sq = Some us ->
  In sq squares /\ us = filter (fun u => Js.includes u sq) units.
Proof.
  rewrite units_map_built. unfold _get_square_units_map.
  intros H. apply get_tabulate_inv in H. exact H.
Qed.

Lemma unit_of_square_in (sq : string) (us : list (list string)) (u : list string) :
  Js.get square_units_map sq = Some us ->
  In u us <-> In u units /\ In sq u.
Proof.
  intros H. apply units_of_square in H as [_ ->].
  rewrite filter_In, includes_iff. reflexivity.
Qed.

Section CollectPeers.

Variable cur_square : string.

Lemma push_spec (peers : list string) (x p : string) :
  In p (push_peer cur_square peers x) <-> In p peers \/ (p = x /\ p <> cur_square).
Proof.
  unfold push_peer.
  destruct (Js.includes peers x) eqn:Ei; simpl.
  - apply includes_iff in Ei. split; [auto|].
    intros [H|[-> _]]; assumption.
  - destruct (String.eqb_spec x cur_square) as [->|Hne]; simpl.
    + split; [auto|]. intros [H|[-> H]]; [assumption | contradiction].
    + rewrite in_app_iff. simpl. split.
      * intros [H|[H|[]]]; [auto|]. subst. auto.
      * intros [H|[-> _]]; auto.
Qed.

Lemma push_NoDup (peers : list string) (x : string) :
  NoDup peers -> NoDup (push_peer cur_square peers x).
Proof.
  unfold push_peer. intros Hnd.
  destruct (Js.includes peers x) eqn:Ei; simpl; [exact Hnd|].
  destruct (String.eqb x cur_square); simpl; [exact Hnd|].
  apply NoDup_app; [exact Hnd | repeat constructor; simpl; tauto |].
  intros y Hy [<-|[]].
  apply includes_iff in Hy. congruence.
Qed.

Lemma push_unit_spec (cur_unit peers : list string) (p : string) :
  In p (fold_left (push_peer cur_square) cur_unit peers)
  <-> In p peers \/ (In p cur_unit /\ p <> cur_square).
Proof.
  revert peers. induction cur_unit as [|x rest IH]; intros peers; simpl.
  - tauto.
  - rewrite IH, push_spec. intuition (subst; auto).
Qed.

Lemma push_unit_NoDup (cur_unit peers : list string) :
  NoDup peers -> NoDup (fold_left (push_peer cur_square) cur_unit peers).
Proof.
  revert peers. induction cur_unit as [|x rest IH]; intros peers H; simpl.
  - exact H.
  - apply IH, push_NoDup, H.
Qed.

Lemma push_units_spec (us : list (list string)) (peers : list string) (p : string) :
  In p (fold_left (fun acc u => fold_left (push_peer cur_square) u acc) us peers)
  <-> In p peers \/ (p <> cur_square /\ exists u, In u us /\ In p u).
Proof.
  revert peers. induction us as [|u rest IH]; intros peers; simpl.
  - split; [auto|]. intros [H|[_ [u [[] _]]]]. exact H.
  - rewrite IH, push_unit_spec. split.
    + intros [[H|[H1 H2]]|[H1 [v [H2 H3]]]]; eauto 7.
    + intros [H|[H1 [v [[<-|H2] H3]]]]; eauto 7.
Qed.

Lemma push_units_NoDup (us : list (list string)) (peers : list string) :
  NoDup peers -> NoDup (fold_left (fun acc u => fold_left (push_peer cur_square) u acc) us peers).
Proof.
  revert peers. induction us as [|u rest IH]; intros peers H; simpl.
  - exact H.
  - apply IH, push_unit_NoDup, H.
Qed.

(** [collect_peers] yields, without repetition, the squares other than
    [cur_square] that lie in one of the given units. *)
Lemma collect_peers_spec (us : list (list string)) (p : string) :
  In p (collect_peers cur_square us)
  <-> p <> cur_square /\ exists u, In u us /\ In p u.
Proof.
  unfold collect_peers. rewrite push_units_spec. simpl. tauto.
Qed.

Lemma collect_peers_NoDup (us : list (list string)) :
  NoDup (collect_peers cur_square us).
Proof.
  unfold collect_peers. apply push_units_NoDup. constructor.
Qed.

End CollectPeers.

(** The peers of a square, from the map the constructor builds. *)
Lemma peers_of_square (sq : string) (peers : list string) :
  Js.get square_peers_map sq = Some peers ->
  In sq squares
  /\ exists us, Js.get square_units_map sq = Some us
                /\ peers = collect_peers sq us.
Proof.
  rewrite peers_map_built. unfold _get_square_peers_map.
  intros H. apply get_tabulate_inv in H as [Hin ->].
  split; [exact Hin|].
  rewrite units_map_built. unfold _get_square_units_map.
  rewrite (get_tabulate _ _ _ Hin).
  eexists. split; reflexivity.
Qed.

Lemma peer_shares_unit (a b : string) :
  peer_of a b <->
  In a squares /\ b <> a /\ exists u, In u units /\ In a u /\ In b u.
Proof.
  unfold peer_of. split.
  - intros [peers [H Hb]].
    apply peers_of_square in H as [Ha [us [Hus ->]]].
    apply collect_peers_spec in Hb as [Hne [u [Hu Hbu]]].
    apply (unit_of_square_in _ _ _ Hus) in Hu as [Hu Hau]. eauto 7.
  - intros [Ha [Hne [u [Hu [Hau Hbu]]]]].
    exists (collect_peers a (filter (fun u => Js.includes u a) units)). split.
    + rewrite peers_map_built. unfold _get_square_peers_map.
      rewrite (get_tabulate _ _ _ Ha).
      rewrite units_map_built. unfold _get_square_units_map.
      rewrite (get_tabulate _ _ _ Ha). reflexivity.
    + apply collect_peers_spec. split; [exact Hne|].
      exists u. rewrite filter_In, includes_iff. auto.
Qed.

Lemma unit_squares (u : list string) (sq : string) :
  In u units -> In sq u -> In sq squares.
Proof.
  intros Hu Hsq.
  assert (H : forallb (fun u => forallb (Js.includes squares) u) units = true)
    by (vm_compute; reflexivity).
  rewrite forallb_forall in H. specialize (H u Hu).
  rewrite forallb_forall in H. apply includes_iff, H, Hsq.
Qed.

Lemma units_map_at (sq : string) :
  In sq squares ->
  Js.get square_units_map sq
  = Some (filter (fun u => Js.includes u sq) units).
Proof.
  intros Hsq. rewrite units_map_built. unfold _get_square_units_map.
  rewrite (get_tabulate _ _ _ Hsq). reflexivity.
Qed.

Lemma peers_map_at (sq : string) :
  In sq squares ->
  Js.get square_peers_map sq
  = Some (collect_peers sq (filter (fun u => Js.includes u sq) units)).
Proof.
  intros Hsq. rewrite peers_map_built. unfold _get_square_peers_map.
  rewrite (get_tabulate _ _ _ Hsq), (units_map_at sq Hsq). reflexivity.
Qed.

(** C7: the topology has 81 squares and 27 units of 9 squares; every
    square has exactly three units, its row, its column and its box; every
    square has exactly 20 distinct peers, none of them itself, which are the
    other squares of its three units; and being a peer is symmetric. *)
Theorem topology_shape :
  squares = _cross ROWS COLS
  /\ units = _get_all_units ROWS COLS
  /\ square_units_map = _get_square_units_map squares units
  /\ square_peers_map = _get_square_peers_map squares square_units_map
  /\ List.length squares = 81
  /\ List.length units = 27
  /\ (forall u, In u units -> List.length u = 9)
  /\ (forall sq, In sq squares ->
        exists r c,
          sq = String r (Js.str c)
          /\ Js.get square_units_map sq
             = Some [ _cross (Js.str r) COLS;
                      _cross ROWS (Js.str c);
                      _cross (band r ["ABC"; "DEF"; "GHI"])
                             (band c ["123"; "456"; "789"]) ])
  /\ (forall sq us u, Js.get square_units_map sq = Some us ->
        In u us <-> In u units /\ In sq u)
  /\ (forall sq, In sq squares ->
        exists us peers,
          Js.get square_units_map sq = Some us
          /\ Js.get square_peers_map sq = Some peers
          /\ List.length peers = 20
          /\ NoDup peers
          /\ forall p, In p peers <-> p <> sq /\ exists u, In u us /\ In p u)
  /\ (forall a b, peer_of a b <-> peer_of b a).
Proof.
  do 6 (split; [reflexivity|]).
  split.
  { intros u Hu.
    assert (H : forallb (fun u => List.length u =? 9) units = true)
      by (vm_compute; reflexivity).
    rewrite forallb_forall in H. apply Nat.eqb_eq, H, Hu. }
  split.
  { intros sq Hsq. unfold squares in Hsq.
    repeat (destruct Hsq as [<-|Hsq];
            [do 2 eexists; split; [reflexivity | vm_compute; reflexivity]|]).
    destruct Hsq. }
  split.
  { intros sq us u H. apply unit_of_square_in, H. }
  split.
  { intros sq Hsq.
    exists (filter (fun u => Js.includes u sq) units).
    exists (collect_peers sq (filter (fun u => Js.includes u sq) units)).
    pose proof (units_map_at sq Hsq) as Hu.
    pose proof (peers_map_at sq Hsq) as Hp.
    split; [exact Hu|]. split; [exact Hp|].
    split.
    { assert (H : forallb
                    (fun sq => match Js.get square_peers_map sq with
                               | Some ps => List.length ps =? 20
                               | None => false
                               end) squares = true)
        by (vm_compute; reflexivity).
      rewrite forallb_forall in H. specialize (H sq Hsq).
      rewrite Hp in H. apply Nat.eqb_eq, H. }
    split; [apply collect_peers_NoDup|].
    intros p. apply collect_peers_spec. }
  intros a b. rewrite !peer_shares_unit. split.
  - intros [Ha [Hne [u [Hu [Hau Hbu]]]]].
    split; [eapply unit_squares; eauto|]. split; [congruence|]. eauto.
  - intros [Ha [Hne [u [Hu [Hau Hbu]]]]].
    split; [eapply unit_squares; eauto|]. split; [congruence|]. eauto.
Qed.


(** From here on the four tables are only used through the lemmas above. *)
Opaque squares units square_units_map square_peers_map.

(** A call that returns on the spot, heap or store untouched. *)
Ltac returns_at_once :=
  eexists; eexists; split;
  [ reflexivity
  | first [ apply removals_none | exists nil; symmetry; apply app_nil_r ] ].


(* ----------------------------------------------------------------- *)
(** ** More fuel never changes a result *)

Lemma for_each_mono {A : Type} (b1 b2 : CandidatesMap -> A -> propagation)
  (xs : list A) (c : CandidatesMap) (r : outcome bool * CandidatesMap) :
  (forall c x r, In x xs -> b1 c x = Some r -> b2 c x = Some r) ->
  for_each b1 xs c = Some r -> for_each b2 xs c = Some r.
Proof.
  revert c. induction xs as [|x rest IH]; intros c Hb; simpl; [auto|].
  destruct (b1 c x) as [[[[|]|e] c']|] eqn:E; intros H;
    try discriminate;
    rewrite (Hb _ _ _ (or_introl eq_refl) E); auto.
  apply IH; [|exact H]. intros; eapply Hb; eauto. right; assumption.
Qed.

Section MoreFuel.

Variables eliminate1 eliminate2 : CandidatesMap -> string -> ascii -> propagation.
Hypothesis eliminate_le :
  forall c sq v r, eliminate1 c sq v = Some r -> eliminate2 c sq v = Some r.

Lemma assign_with_mono c sq v r :
  assign_with eliminate1 c sq v = Some r -> assign_with eliminate2 c sq v = Some r.
Proof.
  unfold assign_with. destruct (Js.get c sq); [|auto].
  apply for_each_mono. intros; auto.
Qed.

Lemma eliminate_with_mono c sq v r :
  eliminate_with eliminate1 c sq v = Some r ->
  eliminate_with eliminate2 c sq v = Some r.
Proof.
  unfold eliminate_with. destruct (Js.get c sq) as [cs|]; [|auto].
  destruct (negb (_in v cs)); [auto|].
  set (c1 := Js.set c sq (Js.replace cs v)).
  assert (Hunits : forall c2 us,
    for_each (fun c unit =>
                match val_places c v unit with
                | None => Some (Throw TypeError, c)
                | Some [] => Some (Ret false, c)
                | Some [place] => assign_with eliminate1 c place v
                | Some _ => Some (Ret true, c)
                end) us c2 = Some r ->
    for_each (fun c unit =>
                match val_places c v unit with
                | None => Some (Throw TypeError, c)
                | Some [] => Some (Ret false, c)
                | Some [place] => assign_with eliminate2 c place v
                | Some _ => Some (Ret true, c)
                end) us c2 = Some r).
  { intros c2 us. apply for_each_mono. intros c3 u r3 _.
    destruct (val_places c3 v u) as [[|p [|q ps]]|]; auto.
    apply assign_with_mono. }
  destruct (Js.replace cs v) as [|t [|t' rest]]; simpl.
  - auto.
  - destruct (Js.get square_peers_map sq) as [peers|]; [|auto].
    destruct (for_each (fun c peer => eliminate1 c peer t) peers c1)
      as [[[[|]|e] c2]|] eqn:E; intros H; try discriminate;
      rewrite (for_each_mono _ (fun c peer => eliminate2 c peer t) _ _ _
                 (fun c x r _ => eliminate_le c x t r) E); auto.
    destruct (Js.get square_units_map sq); auto.
  - destruct (Js.get square_units_map sq); auto.
Qed.

End MoreFuel.

Lemma eliminate_fuel_S (fuel : nat) c sq v r :
  _eliminate fuel c sq v = Some r -> _eliminate (S fuel) c sq v = Some r.
Proof.
  revert c sq v r. induction fuel as [|fuel IH]; intros c sq v r.
  - discriminate.
  - change (_eliminate (S (S fuel))) with (eliminate_with (_eliminate (S fuel))).
    change (_eliminate (S fuel)) with (eliminate_with (_eliminate fuel)) at 1.
    apply eliminate_with_mono. exact IH.
Qed.

Lemma eliminate_fuel_mono (fuel fuel' : nat) c sq v r :
  fuel <= fuel' ->
  _eliminate fuel c sq v = Some r -> _eliminate fuel' c sq v = Some r.
Proof.
  induction 1; [auto|]. intros Hr. apply eliminate_fuel_S. auto.
Qed.

Lemma assign_fuel_mono (fuel fuel' : nat) c sq v r :
  fuel <= fuel' ->
  _assign fuel c sq v = Some r -> _assign fuel' c sq v = Some r.
Proof.
  intros Hle. unfold _assign. apply assign_with_mono.
  intros. eapply eliminate_fuel_mono; eauto.
Qed.

Lemma get_candidates_map_fuel_mono (fuel fuel' : nat) board r :
  fuel <= fuel' ->
  _get_candidates_map fuel board = Some r ->
  _get_candidates_map fuel' board = Some r.
Proof.
  intros Hle. unfold _get_candidates_map.
  destruct (validate_board board); [|auto].
  destruct (_get_square_vals_map board) as [m|]; [|auto].
  match goal with
  | |- match for_each ?b ?xs ?c with _ => _ end = _ -> _ =>
      destruct (for_each b xs c) as [x|] eqn:E; [|discriminate];
      erewrite for_each_mono; [intros H; exact H | | exact E]
  end.
  intros c [sq v] r0 _. simpl. destruct (_in v DIGITS); [|auto].
  apply assign_fuel_mono. exact Hle.
Qed.

Lemma first_truthy_mono {A : Type} (b1 b2 : heap -> A -> searching)
  (xs : list A) (h : heap) (r : outcome value * heap) :
  (forall h x r, b1 h x = Some r -> b2 h x = Some r) ->
  first_truthy b1 xs h = Some r -> first_truthy b2 xs h = Some r.
Proof.
  intros Hb. revert h. induction xs as [|x rest IH]; intros h; simpl; [auto|].
  destruct (b1 h x) as [[[[|l]|e] h']|] eqn:E; intros H;
    try discriminate; rewrite (Hb _ _ _ E); auto.
Qed.

Lemma at_ref_mono (l : nat) (run1 run2 : CandidatesMap -> propagation) h r :
  (forall o r, run1 o = Some r -> run2 o = Some r) ->
  at_ref l run1 h = Some r -> at_ref l run2 h = Some r.
Proof.
  intros Hrun. unfold at_ref. destruct (nth_error h l) as [o|]; [|auto].
  destruct (run1 o) as [x|] eqn:E; [|discriminate].
  rewrite (Hrun _ _ E). auto.
Qed.

Lemma search_with_mono assign1 assign2 search1 search2 h v rv r :
  (forall c sq v r, assign1 c sq v = Some r -> assign2 c sq v = Some r) ->
  (forall h v rv r, search1 h v rv = Some r -> search2 h v rv = Some r) ->
  search_with assign1 search1 h v rv = Some r ->
  search_with assign2 search2 h v rv = Some r.
Proof.
  intros Ha Hs. unfold search_with.
  destruct v as [|l]; [auto|].
  destruct (nth_error h l) as [c|]; [|auto].
  destruct (max_candidates c squares 0) as [m|]; [|auto].
  destruct (m =? 1); [auto|].
  destruct (min_candidates c squares 10 None) as [sq|]; [|auto].
  destruct (Js.get c (key_of sq)) as [min_cs|]; [|auto].
  assert (Hbranch : forall b h0 x r0,
    match nth_error h0 l with
    | None => Some (Throw TypeError, h0)
    | Some now =>
        let (l', h1) := json_copy h0 now in
        match at_ref l' (fun o => assign1 o (key_of sq) x) h1 with
        | Some (Ret v, h2) => search1 h2 v b
        | stop => stop
        end
    end = Some r0 ->
    match nth_error h0 l with
    | None => Some (Throw TypeError, h0)
    | Some now =>
        let (l', h1) := json_copy h0 now in
        match at_ref l' (fun o => assign2 o (key_of sq) x) h1 with
        | Some (Ret v, h2) => search2 h2 v b
        | stop => stop
        end
    end = Some r0).
  { intros b h0 x r0. destruct (nth_error h0 l) as [now|]; [|auto].
    unfold json_copy.
    destruct (at_ref (List.length h0) (fun o => assign1 o (key_of sq) x) (h0 ++ [now]))
      as [y|] eqn:E; [|discriminate].
    erewrite at_ref_mono; [| |exact E]; [|intros; apply Ha; assumption].
    destruct y as [[w|e] h2]; auto. }
  destruct (negb rv); apply first_truthy_mono; intros; apply Hbranch; assumption.
Qed.

Lemma search_fuel_S (fuel : nat) h v rv r :
  _search fuel h v rv = Some r -> _search (S fuel) h v rv = Some r.
Proof.
  revert h v rv r. induction fuel as [|fuel IH]; intros h v rv r.
  - discriminate.
  - change (_search (S (S fuel)))
      with (search_with (_assign (S fuel)) (_search (S fuel))).
    change (_search (S fuel)) with (search_with (_assign fuel) (_search fuel)) at 1.
    apply search_with_mono; [|exact IH].
    intros. eapply assign_fuel_mono; [|eassumption]. lia.
Qed.

Lemma search_fuel_mono (fuel fuel' : nat) h v rv r :
  fuel <= fuel' ->
  _search fuel h v rv = Some r -> _search fuel' h v rv = Some r.
Proof.
  induction 1; [auto|]. intros Hr. apply search_fuel_S. auto.
Qed.

Lemma solve_fuel_mono (fuel fuel' : nat) board reverse r :
  fuel <= fuel' ->
  solve fuel board reverse = Some r -> solve fuel' board reverse = Some r.
Proof.
  intros Hle. unfold solve.
  destruct (validate_board board); [|auto].
  match goal with |- (if ?b then _ else _) = _ -> _ => destruct b; [auto|] end.
  destruct (_get_candidates_map fuel board) as [made|] eqn:E; [|discriminate].
  rewrite (get_candidates_map_fuel_mono _ _ _ _ Hle E).
  destruct made as [made|e]; [|auto].
  destruct (match made with Some c => (VRef 0, [c]) | None => (VFalse, []) end)
    as [v h].
  destruct (_search fuel h v reverse) as [x|] eqn:Es; [|discriminate].
  rewrite (search_fuel_mono _ _ _ _ _ _ Hle Es). auto.
Qed.

(* ----------------------------------------------------------------- *)
(** ** Validation and the entry checks of [solve] *)

Lemma validate_board_ok (board : Board) (b : bool) :
  validate_board board = Ret b ->
  b = true
  /\ String.length board = 81
  /\ forall ch, In ch (Js.split board) -> In ch (Js.split DIGITS) \/ ch = BLANK_CHAR.
Proof.
  unfold validate_board. destruct board as [|a rest]; [discriminate|].
  destruct (String.length (String a rest) =? NR_SQUARES) eqn:El; [|discriminate].
  cbv beta iota delta [negb].
  destruct (forallb _ _) eqn:Ef; [|discriminate].
  intros H. inversion H. split; [reflexivity|].
  split; [apply Nat.eqb_eq, El|].
  intros ch Hch. rewrite forallb_forall in Ef. specialize (Ef ch Hch).
  apply orb_true_iff in Ef as [Hd|Hb].
  - left. apply in_iff, Hd.
  - right. apply Ascii.eqb_eq, Hb.
Qed.

Lemma validate_board_accepts (board : Board) :
  String.length board = 81 ->
  (forall ch, In ch (Js.split board) ->
              In ch (Js.split DIGITS) \/ ch = BLANK_CHAR) ->
  validate_board board = Ret true.
Proof.
  intros Hlen Hall. unfold validate_board.
  destruct board as [|a rest]; [discriminate|].
  unfold NR_SQUARES. rewrite Hlen. cbv beta iota delta [negb Nat.eqb].
  destruct (forallb _ _) eqn:Ef; [reflexivity|].
  exfalso.
  assert (Ht : forallb (fun char => _in char DIGITS || Ascii.eqb char BLANK_CHAR)
                       (Js.split (String a rest)) = true).
  { apply forallb_forall. intros ch Hch. apply orb_true_iff.
    destruct (Hall ch Hch) as [Hd| ->].
    - left. apply in_iff, Hd.
    - right. apply Ascii.eqb_refl. }
  congruence.
Qed.

(** C8: [validate_board] fails with [ERR_BOARD_EMPTY] on the empty board,
    with [ERR_BOARD_SIZE_INVALID] on every other board whose length is not
    81, with [ERR_BOARD_CHARACTER_INVALID] on every board of length 81 that
    holds a character other than a digit 1-9 and the blank marker, and
    returns [true] on every board of 81 such characters. *)
Theorem validate_board_signals :
  validate_board EmptyString = Throw (Error ERR_BOARD_EMPTY)
  /\ (forall board,
        board <> EmptyString -> String.length board <> 81 ->
        validate_board board = Throw (Error ERR_BOARD_SIZE_INVALID))
  /\ (forall board ch,
        String.length board = 81 ->
        In ch (Js.split board) ->
        ~ In ch (Js.split DIGITS) -> ch <> BLANK_CHAR ->
        validate_board board = Throw (Error ERR_BOARD_CHARACTER_INVALID))
  /\ (forall board,
        String.length board = 81 ->
        (forall ch, In ch (Js.split board) ->
                    In ch (Js.split DIGITS) \/ ch = BLANK_CHAR) ->
        validate_board board = Ret true).
Proof.
  split; [reflexivity|]. split; [|split].
  - intros board Hne Hlen. unfold validate_board.
    destruct board as [|a rest]; [congruence|].
    apply Nat.eqb_neq in Hlen. unfold NR_SQUARES. rewrite Hlen. reflexivity.
  - intros board ch Hlen Hch Hnd Hnb. unfold validate_board.
    destruct board as [|a rest]; [discriminate|].
    unfold NR_SQUARES. rewrite Hlen. cbv beta iota delta [negb Nat.eqb].
    destruct (forallb _ _) eqn:Ef; [|reflexivity].
    rewrite forallb_forall in Ef. specialize (Ef ch Hch).
    apply orb_true_iff in Ef as [Hd|Hb].
    + apply in_iff in Hd. contradiction.
    + apply Ascii.eqb_eq in Hb. contradiction.
  - exact validate_board_accepts.
Qed.

(** The three boundary boards of the specification, through the theorem. *)
Lemma validate_board_signals_witness :
  validate_board EmptyString = Throw (Error ERR_BOARD_EMPTY)
  /\ validate_board "12" = Throw (Error ERR_BOARD_SIZE_INVALID)
  /\ validate_board
       (String "1" (string_of_list_ascii (repeat "x"%char 80)))
     = Throw (Error ERR_BOARD_CHARACTER_INVALID)
  /\ validate_board BLANK_BOARD = Ret true.
Proof.
  destruct validate_board_signals as [H1 [H2 [H3 H4]]].
  split; [exact H1|]. split; [|split].
  - apply H2; [discriminate | vm_compute; lia].
  - apply (H3 _ "x"%char).
    + reflexivity.
    + vm_compute. tauto.
    + vm_compute. intuition discriminate.
    + discriminate.
  - apply H4; [reflexivity|].
    intros ch Hch. right. vm_compute in Hch.
    repeat (destruct Hch as [<-|Hch]; [reflexivity|]). destruct Hch.
Defined.

Lemma nr_givens_valid (board : Board) :
  validate_board board = Ret true ->
  filter (fun char => negb (Ascii.eqb char BLANK_CHAR) && _in char DIGITS)
         (Js.split board)
  = givens board.
Proof.
  intros H. apply validate_board_ok in H as [_ [_ H]].
  unfold givens. apply filter_ext_in. intros ch Hch.
  destruct (Ascii.eqb_spec ch BLANK_CHAR) as [->|Hne]; [reflexivity|].
  destruct (H ch Hch) as [Hd|Hb]; [|contradiction].
  apply in_iff in Hd. rewrite Hd. reflexivity.
Qed.

(** C9: on every valid board with fewer than 17 non-blank characters,
    [solve] throws [ERR_GIVENS_SIZE_INSUFFICIENT], whatever the board holds
    and whatever [reverse] is; it returns neither a solution nor [false]. *)
Theorem solve_insufficient_givens (fuel : nat) (board : Board) (reverse : bool) :
  validate_board board = Ret true ->
  List.length (givens board) < 17 ->
  solve fuel board reverse = Some (Throw (Error ERR_GIVENS_SIZE_INSUFFICIENT)).
Proof.
  intros Hv Hn. unfold solve. rewrite Hv, (nr_givens_valid _ Hv).
  apply Nat.ltb_lt in Hn. unfold MIN_GIVENS. rewrite Hn. reflexivity.
Qed.

(** A board with sixteen givens. *)
Lemma solve_insufficient_givens_witness :
  solve 100 "1234567891234567................................................................." false
  = Some (Throw (Error ERR_GIVENS_SIZE_INSUFFICIENT)).
Proof.
  apply solve_insufficient_givens.
  - vm_compute. reflexivity.
  - vm_compute. lia.
Defined.

(* ----------------------------------------------------------------- *)
(** ** The concrete scenario *)

Lemma classic_blanked : classic = zeros_to_blanks classic_zeros.
Proof. vm_compute. reflexivity. Qed.

(** C1, as stated, fails: the board of the scenario writes its blanks as
    ['0'], which [validate_board] rejects, so [solve] throws and returns no
    solution. *)
Lemma solve_classic_zeros_throws :
  solve 100 classic_zeros false = Some (Throw (Error ERR_BOARD_CHARACTER_INVALID))
  /\ ~ (exists fuel,
          solve fuel classic_zeros false = Some (Ret (Solution classic_solution))).
Proof.
  assert (V : validate_board classic_zeros
              = Throw (Error ERR_BOARD_CHARACTER_INVALID))
    by (vm_compute; reflexivity).
  split.
  - unfold solve. rewrite V. reflexivity.
  - intros [fuel H]. unfold solve in H. rewrite V in H. discriminate.
Qed.

(** C1, amended: on the same board with the blank marker in place of the
    zeros, [solve] returns the solution of the scenario. *)
Theorem solve_classic (fuel : nat) :
  100 <= fuel ->
  solve fuel classic false = Some (Ret (Solution classic_solution)).
Proof.
  intros Hle. apply (solve_fuel_mono 100); [exact Hle|].
  vm_compute. reflexivity.
Qed.

Lemma solve_classic_witness :
  solve 100 (zeros_to_blanks classic_zeros) false
  = Some (Ret (Solution classic_solution)).
Proof.
  rewrite <- classic_blanked. apply solve_classic. lia.
Defined.

(* ----------------------------------------------------------------- *)
(** ** Propagation only removes candidates *)

Lemma size_set (c : CandidatesMap) (k cs cs' : string) :
  Js.get c k = Some cs ->
  size (Js.set c k cs') + String.length cs = size c + String.length cs'.
Proof.
  unfold size. induction c as [|[k0 v0] rest IH]; simpl; [discriminate|].
  destruct (String.eqb k0 k); simpl.
  - intros H. inversion H. subst. lia.
  - intros H. specialize (IH H). lia.
Qed.

Lemma size_get_le (c : CandidatesMap) (k cs : string) :
  Js.get c k = Some cs -> String.length cs <= size c.
Proof.
  unfold size. induction c as [|[k0 v0] rest IH]; simpl; [discriminate|].
  destruct (String.eqb k0 k); simpl.
  - intros H. inversion H. subst. lia.
  - intros H. specialize (IH H). lia.
Qed.

Lemma removal_size (c c' : CandidatesMap) :
  removal c c' -> S (size c') = size c.
Proof.
  intros [c0 sq cs v Hget Hin].
  pose proof (size_set c0 sq cs (Js.replace cs v) Hget) as Hs.
  pose proof (length_replace _ _ Hin). lia.
Qed.

Lemma removals_size (c c' : CandidatesMap) :
  removals c c' -> size c' <= size c.
Proof.
  induction 1 as [|c1 c2 c3 H1 _ IH]; [lia|].
  apply removal_size in H1. lia.
Qed.

Lemma removals_trans (c1 c2 c3 : CandidatesMap) :
  removals c1 c2 -> removals c2 c3 -> removals c1 c3.
Proof.
  induction 1; [auto|]. intros. econstructor; eauto.
Qed.

Lemma removals_one (c c' : CandidatesMap) : removal c c' -> removals c c'.
Proof. intros H. econstructor; [exact H | constructor]. Qed.

(** Either nothing was removed or the store is strictly smaller. *)
Lemma removals_same_or_smaller (c c' : CandidatesMap) :
  removals c c' -> c' = c \/ size c' < size c.
Proof.
  destruct 1 as [|c1 c2 c3 H1 H2]; [auto|]. right.
  apply removal_size in H1. apply removals_size in H2. lia.
Qed.

Lemma for_each_removals {A : Type} (body : CandidatesMap -> A -> propagation)
  (xs : list A) :
  (forall c x r c', body c x = Some (r, c') -> removals c c') ->
  forall c r c', for_each body xs c = Some (r, c') -> removals c c'.
Proof.
  intros Hb. induction xs as [|x rest IH]; intros c r c'; simpl.
  - intros H. inversion H. constructor.
  - destruct (body c x) as [[[[|]|e] c1]|] eqn:E; intros H;
      try discriminate; try (inversion H; subst; eapply Hb; eassumption).
    eapply removals_trans; [eapply Hb; eassumption | eapply IH; eassumption].
Qed.

Section OnlyRemovals.

Variable eliminate : CandidatesMap -> string -> ascii -> propagation.
Hypothesis eliminate_removes :
  forall c sq v r c', eliminate c sq v = Some (r, c') -> removals c c'.

Lemma assign_with_removals c sq v r c' :
  assign_with eliminate c sq v = Some (r, c') -> removals c c'.
Proof.
  unfold assign_with. destruct (Js.get c sq).
  - apply for_each_removals. intros ? ? ? ? Hx; exact (eliminate_removes _ _ _ _ _ Hx).
  - intros H. inversion H. constructor.
Qed.

Lemma units_loop_removals v us c r c' :
  for_each (fun c unit =>
              match val_places c v unit with
              | None => Some (Throw TypeError, c)
              | Some [] => Some (Ret false, c)
              | Some [place] => assign_with eliminate c place v
              | Some _ => Some (Ret true, c)
              end) us c = Some (r, c') ->
  removals c c'.
Proof.
  apply for_each_removals. intros c0 u r0 c0'.
  destruct (val_places c0 v u) as [[|p [|q ps]]|];
    try (intros H; inversion H; constructor).
  apply assign_with_removals.
Qed.

(** What a call of [_eliminate] does to the store: nothing at all when the
    square has no entry or does not hold [val]; otherwise it removes [val]
    from the square, and whatever else it does is removals too. *)
Lemma eliminate_with_cases c sq v r c' :
  eliminate_with eliminate c sq v = Some (r, c') ->
  (Js.get c sq = None /\ r = Throw TypeError /\ c' = c)
  \/ (exists cs, Js.get c sq = Some cs /\ _in v cs = false
                 /\ r = Ret true /\ c' = c)
  \/ (exists cs, Js.get c sq = Some cs /\ _in v cs = true
                 /\ removals (Js.set c sq (Js.replace cs v)) c').
Proof.
  unfold eliminate_with. destruct (Js.get c sq) as [cs|].
  2:{ intros H. inversion H. auto. }
  destruct (_in v cs) eqn:Ein; cbv beta iota delta [negb].
  2:{ intros H. inversion H. right. left. eauto. }
  intros H. right. right. exists cs. split; [reflexivity|]. split; [exact Ein|].
  set (c1 := Js.set c sq (Js.replace cs v)) in *.
  destruct (Js.replace cs v) as [|t [|t' rest]].
  - inversion H. constructor.
  - destruct (Js.get square_peers_map sq) as [peers|].
    2:{ inversion H. constructor. }
    destruct (for_each (fun c peer => eliminate c peer t) peers c1)
      as [[[[|]|e] c2]|] eqn:E; try discriminate.
    + assert (H12 : removals c1 c2).
      { eapply for_each_removals; [|exact E].
        intros ? ? ? ? Hx; exact (eliminate_removes _ _ _ _ _ Hx). }
      destruct (Js.get square_units_map sq) as [us|].
      * eapply removals_trans; [exact H12 | eapply units_loop_removals; eauto].
      * inversion H. subst. exact H12.
    + inversion H. subst. eapply for_each_removals; [|exact E].
      intros ? ? ? ? Hx; exact (eliminate_removes _ _ _ _ _ Hx).
    + inversion H. subst. eapply for_each_removals; [|exact E].
      intros ? ? ? ? Hx; exact (eliminate_removes _ _ _ _ _ Hx).
  - destruct (Js.get square_units_map sq) as [us|].
    + eapply units_loop_removals; eauto.
    + inversion H. constructor.
Qed.

Lemma eliminate_with_removals c sq v r c' :
  eliminate_with eliminate c sq v = Some (r, c') -> removals c c'.
Proof.
  intros H. apply eliminate_with_cases in H
    as [[_ [_ ->]]|[[cs [_ [_ [_ ->]]]]|[cs [Hg [Hin H]]]]];
    try constructor.
  econstructor; [|exact H]. constructor; assumption.
Qed.

End OnlyRemovals.

Lemma eliminate_removals (fuel : nat) c sq v r c' :
  _eliminate fuel c sq v = Some (r, c') -> removals c c'.
Proof.
  revert c sq v r c'. induction fuel as [|fuel IH]; intros c sq v r c'.
  - discriminate.
  - apply eliminate_with_removals. exact IH.
Qed.

Lemma assign_removals (fuel : nat) c sq v r c' :
  _assign fuel c sq v = Some (r, c') -> removals c c'.
Proof.
  apply assign_with_removals. intros; eapply eliminate_removals; eauto.
Qed.

(** C5: eliminating a value that the square's candidates do not hold
    returns the store itself, with every entry as it was. *)
Theorem eliminate_absent_noop (fuel : nat) (c : CandidatesMap)
  (square cs : string) (val : ascii) :
  Js.get c square = Some cs ->
  ~ In val (Js.split cs) ->
  _eliminate (S fuel) c square val = Some (Ret true, c).
Proof.
  intros Hget Hin. apply in_false_iff in Hin.
  cbn [_eliminate]. unfold eliminate_with. rewrite Hget, Hin. reflexivity.
Qed.

Lemma eliminate_absent_noop_witness :
  _eliminate 1 [("A1", "1379"); ("A2", "5")] "A1" "5" 
  = Some (Ret true, [("A1", "1379"); ("A2", "5")]).
Proof.
  apply (eliminate_absent_noop 0 _ _ "1379").
  - reflexivity.
  - vm_compute. intuition discriminate.
Defined.

(* ----------------------------------------------------------------- *)
(** ** Propagation terminates *)

Lemma for_each_total {A : Type} (body : CandidatesMap -> A -> propagation)
  (xs : list A) (n : nat) :
  (forall c x, size c <= n -> exists r c', body c x = Some (r, c') /\ removals c c') ->
  forall c, size c <= n ->
            exists r c', for_each body xs c = Some (r, c') /\ removals c c'.
Proof.
  intros Hb. induction xs as [|x rest IH]; intros c Hc; simpl.
  - exists (Ret true), c. split; [reflexivity | constructor].
  - destruct (Hb c x Hc) as [r [c1 [E H1]]]. rewrite E.
    destruct r as [[|]|e]; try (exists (Ret false), c1; auto; fail);
      try (exists (Throw e), c1; auto; fail).
    destruct (IH c1) as [r [c2 [E2 H2]]].
    + apply removals_size in H1. lia.
    + exists r, c2. split; [exact E2 | eapply removals_trans; eauto].
Qed.

Section Total.

Variable eliminate : CandidatesMap -> string -> ascii -> propagation.
Variable n : nat.
Hypothesis eliminate_total :
  1 <= n ->
  forall c sq v, size c <= n ->
                 exists r c', eliminate c sq v = Some (r, c') /\ removals c c'.

Lemma assign_with_total c sq v :
  1 <= n -> size c <= n ->
  exists r c', assign_with eliminate c sq v = Some (r, c') /\ removals c c'.
Proof.
  intros Hn Hc. unfold assign_with. destruct (Js.get c sq).
  - apply (for_each_total _ _ n); [|exact Hc].
    intros c0 x Hx. exact (eliminate_total Hn c0 sq x Hx).
  - exists (Throw TypeError), c. split; [reflexivity | constructor].
Qed.

Lemma units_loop_total v us c :
  1 <= n -> size c <= n ->
  exists r c',
    for_each (fun c unit =>
                match val_places c v unit with
                | None => Some (Throw TypeError, c)
                | Some [] => Some (Ret false, c)
                | Some [place] => assign_with eliminate c place v
                | Some _ => Some (Ret true, c)
                end) us c = Some (r, c')
    /\ removals c c'.
Proof.
  intros Hn Hc. apply (for_each_total _ _ n); [|exact Hc].
  intros c0 u Hc0.
  destruct (val_places c0 v u) as [[|p [|q ps]]|];
    try (returns_at_once).
  apply assign_with_total; assumption.
Qed.

Lemma eliminate_with_total c sq v :
  size c <= S n ->
  exists r c', eliminate_with eliminate c sq v = Some (r, c') /\ removals c c'.
Proof.
  intros Hc. unfold eliminate_with. destruct (Js.get c sq) as [cs|] eqn:Hget.
  2:{ returns_at_once. }
  destruct (_in v cs) eqn:Ein; cbv beta iota delta [negb].
  2:{ returns_at_once. }
  assert (H01 : removal c (Js.set c sq (Js.replace cs v)))
    by (constructor; assumption).
  assert (Hget1 : Js.get (Js.set c sq (Js.replace cs v)) sq = Some (Js.replace cs v))
    by (eapply get_set_same; eauto).
  set (c1 := Js.set c sq (Js.replace cs v)) in *.
  assert (Hc1 : size c1 <= n) by (apply removal_size in H01; lia).
  apply size_get_le in Hget1.
  destruct (Js.replace cs v) as [|t [|t' rest]].
  - eexists; eexists; split; [reflexivity | apply removals_one, H01].
  - assert (Hn : 1 <= n) by (simpl in Hget1; lia).
    destruct (Js.get square_peers_map sq) as [peers|].
    2:{ eexists; eexists; split; [reflexivity | apply removals_one, H01]. }
    destruct (for_each_total (fun c peer => eliminate c peer t) peers n
                (fun c x Hx => eliminate_total Hn c x t Hx) c1 Hc1)
      as [r [c2 [E H12]]].
    rewrite E.
    destruct r as [[|]|e];
      try (eexists; eexists; split;
           [reflexivity | econstructor; [exact H01 | exact H12]]; fail).
    destruct (Js.get square_units_map sq) as [us|].
    2:{ eexists; eexists; split;
        [reflexivity | econstructor; [exact H01 | exact H12]]. }
    destruct (units_loop_total v us c2 Hn) as [r [c3 [E3 H23]]].
    { apply removals_size in H12. lia. }
    exists r, c3. split; [exact E3|].
    econstructor; [exact H01 | eapply removals_trans; eauto].
  - assert (Hn : 1 <= n) by (simpl in Hget1; lia).
    destruct (Js.get square_units_map sq) as [us|].
    2:{ eexists; eexists; split; [reflexivity | apply removals_one, H01]. }
    destruct (units_loop_total v us c1 Hn Hc1) as [r [c3 [E3 H13]]].
    exists r, c3. split; [exact E3 | econstructor; eauto].
Qed.

End Total.

Lemma eliminate_total (fuel : nat) :
  1 <= fuel ->
  forall c sq v, size c <= fuel ->
                 exists r c', _eliminate fuel c sq v = Some (r, c') /\ removals c c'.
Proof.
  induction fuel as [|fuel IH]; intros Hf c sq v Hc; [lia|].
  exact (eliminate_with_total (_eliminate fuel) fuel IH c sq v Hc).
Qed.

Lemma assign_total (fuel : nat) c sq v :
  1 <= fuel -> size c <= fuel ->
  exists r c', _assign fuel c sq v = Some (r, c') /\ removals c c'.
Proof.
  intros Hf Hc.
  exact (assign_with_total (_eliminate fuel) fuel (eliminate_total fuel)
           c sq v Hf Hc).
Qed.

Lemma size_at_most (c : CandidatesMap) (rows width : nat) :
  List.length c <= rows ->
  (forall k cs, In (k, cs) c -> String.length cs <= width) ->
  size c <= rows * width.
Proof.
  unfold size. revert rows. induction c as [|[k cs] rest IH]; intros rows Hl Hw; simpl.
  - lia.
  - destruct rows as [|rows]; simpl in Hl; [lia|].
    assert (String.length cs <= width) by (eapply Hw; left; reflexivity).
    assert (list_sum (map (fun entry => String.length (snd entry)) rest)
            <= rows * width).
    { apply IH; [lia|]. intros; eapply Hw; right; eauto. }
    simpl. lia.
Qed.

(** C6: [_eliminate] and [_assign] terminate on every store, square and
    value: [_eliminate] calls nested as deep as the store has candidates
    (and at least one deep) are enough, which is at most 81 * 9 on a store
    of 81 squares with at most nine candidates each; and every call either
    leaves the store as it is or leaves it strictly smaller, having done
    nothing but remove candidates. *)
Theorem propagation_terminates (c : CandidatesMap) (square : string) (val : ascii) :
  (forall fuel,
      1 <= fuel -> size c <= fuel ->
      (exists r c', _eliminate fuel c square val = Some (r, c')
                    /\ removals c c' /\ (c' = c \/ size c' < size c))
      /\ (exists r c', _assign fuel c square val = Some (r, c')
                       /\ removals c c' /\ (c' = c \/ size c' < size c)))
  /\ (List.length c <= 81 ->
      (forall k cs, In (k, cs) c -> String.length cs <= 9) ->
      size c <= 81 * 9
      /\ (exists r c', _eliminate (81 * 9) c square val = Some (r, c'))
      /\ (exists r c', _assign (81 * 9) c square val = Some (r, c'))).
Proof.
  split.
  - intros fuel Hf Hc. split.
    + destruct (eliminate_total fuel Hf c square val Hc) as [r [c' [E H]]].
      exists r, c'. auto using removals_same_or_smaller.
    + destruct (assign_total fuel c square val Hf Hc) as [r [c' [E H]]].
      exists r, c'. auto using removals_same_or_smaller.
  - intros Hl Hw. pose proof (size_at_most c 81 9 Hl Hw) as Hs.
    split; [exact Hs|]. split.
    + destruct (eliminate_total (81 * 9) ltac:(lia) c square val Hs)
        as [r [c' [E _]]]. eauto.
    + destruct (assign_total (81 * 9) c square val ltac:(lia) Hs)
        as [r [c' [E _]]]. eauto.
Qed.

Lemma propagation_terminates_witness :
  exists r c', _eliminate (81 * 9) [("A1", "123"); ("A2", "12")] "A1" "3"
               = Some (r, c').
Proof.
  destruct (propagation_terminates [("A1", "123"); ("A2", "12")] "A1" "3")
    as [_ H].
  apply H.
  - simpl. lia.
  - intros k cs [Hin|[Hin|[]]]; inversion Hin; simpl; lia.
Defined.

(* ----------------------------------------------------------------- *)
(** ** Search works on copies *)


Lemma extends_refl (h : heap) : extends h h.
Proof. exists []. symmetry. apply app_nil_r. Qed.

Lemma extends_trans (h1 h2 h3 : heap) :
  extends h1 h2 -> extends h2 h3 -> extends h1 h3.
Proof.
  intros [f1 ->] [f2 ->]. exists (f1 ++ f2). symmetry. apply app_assoc.
Qed.

Lemma extends_nth (h h' : heap) (l : nat) (c : CandidatesMap) :
  extends h h' -> nth_error h l = Some c -> nth_error h' l = Some c.
Proof.
  intros [fresh ->] H. rewrite nth_error_app1; [exact H|].
  apply nth_error_Some. congruence.
Qed.

Lemma store_new (h : heap) (o o' : CandidatesMap) :
  store (h ++ [o]) (List.length h) o' = h ++ [o'].
Proof. induction h as [|x rest IH]; simpl; congruence. Qed.





Lemma removals_keys (c c' : CandidatesMap) :
  removals c c' -> Js.keys c' = Js.keys c.
Proof.
  induction 1 as [|c1 c2 c3 H1 _ IH]; [reflexivity|].
  rewrite IH. destruct H1. eapply keys_set; eauto.
Qed.

Lemma removals_keyed (c c' : CandidatesMap) :
  removals c c' -> keyed c -> keyed c'.
Proof.
  intros H Hk k. rewrite (removals_keys _ _ H). apply Hk.
Qed.

Lemma min_candidates_found (c : CandidatesMap) (sqs : list string) (m : nat)
  (init : option string) (sq : string) :
  min_candidates c sqs m init = Some (Some sq) ->
  init = Some sq \/ exists cs, Js.get c sq = Some cs /\ 1 < String.length cs.
Proof.
  revert m init. induction sqs as [|x rest IH]; intros m init; simpl.
  - intros H. inversion H. auto.
  - destruct (Js.get c x) as [cs|] eqn:Hget; [|discriminate].
    destruct ((String.length cs <? m) && (1 <? String.length cs)) eqn:E.
    + intros H. apply IH in H as [H|H]; [|auto]. inversion H. subst.
      apply andb_true_iff in E as [_ E]. apply Nat.ltb_lt in E. eauto.
    + apply IH.
Qed.

(** An assignment to a square with two candidates or more removes at
    least one of them. *)
Lemma assign_strict (fuel : nat) c sq v cs r c' :
  _assign fuel c sq v = Some (r, c') ->
  Js.get c sq = Some cs -> 1 < String.length cs ->
  size c' < size c.
Proof.
  unfold _assign, assign_with. intros H Hget Hlen. rewrite Hget in H.
  assert (Hother : exists x rest, Js.split (Js.replace cs v) = x :: rest).
  { destruct (Js.split (Js.replace cs v)) as [|x rest] eqn:E; [|eauto].
    exfalso. destruct cs as [|a [|b cs]]; simpl in Hlen; try lia.
    simpl in E. destruct (Ascii.eqb a v); [discriminate|].
    destruct (Ascii.eqb b v); discriminate. }
  destruct Hother as [x [rest Hs]].
  assert (Hx : _in x cs = true).
  { apply in_iff. apply (split_replace_in cs v). rewrite Hs. left. reflexivity. }
  rewrite Hs in H. simpl in H.
  destruct (_eliminate fuel c sq x) as [[b c1]|] eqn:E; [|discriminate].
  assert (H1 : size c1 < size c).
  { destruct fuel as [|fuel]; [discriminate|].
    change (_eliminate (S fuel)) with (eliminate_with (_eliminate fuel)) in E.
    apply (eliminate_with_cases (_eliminate fuel) (eliminate_removals fuel)) in E.
    destruct E as [[E _]|[[cs0 [E [E' _]]]|[cs0 [E [_ E']]]]]; try congruence.
    assert (cs0 = cs) by congruence. subst cs0.
    apply removals_size in E'.
    assert (removal c (Js.set c sq (Js.replace cs x))) as Hr
      by (constructor; assumption).
    apply removal_size in Hr. lia. }
  destruct b as [[|]|e]; try (inversion H; subst; exact H1).
  apply for_each_removals in H.
  - apply removals_size in H. lia.
  - intros ? ? ? ? Hy. exact (eliminate_removals _ _ _ _ _ _ Hy).
Qed.

Lemma first_truthy_total {A : Type} (body : heap -> A -> searching) (xs : list A)
  (h : heap) :
  (forall h0 x, extends h h0 ->
                exists r h', body h0 x = Some (r, h') /\ extends h0 h') ->
  forall h0, extends h h0 ->
             exists r h', first_truthy body xs h0 = Some (r, h') /\ extends h0 h'.
Proof.
  intros Hb. induction xs as [|x rest IH]; intros h0 H0; simpl.
  - exists (Ret VFalse), h0. split; [reflexivity | apply extends_refl].
  - destruct (Hb h0 x H0) as [r [h1 [E H1]]]. rewrite E.
    destruct r as [[|l]|e]; try (exists (Ret (VRef l)), h1; auto; fail);
      try (exists (Throw e), h1; auto; fail).
    destruct (IH h1) as [r [h2 [E2 H2]]].
    + eapply extends_trans; eauto.
    + exists r, h2. split; [exact E2 | eapply extends_trans; eauto].
Qed.

Lemma null_is_no_square : ~ In "null" squares.
Proof.
  intros H. apply includes_iff in H. vm_compute in H. discriminate.
Qed.

Section SearchTotal.

Variable search : heap -> value -> bool -> searching.
Variable fuel : nat.
Hypothesis search_false :
  1 <= fuel -> forall h rv, search h VFalse rv = Some (Ret VFalse, h).
Hypothesis search_total :
  forall h l c rv,
    nth_error h l = Some c -> keyed c -> size c < fuel ->
    exists r h', search h (VRef l) rv = Some (r, h') /\ extends h h'.

Lemma search_with_total h l c rv :
  nth_error h l = Some c -> keyed c -> size c <= fuel ->
  exists r h',
    search_with (_assign fuel) search h (VRef l) rv = Some (r, h')
    /\ extends h h'.
Proof.
  intros Hl Hk Hc. unfold search_with. rewrite Hl.
  destruct (max_candidates c squares 0) as [m|];
    [|returns_at_once].
  destruct (m =? 1);
    [returns_at_once|].
  destruct (min_candidates c squares 10 None) as [sq|] eqn:Emin;
    [|returns_at_once].
  destruct (Js.get c (key_of sq)) as [min_cs|] eqn:Hget;
    [|returns_at_once].
  destruct sq as [sq|].
  2:{ exfalso. apply null_is_no_square, Hk, get_in_keys. simpl in Hget. eauto. }
  simpl in Hget. simpl key_of.
  apply min_candidates_found in Emin as [Emin|[cs [Hcs Hlen]]]; [discriminate|].
  assert (cs = min_cs) by congruence. subst cs.
  assert (Hf : 1 <= fuel) by (apply size_get_le in Hget; lia).
  assert (Hbranch : forall b h0 x, extends h h0 ->
    exists r h',
      match nth_error h0 l with
      | None => Some (Throw TypeError, h0)
      | Some now =>
          let (l', h1) := json_copy h0 now in
          match at_ref l' (fun o => _assign fuel o sq x) h1 with
          | Some (Ret v, h2) => search h2 v b
          | stop => stop
          end
      end = Some (r, h') /\ extends h0 h').
  { intros b h0 x H0. rewrite (extends_nth _ _ _ _ H0 Hl). unfold json_copy.
    destruct (assign_total fuel c sq x Hf Hc) as [b0 [o' [Ea Hrem]]].
    assert (Hx : extends h0 (h0 ++ [o'])) by (eexists; reflexivity).
    unfold at_ref. rewrite nth_error_app2, Nat.sub_diag by lia. simpl.
    rewrite Ea, store_new.
    destruct b0 as [[|]|e].
    - destruct (search_total (h0 ++ [o']) (List.length h0) o' b)
        as [r [h' [E H']]].
      + rewrite nth_error_app2, Nat.sub_diag by lia. reflexivity.
      + eapply removals_keyed; eauto.
      + pose proof (assign_strict _ _ _ _ _ _ _ Ea Hget Hlen). lia.
      + exists r, h'. split; [exact E | eapply extends_trans; eauto].
    - rewrite search_false by exact Hf. eauto.
    - eauto. }
  destruct (negb rv).
  - apply (first_truthy_total _ _ h); [|apply extends_refl].
    intros; apply Hbranch; assumption.
  - apply (first_truthy_total _ _ h); [|apply extends_refl].
    intros; apply Hbranch; assumption.
Qed.

End SearchTotal.

Lemma search_total (fuel : nat) h l c rv :
  nth_error h l = Some c -> keyed c -> size c < fuel ->
  exists r h', _search fuel h (VRef l) rv = Some (r, h') /\ extends h h'.
Proof.
  revert h l c rv. induction fuel as [|fuel IH]; intros h l c rv Hl Hk Hc; [lia|].
  apply (search_with_total (_search fuel) fuel) with (c := c);
    try assumption; try lia.
  intros Hf h0 rv0. destruct fuel; [lia | reflexivity].
Qed.


Lemma full_store_keyed : keyed full_store.
Proof.
  intros k. unfold full_store, Js.keys. rewrite map_map. simpl.
  rewrite map_id. reflexivity.
Qed.


(* ----------------------------------------------------------------- *)
(** ** Propagation on a store that agrees with a solution *)

Lemma removal_members (c c' : CandidatesMap) (sq cs' : string) (x : ascii) :
  removal c c' -> Js.get c' sq = Some cs' -> In x (Js.split cs') ->
  exists cs, Js.get c sq = Some cs /\ In x (Js.split cs).
Proof.
  intros [c0 k cs v Hget Hin] H' Hx.
  destruct (String.eqb_spec sq k) as [->|Hne].
  - rewrite (get_set_same _ _ _ _ Hget) in H'. inversion H'. subst.
    exists cs. split; [exact Hget | eapply split_replace_in; eauto].
  - rewrite get_set_other in H' by exact Hne. eauto.
Qed.

Lemma removals_members (c c' : CandidatesMap) (sq cs' : string) (x : ascii) :
  removals c c' -> Js.get c' sq = Some cs' -> In x (Js.split cs') ->
  exists cs, Js.get c sq = Some cs /\ In x (Js.split cs).
Proof.
  intros H. revert cs'. induction H as [|c1 c2 c3 H1 _ IH]; intros cs' H' Hx.
  - eauto.
  - destruct (IH _ H' Hx) as [cs2 [H2 Hx2]].
    eapply removal_members; eauto.
Qed.

Lemma removal_tidy (c c' : CandidatesMap) :
  removal c c' ->
  (forall sq cs, Js.get c sq = Some cs ->
                 NoDup (Js.split cs) /\ incl (Js.split cs) (Js.split DIGITS)) ->
  forall sq cs, Js.get c' sq = Some cs ->
                NoDup (Js.split cs) /\ incl (Js.split cs) (Js.split DIGITS).
Proof.
  intros [c0 k cs0 v Hget Hin] Ht sq cs H'.
  destruct (String.eqb_spec sq k) as [->|Hne].
  - rewrite (get_set_same _ _ _ _ Hget) in H'. inversion H'. subst.
    destruct (Ht _ _ Hget) as [Hnd Hincl]. split.
    + apply NoDup_replace, Hnd.
    + intros x Hx. apply Hincl. eapply split_replace_in; eauto.
  - rewrite get_set_other in H' by exact Hne. eauto.
Qed.

Lemma removals_tidy (c c' : CandidatesMap) :
  removals c c' ->
  (forall sq cs, Js.get c sq = Some cs ->
                 NoDup (Js.split cs) /\ incl (Js.split cs) (Js.split DIGITS)) ->
  forall sq cs, Js.get c' sq = Some cs ->
                NoDup (Js.split cs) /\ incl (Js.split cs) (Js.split DIGITS).
Proof.
  induction 1 as [|c1 c2 c3 H1 _ IH]; intros Ht; [exact Ht|].
  apply IH. eapply removal_tidy; eauto.
Qed.

Lemma for_each_inv {A : Type} (J : CandidatesMap -> Prop)
  (body : CandidatesMap -> A -> propagation) (xs : list A) :
  (forall c x r c', In x xs -> J c -> body c x = Some (r, c') ->
                    r = Ret true /\ J c') ->
  forall c r c', J c -> for_each body xs c = Some (r, c') ->
                 r = Ret true /\ J c'.
Proof.
  induction xs as [|x rest IH]; intros Hb c r c' HJ; simpl.
  - intros H. inversion H. subst. auto.
  - destruct (body c x) as [[r1 c1]|] eqn:E; [|discriminate].
    destruct (Hb _ _ _ _ (or_introl eq_refl) HJ E) as [-> HJ1].
    apply IH; [|exact HJ1]. intros; eapply Hb; eauto. right; assumption.
Qed.

Lemma val_places_spec (c : CandidatesMap) (d : ascii) (u places : list string) :
  val_places c d u = Some places ->
  forall x, In x places <->
            In x u /\ exists cs, Js.get c x = Some cs /\ _in d cs = true.
Proof.
  revert places. induction u as [|y rest IH]; intros places; simpl.
  - intros H. inversion H. simpl. intros x. split; [tauto | intros [[] _]].
  - destruct (Js.get c y) as [cs|] eqn:Hget; [|discriminate].
    destruct (val_places c d rest) as [ps|]; [|discriminate].
    intros H. inversion H. subst. clear H. intros x.
    specialize (IH ps eq_refl x).
    destruct (_in d cs) eqn:Ein; simpl; rewrite IH.
    + split.
      * intros [<-|[H1 H2]]; eauto.
      * intros [[<-|H1] H2]; auto.
    + split.
      * intros [H1 H2]; auto.
      * intros [[<-|H1] [cs' [H2 H3]]]; [congruence | eauto].
Qed.

Lemma val_places_defined (c : CandidatesMap) (d : ascii) (u : list string) :
  (forall x, In x u -> exists cs, Js.get c x = Some cs) ->
  exists places, val_places c d u = Some places.
Proof.
  induction u as [|y rest IH]; intros H; simpl; [eauto|].
  destruct (H y (or_introl eq_refl)) as [cs ->].
  destruct IH as [ps ->]; [intros; apply H; right; assumption|]. eauto.
Qed.

(** A repetition-free string whose only possible character is [v], and
    which holds [v], is the string ["v"]. *)
Lemma single_string (cs : string) (v : ascii) :
  NoDup (Js.split cs) -> In v (Js.split cs) ->
  (forall x, In x (Js.split cs) -> x = v) ->
  cs = Js.str v.
Proof.
  destruct cs as [|a [|b rest]]; simpl; intros Hnd Hin Hall.
  - destruct Hin.
  - rewrite (Hall a); auto.
  - exfalso. inversion Hnd as [|? ? Hn _]. subst. apply Hn.
    rewrite (Hall a), (Hall b); auto. left. reflexivity.
Qed.

Lemma peers_defined (sq : string) :
  In sq squares ->
  exists peers, Js.get square_peers_map sq = Some peers
                /\ forall p, In p peers -> peer_of sq p.
Proof.
  intros Hsq. eexists. split; [apply peers_map_at, Hsq|].
  intros p Hin. eexists. split; [apply peers_map_at, Hsq | exact Hin].
Qed.

Lemma units_defined (sq : string) :
  In sq squares ->
  exists us, Js.get square_units_map sq = Some us
             /\ forall u, In u us -> In u units /\ In sq u.
Proof.
  intros Hsq. eexists. split; [apply units_map_at, Hsq|].
  intros u. apply (unit_of_square_in sq), units_map_at, Hsq.
Qed.

Section Solved.

(** [sol] puts a digit on every square so that every unit holds every
    digit, on one square only. *)
Variable sol : string -> ascii.
Hypothesis sol_home :
  forall u d, In u units -> In d (Js.split DIGITS) ->
              exists x, In x u /\ sol x = d.
Hypothesis sol_once :
  forall u x y, In u units -> In x u -> In y u -> sol x = sol y -> x = y.

Lemma settled_stays (c c' : CandidatesMap) (sq : string) :
  In sq squares -> settled sol c sq -> removals c c' -> agrees sol c' ->
  settled sol c' sq.
Proof.
  intros Hsq Hs Hr [Ht Hh]. unfold settled in *.
  destruct (Hh sq Hsq) as [cs' [Hget' Hin']]. rewrite Hget'. f_equal.
  destruct (Ht _ _ Hget') as [Hnd _].
  apply single_string; [exact Hnd | exact Hin' |].
  intros x Hx. destruct (removals_members _ _ _ _ _ Hr Hget' Hx) as [cs [Hget Hxin]].
  rewrite Hs in Hget. inversion Hget. subst. simpl in Hxin.
  destruct Hxin as [<-|[]]. reflexivity.
Qed.

Section Step.

Variable eliminate : CandidatesMap -> string -> ascii -> propagation.
Hypothesis eliminate_removes :
  forall c sq v r c', eliminate c sq v = Some (r, c') -> removals c c'.
Hypothesis eliminate_ok :
  forall c sq d r c',
    In sq squares -> d <> sol sq -> agrees sol c ->
    eliminate c sq d = Some (r, c') ->
    r = Ret true /\ agrees sol c'
    /\ forall cs', Js.get c' sq = Some cs' -> ~ In d (Js.split cs').

Lemma assign_loop_ok (x : string) (others : list ascii) :
  In x squares ->
  (forall o, In o others -> o <> sol x) ->
  forall c r c',
    agrees sol c ->
    for_each (fun c other_val => eliminate c x other_val) others c = Some (r, c') ->
    r = Ret true /\ agrees sol c'
    /\ forall o cs', In o others -> Js.get c' x = Some cs' -> ~ In o (Js.split cs').
Proof.
  intros Hx. induction others as [|o rest IH]; intros Ho c r c' Hc; simpl.
  - intros H. inversion H. subst. split; [reflexivity|]. split; [exact Hc|].
    intros o cs' [].
  - destruct (eliminate c x o) as [[r1 c1]|] eqn:E; [|discriminate].
    destruct (eliminate_ok c x o r1 c1 Hx (Ho o (or_introl eq_refl)) Hc E)
      as [-> [Hc1 Hgone]].
    intros H.
    destruct (IH (fun o' Ho' => Ho o' (or_intror Ho')) c1 r c' Hc1 H)
      as [-> [Hc' Hrest]].
    split; [reflexivity|]. split; [exact Hc'|].
    intros o' cs' [<-|Hin] Hget'; [|eauto].
    intros Hin'.
    assert (Hr : removals c1 c').
    { eapply for_each_removals; [|exact H].
      intros ? ? ? ? Hy. exact (eliminate_removes _ _ _ _ _ Hy). }
    destruct (removals_members _ _ _ _ _ Hr Hget' Hin') as [cs1 [Hget1 Hin1]].
    exact (Hgone _ Hget1 Hin1).
Qed.

(** Assigning to a square the digit the solution gives it succeeds and
    leaves the square with that digit only. *)
Lemma assign_with_ok (c : CandidatesMap) (x : string) r c' :
  In x squares -> agrees sol c ->
  assign_with eliminate c x (sol x) = Some (r, c') ->
  r = Ret true /\ agrees sol c' /\ settled sol c' x.
Proof.
  intros Hx Hc. unfold assign_with.
  destruct Hc as [Ht Hh]. destruct (Hh x Hx) as [cs [Hget Hin]]. rewrite Hget.
  destruct (Ht _ _ Hget) as [Hnd _].
  intros H.
  assert (Hr : removals c c').
  { eapply for_each_removals; [|exact H].
    intros ? ? ? ? Hy. exact (eliminate_removes _ _ _ _ _ Hy). }
  apply assign_loop_ok in H; [| exact Hx | | split; assumption].
  2:{ intros o Ho Heq. subst o. exact (replace_gone _ _ Hnd Ho). }
  destruct H as [-> [Hc' Hgone]]. split; [reflexivity|]. split; [exact Hc'|].
  unfold settled. destruct Hc' as [Ht' Hh'].
  destruct (Hh' x Hx) as [cs' [Hget' Hin']]. rewrite Hget'. f_equal.
  destruct (Ht' _ _ Hget') as [Hnd' _].
  apply single_string; [exact Hnd' | exact Hin' |].
  intros y Hy. destruct (Ascii.eqb_spec y (sol x)) as [->|Hne]; [reflexivity|].
  exfalso. apply (Hgone y cs'); [|exact Hget'|exact Hy].
  apply split_replace_other; [exact Hne|].
  destruct (removals_members _ _ _ _ _ Hr Hget' Hy) as [cs0 [Hget0 Hy0]].
  congruence.
Qed.

Lemma units_loop_ok (d : ascii) (us : list (list string)) c r c' :
  In d (Js.split DIGITS) ->
  (forall u, In u us -> In u units) ->
  agrees sol c ->
  for_each (fun c unit =>
              match val_places c d unit with
              | None => Some (Throw TypeError, c)
              | Some [] => Some (Ret false, c)
              | Some [place] => assign_with eliminate c place d
              | Some _ => Some (Ret true, c)
              end) us c = Some (r, c') ->
  r = Ret true /\ agrees sol c'.
Proof.
  intros Hd Hus Hc H.
  apply (for_each_inv (agrees sol)) in H; [exact H | | exact Hc].
  clear H Hc c r c'. intros c u r c' Hu Hc.
  destruct (sol_home _ _ (Hus u Hu) Hd) as [x [Hxu Hsx]].
  assert (Hsq : forall y, In y u -> In y squares)
    by (intros y Hy; eapply unit_squares; eauto).
  destruct (val_places_defined c d u) as [places Hp].
  { intros y Hy. destruct Hc as [_ Hh].
    destruct (Hh y (Hsq y Hy)) as [cs [Hget _]]. eauto. }
  rewrite Hp.
  assert (Hxp : In x places).
  { apply (val_places_spec _ _ _ _ Hp). split; [exact Hxu|].
    destruct Hc as [_ Hh]. destruct (Hh x (Hsq x Hxu)) as [cs [Hget Hin]].
    exists cs. split; [exact Hget|]. apply in_iff. congruence. }
  destruct places as [|p [|q ps]].
  - destruct Hxp.
  - destruct Hxp as [->|[]]. subst d. intros H.
    apply assign_with_ok in H; [|auto|exact Hc]. tauto.
  - intros H. inversion H. subst. auto.
Qed.

Lemma eliminate_with_ok (c : CandidatesMap) (sq : string) (d : ascii) r c' :
  In sq squares -> d <> sol sq -> agrees sol c ->
  eliminate_with eliminate c sq d = Some (r, c') ->
  r = Ret true /\ agrees sol c'
  /\ forall cs', Js.get c' sq = Some cs' -> ~ In d (Js.split cs').
Proof.
  intros Hsq Hd Hc H.
  pose proof (eliminate_with_cases _ eliminate_removes _ _ _ _ _ H) as Hcases.
  destruct Hc as [Ht Hh]. destruct (Hh sq Hsq) as [cs [Hget Hin]].
  destruct Hcases as [[E _]|[[cs0 [E [Ein [-> ->]]]]|[cs0 [E [Ein Hr]]]]];
    [congruence| |].
  { split; [reflexivity|]. split; [split; assumption|].
    intros cs' Hget'. assert (cs' = cs0) by congruence. subst.
    apply in_false_iff, Ein. }
  assert (cs0 = cs) by congruence. subst cs0. clear E.
  destruct (Ht _ _ Hget) as [Hnd Hincl].
  assert (Hdig : In d (Js.split DIGITS)) by (apply Hincl, in_iff, Ein).
  assert (Hgone : forall cs', Js.get c' sq = Some cs' -> ~ In d (Js.split cs')).
  { intros cs' Hget' Hin'.
    destruct (removals_members _ _ _ _ _ Hr Hget' Hin') as [cs1 [Hget1 Hin1]].
    rewrite (get_set_same _ _ _ _ Hget) in Hget1. inversion Hget1. subst.
    exact (replace_gone _ _ Hnd Hin1). }
  assert (Hc1 : agrees sol (Js.set c sq (Js.replace cs d))).
  { split.
    - eapply removal_tidy; [|exact Ht]. constructor; assumption.
    - intros y Hy. destruct (String.eqb_spec y sq) as [->|Hne].
      + rewrite (get_set_same _ _ _ _ Hget). eexists. split; [reflexivity|].
        apply split_replace_other; auto.
      + rewrite get_set_other by exact Hne. auto. }
  cut (r = Ret true /\ agrees sol c'); [tauto|].
  unfold eliminate_with in H. rewrite Hget, Ein in H.
  cbv beta iota zeta delta [negb] in H.
  destruct (units_defined _ Hsq) as [us [Hus Husin]]. rewrite Hus in H.
  destruct (peers_defined _ Hsq) as [peers [Hpeers Hpeer]]. rewrite Hpeers in H.
  assert (Hmem : In (sol sq) (Js.split (Js.replace cs d)))
    by (apply split_replace_other; auto).
  destruct (Js.replace cs d) as [|t [|t' rest]]; [destruct Hmem| |].
  - destruct Hmem as [->|[]].
    destruct (for_each (fun c peer => eliminate c peer (sol sq)) peers
                       (Js.set c sq (String (sol sq) EmptyString)))
      as [[r2 c2]|] eqn:E2; [|discriminate].
    apply (for_each_inv (agrees sol)) in E2; [| |exact Hc1].
    + destruct E2 as [-> Hc2].
      eapply units_loop_ok; [exact Hdig | | exact Hc2 | exact H].
      intros u Hu. apply Husin, Hu.
    + intros c0 p r0 c0' Hp Hc0 E0.
      apply Hpeer, peer_shares_unit in Hp as [_ [Hne [u [Hu [Hsu Hpu]]]]].
      apply eliminate_ok in E0; [tauto | eapply unit_squares; eauto | | exact Hc0].
      intros Heq. apply Hne. symmetry. eapply sol_once; eauto.
  - eapply units_loop_ok; [exact Hdig | | exact Hc1 | exact H].
    intros u Hu. apply Husin, Hu.
Qed.

End Step.

Lemma eliminate_ok (fuel : nat) (c : CandidatesMap) (sq : string) (d : ascii) r c' :
  In sq squares -> d <> sol sq -> agrees sol c ->
  _eliminate fuel c sq d = Some (r, c') ->
  r = Ret true /\ agrees sol c'
  /\ forall cs', Js.get c' sq = Some cs' -> ~ In d (Js.split cs').
Proof.
  revert c sq d r c'. induction fuel as [|fuel IH]; intros c sq d r c'.
  - discriminate.
  - apply (eliminate_with_ok (_eliminate fuel) (eliminate_removals fuel) IH).
Qed.

Lemma assign_ok (fuel : nat) (c : CandidatesMap) (x : string) r c' :
  In x squares -> agrees sol c ->
  _assign fuel c x (sol x) = Some (r, c') ->
  r = Ret true /\ agrees sol c' /\ settled sol c' x.
Proof.
  apply (assign_with_ok (_eliminate fuel) (eliminate_removals fuel)
           (eliminate_ok fuel)).
Qed.

End Solved.

(* ----------------------------------------------------------------- *)
(** ** A solved board is its own solution *)

Lemma squares_NoDup : NoDup squares.
Proof.
  assert (H : nodup string_dec squares = squares) by (vm_compute; reflexivity).
  rewrite <- H. apply NoDup_nodup.
Qed.

Lemma squares_length : List.length squares = 81.
Proof. vm_compute. reflexivity. Qed.

Lemma get_In {V : Type} (obj : list (string * V)) (k : string) (v : V) :
  Js.get obj k = Some v -> In (k, v) obj.
Proof.
  induction obj as [|[k0 v0] rest IH]; simpl; [discriminate|].
  destruct (String.eqb_spec k0 k) as [->|Hne].
  - intros H. inversion H. auto.
  - auto.
Qed.

Lemma get_combine_defined {V : Type} (ks : list string) (vs : list V) (k : string) :
  In k ks -> List.length ks <= List.length vs ->
  exists v, Js.get (combine ks vs) k = Some v.
Proof.
  revert vs. induction ks as [|k0 ks IH]; intros vs Hin Hlen; [destruct Hin|].
  destruct vs as [|v0 vs]; simpl in Hlen; [lia|]. simpl.
  destruct (String.eqb_spec k0 k) as [->|Hne]; [eauto|].
  destruct Hin as [H|H]; [contradiction|]. apply IH; [exact H | lia].
Qed.

Lemma get_combine_NoDup {V : Type} (ks : list string) (vs : list V)
  (k : string) (v : V) :
  NoDup ks -> In (k, v) (combine ks vs) -> Js.get (combine ks vs) k = Some v.
Proof.
  revert vs. induction ks as [|k0 ks IH]; intros vs Hnd Hin; [destruct Hin|].
  destruct vs as [|v0 vs]; [destruct Hin|]. simpl in *.
  inversion Hnd as [|? ? Hn Hnd']. subst.
  destruct Hin as [H|H].
  - inversion H. subst. rewrite String.eqb_refl. reflexivity.
  - destruct (String.eqb_spec k0 k) as [->|Hne].
    + exfalso. apply Hn. eapply in_combine_l; eauto.
    + apply IH; assumption.
Qed.

Lemma map_get_combine {V : Type} (ks : list string) (vs : list V) (dflt : V) :
  NoDup ks -> List.length ks = List.length vs ->
  map (fun k => match Js.get (combine ks vs) k with
                | Some v => v
                | None => dflt
                end) ks = vs.
Proof.
  revert vs. induction ks as [|k0 ks IH]; intros vs Hnd Hlen;
    destruct vs as [|v0 vs]; simpl in *; try discriminate; [reflexivity|].
  inversion Hnd as [|? ? Hn Hnd']. subst.
  rewrite String.eqb_refl. f_equal.
  transitivity (map (fun k => match Js.get (combine ks vs) k with
                              | Some v => v
                              | None => dflt
                              end) ks); [|apply IH; [exact Hnd' | lia]].
  apply map_ext_in. intros k Hk.
  destruct (String.eqb_spec k0 k) as [->|Hne]; [contradiction | reflexivity].
Qed.

Lemma count_occ_twice {X : Type} (f : X -> ascii) (u : list X) (x y : X) :
  In x u -> In y u -> x <> y -> f x = f y ->
  2 <= count_occ ascii_dec (map f u) (f x).
Proof.
  intros Hx Hy Hne Hf.
  induction u as [|z rest IH]; [destruct Hx|]. simpl.
  destruct Hx as [->|Hx], Hy as [->|Hy].
  - contradiction.
  - destruct (ascii_dec (f x) (f x)); [|congruence].
    assert (In (f x) (map f rest)) by (rewrite Hf; apply in_map, Hy).
    apply (count_occ_In ascii_dec) in H. lia.
  - rewrite <- Hf. destruct (ascii_dec (f x) (f x)); [|congruence].
    assert (In (f x) (map f rest)) by (apply in_map, Hx).
    apply (count_occ_In ascii_dec) in H. lia.
  - specialize (IH Hx Hy). destruct (ascii_dec (f z) (f x)); lia.
Qed.

Lemma append_assoc (a b c : string) : ((a ++ b) ++ c = a ++ (b ++ c))%string.
Proof. induction a as [|x a IH]; simpl; congruence. Qed.

Lemma full_store_built :
  fold_left (fun m sq => Js.set m sq DIGITS) squares [] = full_store.
Proof. vm_compute. reflexivity. Qed.

Lemma blank_no_digit : ~ In BLANK_CHAR (Js.split DIGITS).
Proof. vm_compute. intuition discriminate. Qed.

Lemma max_candidates_settled (c : CandidatesMap) (sqs : list string) (m : nat) :
  (forall sq, In sq sqs ->
              exists cs, Js.get c sq = Some cs /\ String.length cs = 1) ->
  max_candidates c sqs m
  = Some (match sqs with [] => m | _ => Nat.max m 1 end).
Proof.
  revert m. induction sqs as [|sq rest IH]; intros m H; simpl; [reflexivity|].
  destruct (H sq (or_introl eq_refl)) as [cs [-> Hlen]]. rewrite Hlen.
  rewrite IH by (intros; apply H; right; assumption).
  f_equal. destruct (Nat.ltb_spec m 1); destruct rest; lia.
Qed.

Section SolvedBoard.

Variable board : Board.
Hypothesis board_solved : solved_board board = true.

Lemma solved_length : String.length board = 81.
Proof.
  unfold solved_board in board_solved.
  apply andb_true_iff in board_solved as [H _].
  apply andb_true_iff in H as [H _]. apply Nat.eqb_eq, H.
Qed.

Lemma solved_digits (ch : ascii) :
  In ch (Js.split board) -> In ch (Js.split DIGITS).
Proof.
  unfold solved_board in board_solved.
  apply andb_true_iff in board_solved as [H _].
  apply andb_true_iff in H as [_ H]. rewrite forallb_forall in H.
  intros Hch. apply in_iff, H, Hch.
Qed.

Lemma solved_units (u : list string) (d : ascii) :
  In u units -> In d (Js.split DIGITS) ->
  count_occ ascii_dec (map (board_at board) u) d = 1.
Proof.
  unfold solved_board in board_solved.
  apply andb_true_iff in board_solved as [_ H]. rewrite forallb_forall in H.
  intros Hu Hd. specialize (H u Hu). unfold unit_complete in H.
  rewrite forallb_forall in H. apply Nat.eqb_eq, H, Hd.
Qed.

Lemma solved_entry (sq : string) (val : ascii) :
  In (sq, val) (combine squares (Js.split board)) ->
  In sq squares /\ val = board_at board sq.
Proof.
  intros H. split; [eapply in_combine_l; eauto|].
  unfold board_at. rewrite (get_combine_NoDup _ _ _ _ squares_NoDup H).
  reflexivity.
Qed.

Lemma solved_at_digit (sq : string) :
  In sq squares -> In (board_at board sq) (Js.split DIGITS).
Proof.
  intros Hsq.
  destruct (get_combine_defined squares (Js.split board) sq Hsq) as [v Hv].
  { rewrite length_split, solved_length, squares_length. lia. }
  unfold board_at. rewrite Hv. apply solved_digits.
  apply get_In in Hv. eapply in_combine_r; eauto.
Qed.

Lemma solved_home (u : list string) (d : ascii) :
  In u units -> In d (Js.split DIGITS) ->
  exists x, In x u /\ board_at board x = d.
Proof.
  intros Hu Hd. pose proof (solved_units u d Hu Hd) as H.
  assert (Hin : In d (map (board_at board) u))
    by (apply (count_occ_In ascii_dec); lia).
  apply in_map_iff in Hin as [x [Hx Hxu]]. eauto.
Qed.

Lemma solved_once (u : list string) (x y : string) :
  In u units -> In x u -> In y u ->
  board_at board x = board_at board y -> x = y.
Proof.
  intros Hu Hx Hy Heq.
  destruct (String.eqb_spec x y) as [|Hne]; [assumption|]. exfalso.
  pose proof (count_occ_twice (board_at board) u x y Hx Hy Hne Heq) as H2.
  rewrite solved_units in H2; [lia | exact Hu |].
  apply solved_at_digit. eapply unit_squares; eauto.
Qed.

Lemma solved_valid : validate_board board = Ret true.
Proof.
  apply validate_board_accepts; [exact solved_length|].
  intros ch Hch. left. apply solved_digits, Hch.
Qed.

Lemma solved_givens :
  filter (fun char => negb (Ascii.eqb char BLANK_CHAR) && _in char DIGITS)
         (Js.split board)
  = Js.split board.
Proof.
  apply forallb_filter_id. apply forallb_forall. intros ch Hch.
  apply solved_digits in Hch. apply andb_true_iff. split.
  - destruct (Ascii.eqb_spec ch BLANK_CHAR) as [->|]; [|reflexivity].
    exfalso. exact (blank_no_digit Hch).
  - apply in_iff, Hch.
Qed.

Lemma full_store_agrees : agrees (board_at board) full_store.
Proof.
  split.
  - intros sq cs H. apply get_tabulate_inv in H as [_ ->]. split.
    + assert (Hn : nodup ascii_dec (Js.split DIGITS) = Js.split DIGITS)
        by (vm_compute; reflexivity).
      rewrite <- Hn. apply NoDup_nodup.
    + apply incl_refl.
  - intros sq Hsq. exists DIGITS. split.
    + unfold full_store. apply (get_tabulate (fun _ => DIGITS)). exact Hsq.
    + apply solved_at_digit, Hsq.
Qed.

(** Seeding: every given is assigned without contradiction and leaves its
    square with that digit alone. *)
Lemma seed_ok (fuel : nat) (entries : list (string * ascii)) c r c' :
  (forall sq val, In (sq, val) entries ->
                  In sq squares /\ val = board_at board sq) ->
  agrees (board_at board) c ->
  for_each (fun c (entry : string * ascii) =>
              let (square, val) := entry in
              if _in val DIGITS then _assign fuel c square val
              else Some (Ret true, c)) entries c = Some (r, c') ->
  r = Ret true /\ agrees (board_at board) c' /\ removals c c'
  /\ forall sq val, In (sq, val) entries -> settled (board_at board) c' sq.
Proof.
  revert c. induction entries as [|[sq val] rest IH]; intros c He Hc; simpl.
  - intros H. inversion H. subst. split; [reflexivity|]. split; [exact Hc|].
    split; [constructor|]. intros sq val [].
  - destruct (He sq val (or_introl eq_refl)) as [Hsq ->].
    assert (Hd : _in (board_at board sq) DIGITS = true)
      by (apply in_iff, solved_at_digit, Hsq).
    rewrite Hd.
    destruct (_assign fuel c sq (board_at board sq)) as [[r1 c1]|] eqn:E;
      [|discriminate].
    pose proof (assign_removals _ _ _ _ _ _ E) as Hr1.
    apply (assign_ok (board_at board) solved_home solved_once) in E;
      [|exact Hsq|exact Hc].
    destruct E as [-> [Hc1 Hset]]. intros H.
    apply IH in H; [| intros; apply He; right; assumption | exact Hc1].
    destruct H as [-> [Hc' [Hr Hrest]]].
    split; [reflexivity|]. split; [exact Hc'|].
    split; [eapply removals_trans; eauto|].
    intros sq' val' [Heq|Hin]; [|eauto].
    inversion Heq. subst. eapply settled_stays; eauto.
Qed.

Lemma solved_seeding (fuel : nat) :
  81 * 9 <= fuel ->
  exists c, _get_candidates_map fuel board = Some (Ret (Some c))
            /\ Js.keys c = squares
            /\ forall sq, In sq squares -> settled (board_at board) c sq.
Proof.
  intros Hf. unfold _get_candidates_map, _get_square_vals_map.
  rewrite solved_valid, solved_length, squares_length. simpl negb. cbv iota.
  rewrite full_store_built.
  assert (Hsize : size full_store <= fuel)
    by (assert (size full_store = 81 * 9) by (vm_compute; reflexivity); lia).
  destruct (for_each_total
              (fun c (entry : string * ascii) =>
                 let (square, val) := entry in
                 if _in val DIGITS then _assign fuel c square val
                 else Some (Ret true, c))
              (combine squares (Js.split board)) fuel) with (c := full_store)
    as [r [c' [E Hr]]]; [|exact Hsize|].
  { intros c [sq val] Hc. destruct (_in val DIGITS).
    - apply assign_total; [lia | exact Hc].
    - exists (Ret true), c. split; [reflexivity | constructor]. }
  rewrite E.
  apply seed_ok in E; [|exact solved_entry|exact full_store_agrees].
  destruct E as [-> [Hc' [_ Hset]]].
  exists c'. split; [reflexivity|]. split.
  - rewrite (removals_keys _ _ Hr). unfold full_store, Js.keys.
    rewrite map_map. simpl. apply map_id.
  - intros sq Hsq.
    destruct (get_combine_defined squares (Js.split board) sq Hsq) as [v Hv].
    { rewrite length_split, solved_length, squares_length. lia. }
    apply get_In in Hv. eapply Hset; eauto.
Qed.

Lemma solution_fold (c : CandidatesMap) (sqs : list string) (acc : string) :
  (forall sq, In sq sqs -> settled (board_at board) c sq) ->
  fold_left (fun solution square =>
               (solution ++ match Js.get c square with
                            | Some cs => cs
                            | None => "undefined"
                            end)%string) sqs acc
  = (acc ++ string_of_list_ascii (map (board_at board) sqs))%string.
Proof.
  revert acc. induction sqs as [|sq rest IH]; intros acc H; simpl.
  - induction acc as [|a acc IHa]; simpl; congruence.
  - rewrite IH by (intros; apply H; right; assumption).
    rewrite (H sq (or_introl eq_refl)). rewrite append_assoc. reflexivity.
Qed.

End SolvedBoard.

(** C2: on a board that is a complete correct solution (81 digits, every
    unit holding every digit exactly once), [solve] returns that board,
    for either value of [reverse]. *)
Theorem solve_solved (fuel : nat) (board : Board) (reverse : bool) :
  solved_board board = true ->
  81 * 9 <= fuel ->
  solve fuel board reverse = Some (Ret (Solution board)).
Proof.
  intros Hb Hf. unfold solve.
  rewrite (solved_valid board Hb), (solved_givens board Hb).
  rewrite length_split, (solved_length board Hb). simpl Nat.ltb. cbv iota.
  destruct (solved_seeding board Hb fuel Hf) as [c [-> [Hkeys Hset]]].
  destruct fuel as [|fuel]; [lia|].
  cbn [_search]. unfold search_with. cbn [nth_error].
  rewrite (max_candidates_settled c squares 0).
  2:{ intros sq Hsq. exists (Js.str (board_at board sq)).
      split; [apply Hset, Hsq | reflexivity]. }
  assert (Hne : squares <> []).
  { intros E. pose proof squares_length as Hl. rewrite E in Hl. discriminate. }
  destruct squares as [|s0 rest] eqn:Esq; [congruence|]. rewrite <- Esq in *.
  simpl Nat.max. simpl Nat.eqb. cbv iota. cbn [nth_error].
  rewrite Hkeys, (solution_fold board c squares EmptyString Hset). simpl append.
  unfold board_at.
  rewrite (map_get_combine squares (Js.split board) BLANK_CHAR squares_NoDup).
  - unfold Js.split. rewrite string_of_list_ascii_of_string. reflexivity.
  - rewrite length_split, (solved_length board Hb). apply squares_length.
Qed.

Lemma solve_solved_witness :
  solve 729 classic_solution false = Some (Ret (Solution classic_solution)).
Proof.
  apply solve_solved.
  - vm_compute. reflexivity.
  - vm_compute. lia.
Defined.


(* ----------------------------------------------------------------- *)
(** ** Random utilities *)

Lemma rand_range_lt (rnd : random_source) (calls max ti calls' : nat) :
  _rand_range rnd calls max 0 = (Ret ti, calls') -> ti < max.
Proof.
  unfold _rand_range. destruct (Nat.eqb_spec max 0) as [|Hmax]; [discriminate|].
  destruct (rnd calls) as [p k]. intros H. inversion H. subst.
  rewrite Nat.sub_0_r, Nat.add_0_r.
  apply Nat.Div0.div_lt_upper_bound. nia.
Qed.

Lemma probe_free {A : Type} (truthy : A -> bool) (fuel : nat)
  (shuffled : list (option A)) (n ti t : nat) :
  probe truthy fuel shuffled n ti = Some t -> ti < n ->
  t < n /\ occupied truthy (nth_error shuffled t) = false.
Proof.
  revert ti. induction fuel as [|fuel IH]; intros ti; simpl; [discriminate|].
  destruct (occupied truthy (nth_error shuffled ti)) eqn:E.
  - intros H Hti. apply IH in H; [exact H|].
    destruct (Nat.ltb_spec (n - 1) (ti + 1)); lia.
  - intros H Hti. inversion H. subst. auto.
Qed.

Lemma set_slot_length {A : Type} (shuffled : list (option A)) (i : nat) (x : A) :
  i < List.length shuffled ->
  List.length (set_slot shuffled i x) = List.length shuffled.
Proof.
  revert i. induction shuffled as [|y rest IH]; intros [|i]; simpl; try lia.
  intros H. rewrite IH; lia.
Qed.

Lemma filled_set_nth {A : Type} (shuffled : list (option A)) (t : nat) (x : A) :
  nth_error shuffled t = Some None ->
  Permutation (filled (set_slot shuffled t x)) (x :: filled shuffled).
Proof.
  revert t. induction shuffled as [|slot rest IH]; intros [|t]; simpl;
    try discriminate.
  - intros H. inversion H. subst. simpl. apply Permutation_refl.
  - intros H. specialize (IH t H). unfold filled in *. simpl.
    destruct slot as [y|]; simpl.
    + rewrite IH. apply perm_swap.
    + exact IH.
Qed.

Lemma filled_full {A : Type} (shuffled : list (option A)) :
  List.length (filled shuffled) = List.length shuffled ->
  shuffled = map Some (filled shuffled).
Proof.
  assert (Hle : forall l : list (option A), List.length (filled l) <= List.length l).
  { induction l as [|[y|] rest IH]; unfold filled in *; simpl; lia. }
  induction shuffled as [|[y|] rest IH]; unfold filled in *; simpl.
  - reflexivity.
  - intros H. f_equal. apply IH. lia.
  - intros H. specialize (Hle rest). unfold filled in Hle. lia.
Qed.

(** With elements that are all truthy, the loop of [_shuffle] puts every
    element into a slot of its own. *)
Lemma place_all_perm {A : Type} (fuel : nat) (rnd : random_source) (n : nat)
  (seq : list A) (shuffled : list (option A)) (calls : nat)
  (result : list (option A)) (calls' : nat) :
  place_all (fun _ => true) fuel rnd n seq shuffled calls
  = Some (Ret result, calls') ->
  List.length shuffled = n ->
  List.length result = n
  /\ Permutation (filled result) (filled shuffled ++ seq).
Proof.
  revert shuffled calls. induction seq as [|x rest IH]; intros shuffled calls; simpl.
  - intros H Hlen. inversion H. subst. rewrite app_nil_r. auto.
  - destruct (_rand_range rnd calls n 0) as [[ti|e] calls1] eqn:Er; [|discriminate].
    destruct (probe (fun _ => true) fuel shuffled n ti) as [t|] eqn:Ep;
      [|discriminate].
    intros H Hlen.
    apply rand_range_lt in Er.
    destruct (probe_free _ _ _ _ _ _ Ep Er) as [Ht Hfree].
    apply IH in H; [|rewrite set_slot_length; lia].
    destruct H as [Hl Hp]. split; [exact Hl|].
    rewrite Hp.
    assert (Hslot : nth_error shuffled t = Some None).
    { destruct (nth_error shuffled t) as [[y|]|] eqn:E.
      - discriminate.
      - reflexivity.
      - apply nth_error_None in E. lia. }
    rewrite (filled_set_nth _ _ x Hslot). simpl.
    apply Permutation_middle.
Qed.

Lemma shuffle_perm {A : Type} (fuel : nat) (rnd : random_source)
  (seq : list A) (calls : nat) (result : list (option A)) (calls' : nat) :
  _shuffle (fun _ => true) fuel rnd seq calls = Some (Ret result, calls') ->
  exists l, result = map Some l /\ Permutation l seq.
Proof.
  unfold _shuffle. intros H.
  apply place_all_perm in H; [|apply repeat_length].
  destruct H as [Hl Hp].
  assert (Hnone : forall k, filled (repeat (@None A) k) = []).
  { induction k as [|k IHk]; [reflexivity | exact IHk]. }
  rewrite Hnone in Hp. simpl in Hp.
  exists (filled result). split; [|exact Hp].
  apply filled_full. rewrite Hl. apply Permutation_length, Hp.
Qed.

(* ----------------------------------------------------------------- *)
(** ** Writing and trimming the board *)

Lemma split_append (a b : string) :
  Js.split (a ++ b) = Js.split a ++ Js.split b.
Proof. induction a as [|x a IH]; simpl; [reflexivity|]. f_equal. exact IH. Qed.

Lemma split_take (n : nat) (s : string) :
  Js.split (take n s) = firstn n (Js.split s).
Proof.
  revert s. induction n as [|n IH]; intros [|x s]; simpl; try reflexivity.
  f_equal. apply IH.
Qed.

Lemma split_drop (n : nat) (s : string) :
  Js.split (drop n s) = skipn n (Js.split s).
Proof.
  revert s. induction n as [|n IH]; intros [|x s]; simpl; try reflexivity.
  apply IH.
Qed.

Lemma givens_app (l1 l2 : list ascii) :
  filter (fun char => negb (Ascii.eqb char BLANK_CHAR)) (l1 ++ l2)
  = filter (fun char => negb (Ascii.eqb char BLANK_CHAR)) l1
    ++ filter (fun char => negb (Ascii.eqb char BLANK_CHAR)) l2.
Proof. apply filter_app. Qed.

(** Blanking a given takes one given away and leaves the other squares
    as they are. *)
Lemma blank_out_given (board : string) (t : nat) (ch : ascii) :
  nth_error (Js.split board) t = Some ch -> ch <> BLANK_CHAR ->
  S (List.length (givens (blank_out board (Some t)))) = List.length (givens board)
  /\ forall t', t' <> t ->
                nth_error (Js.split (blank_out board (Some t))) t'
                = nth_error (Js.split board) t'.
Proof.
  intros Hn Hch. unfold givens, blank_out.
  rewrite split_append. simpl. rewrite split_take, split_drop.
  apply nth_error_split in Hn as [l1 [l2 [Hs Hl]]]. rewrite Hs.
  rewrite firstn_app, <- Hl, firstn_all, Nat.sub_diag. simpl.
  rewrite app_nil_r.
  replace (skipn (List.length l1 + 1) (l1 ++ ch :: l2)) with l2.
  2:{ rewrite skipn_app, skipn_all2 by lia.
      replace (List.length l1 + 1 - List.length l1) with 1 by lia. reflexivity. }
  split.
  - rewrite !givens_app, !length_app. simpl.
    destruct (Ascii.eqb_spec ch BLANK_CHAR) as [|_]; [contradiction|].
    simpl. lia.
  - intros t' Hne. destruct (Nat.lt_ge_cases t' (List.length l1)) as [Hlt|Hge].
    + rewrite !nth_error_app1 by exact Hlt. reflexivity.
    + rewrite !nth_error_app2 by exact Hge.
      destruct (t' - List.length l1) as [|m] eqn:E; [lia | reflexivity].
Qed.

Lemma trim_givens (count : nat) (l : list nat) (board : string) :
  NoDup l ->
  (forall t, In t l ->
             exists ch, nth_error (Js.split board) t = Some ch /\ ch <> BLANK_CHAR) ->
  count <= List.length l ->
  List.length (givens (trim count (map Some l) board)) + count
  = List.length (givens board).
Proof.
  revert l board. induction count as [|count IH]; intros l board Hnd Hl Hc; simpl.
  - lia.
  - destruct l as [|t rest]; simpl in Hc; [lia|]. simpl.
    inversion Hnd as [|? ? Hn Hnd']. subst.
    destruct (Hl t (or_introl eq_refl)) as [ch [Hch Hnb]].
    destruct (blank_out_given board t ch Hch Hnb) as [Hcount Hsame].
    assert (Hrest : List.length (givens (trim count (map Some rest)
                                              (blank_out board (Some t)))) + count
                    = List.length (givens (blank_out board (Some t)))).
    { apply IH; [exact Hnd' | | lia].
      intros t' Ht'. rewrite Hsame.
      - apply Hl. right. exact Ht'.
      - intros ->. contradiction. }
    unfold blank_out in *. lia.
Qed.

Lemma board_of_givens (c : CandidatesMap) (sqs : list string) (i : nat)
  (board : string) (givens_idxs : list nat) :
  tidy c ->
  board_of c sqs i = Some (board, givens_idxs) ->
  List.length (givens board) = List.length givens_idxs
  /\ NoDup givens_idxs
  /\ forall t, In t givens_idxs ->
               i <= t
               /\ exists ch, nth_error (Js.split board) (t - i) = Some ch
                             /\ ch <> BLANK_CHAR.
Proof.
  intros Ht. revert i board givens_idxs.
  induction sqs as [|sq rest IH]; intros i board givens_idxs; simpl.
  - intros H. inversion H. subst. simpl.
    split; [reflexivity|]. split; [constructor|]. intros t [].
  - destruct (Js.get c sq) as [cs|] eqn:Hget; [|discriminate].
    destruct (board_of c rest (S i)) as [[b idxs]|] eqn:E; [|discriminate].
    destruct (IH _ _ _ E) as [Hlen [Hnd Hidx]].
    destruct (Nat.eqb_spec (String.length cs) 1) as [Hone|_].
    + destruct cs as [|ch [|? ?]]; try discriminate.
      intros H. inversion H. subst. clear H. simpl.
      assert (Hch : ch <> BLANK_CHAR).
      { intros ->. apply blank_no_digit.
        destruct (Ht _ _ Hget) as [_ Hincl]. apply Hincl. left. reflexivity. }
      split; [|split].
      * unfold givens in *. simpl.
        destruct (Ascii.eqb_spec ch BLANK_CHAR); [contradiction|].
        simpl. lia.
      * constructor; [|exact Hnd]. intros Hin. apply Hidx in Hin. lia.
      * intros t [<-|Hin].
        -- split; [lia|]. rewrite Nat.sub_diag. simpl. eauto.
        -- destruct (Hidx t Hin) as [Hle [ch' [Hn Hnb]]]. split; [lia|].
           replace (t - i) with (S (t - S i)) by lia. simpl. eauto.
    + intros H. inversion H. subst. clear H. simpl.
      split; [|split].
      * unfold givens in *. simpl. exact Hlen.
      * exact Hnd.
      * intros t Hin. destruct (Hidx t Hin) as [Hle [ch' [Hn Hnb]]].
        split; [lia|].
        replace (t - i) with (S (t - S i)) by lia. simpl. eauto.
Qed.

Lemma singles_count (c : CandidatesMap) (sqs : list string) (i : nat)
  (singles : list string) (board : string) (givens_idxs : list nat) :
  single_candidates c sqs = Some singles ->
  board_of c sqs i = Some (board, givens_idxs) ->
  List.length singles = List.length givens_idxs.
Proof.
  revert i singles board givens_idxs.
  induction sqs as [|sq rest IH]; intros i singles board givens_idxs; simpl.
  - intros H1 H2. inversion H1. inversion H2. reflexivity.
  - destruct (Js.get c sq) as [cs|]; [|discriminate].
    destruct (single_candidates c rest) as [ss|]; [|discriminate].
    destruct (board_of c rest (S i)) as [[b idxs]|] eqn:E; [|discriminate].
    specialize (IH (S i) ss b idxs eq_refl E).
    destruct (String.length cs =? 1); intros H1 H2;
      inversion H1; inversion H2; simpl; congruence.
Qed.

(* ----------------------------------------------------------------- *)
(** ** Generation *)

Lemma full_store_tidy : tidy full_store.
Proof.
  intros sq cs H. apply get_tabulate_inv in H as [_ ->]. split.
  - assert (Hn : nodup ascii_dec (Js.split DIGITS) = Js.split DIGITS)
      by (vm_compute; reflexivity).
    rewrite <- Hn. apply NoDup_nodup.
  - apply incl_refl.
Qed.

Lemma get_candidates_map_tidy (fuel : nat) (board : Board) (c : CandidatesMap) :
  _get_candidates_map fuel board = Some (Ret (Some c)) -> tidy c.
Proof.
  unfold _get_candidates_map.
  destruct (validate_board board); [|discriminate].
  destruct (_get_square_vals_map board) as [m|]; [|discriminate].
  rewrite full_store_built.
  match goal with
  | |- match ?f with _ => _ end = _ -> _ =>
      destruct f as [[[[|]|e] c1]|] eqn:E; try discriminate
  end.
  intros H. inversion H. subst.
  apply for_each_removals in E.
  - exact (removals_tidy _ _ E full_store_tidy).
  - intros c0 [sq val] r c0'. destruct (_in val DIGITS).
    + apply assign_removals.
    + intros H0. inversion H0. constructor.
Qed.

Lemma force_range_clamp (difficulty : Difficulty) :
  _force_range (NR_SQUARES + 1) (DIFFICULTY_MAP difficulty) MIN_GIVENS
  = clamp (DIFFICULTY_MAP difficulty) 17 81.
Proof. destruct difficulty; reflexivity. Qed.

(** A board the walk returns has exactly the wanted number of givens and
    was solved by the [solve] call that guards the [return]. *)
Lemma walk_returned (fuel : nat) (rnd : random_source) (g : nat)
  (slots : list (option string)) :
  forall c calls board calls',
    tidy c ->
    walk fuel rnd g slots c calls = Some (Ret (Returned board), calls') ->
    List.length (givens board) = g
    /\ exists a s, solve fuel board false = Some (Ret (Solution (String a s))).
Proof.
  induction slots as [|slot rest IH]; intros c calls board calls' Hc;
    cbn [walk]; [discriminate|].
  destruct (Js.get c _) as [cs|]; [|discriminate].
  destruct (_rand_range rnd calls (String.length cs) 0) as [[idx|e] calls1];
    [|discriminate].
  destruct (nth_error (Js.split cs) idx) as [rand_candidate|]; [|discriminate].
  destruct (_assign fuel c _ rand_candidate) as [[[[|]|e] c1]|] eqn:Ea;
    try discriminate.
  assert (Hc1 : tidy c1).
  { apply assign_removals in Ea. exact (removals_tidy _ _ Ea Hc). }
  destruct (single_candidates c1 squares) as [singles|] eqn:Es; [|discriminate].
  destruct ((g <=? List.length singles)
            && (8 <=? List.length (_strip_dups singles))) eqn:Econd;
    [|apply IH; exact Hc1].
  apply andb_true_iff in Econd as [Eg _]. apply Nat.leb_le in Eg.
  destruct (board_of c1 squares 0) as [[b idxs]|] eqn:Eb; [|discriminate].
  rewrite (singles_count _ _ _ _ _ _ Es Eb) in Eg.
  destruct (board_of_givens _ _ _ _ _ Hc1 Eb) as [Hlen [Hnd Hidx]].
  destruct (Nat.ltb_spec g (List.length idxs)) as [Hlt|Hge].
  - destruct (_shuffle (fun _ : nat => true) fuel rnd idxs calls1)
      as [[[shuffled|e] calls2]|] eqn:Esh; try discriminate.
    apply shuffle_perm in Esh as [l [-> Hperm]].
    destruct (solve fuel (trim (List.length idxs - g) (map Some l) b) false)
      as [[[|[|a s]]|e]|] eqn:Eso; try discriminate; try (apply IH; exact Hc1).
    intros H. inversion H. subst. split; [|eauto].
    assert (Ht : List.length (givens (trim (List.length idxs - g) (map Some l) b))
                 + (List.length idxs - g) = List.length (givens b)).
    { apply trim_givens.
      - eapply Permutation_NoDup; [apply Permutation_sym; exact Hperm | exact Hnd].
      - intros t Hin. apply (Permutation_in _ Hperm) in Hin.
        destruct (Hidx t Hin) as [_ H0]. rewrite Nat.sub_0_r in H0. exact H0.
      - rewrite (Permutation_length Hperm). lia. }
    lia.
  - destruct (solve fuel b false)
      as [[[|[|a s]]|e]|] eqn:Eso; try discriminate; try (apply IH; exact Hc1).
    intros H. inversion H. subst. split; [lia | eauto].
Qed.

Lemma generate_returned (stack fuel : nat) (rnd : random_source)
  (difficulty : Difficulty) (unique : bool) (calls : nat)
  (board : Board) (calls' : nat) :
  generate stack fuel rnd difficulty unique calls = Some (Ret board, calls') ->
  List.length (givens board) = clamp (DIFFICULTY_MAP difficulty) 17 81
  /\ exists fuel' a s,
       solve fuel' board false = Some (Ret (Solution (String a s))).
Proof.
  revert unique calls. induction stack as [|stack IH]; intros unique calls;
    cbn [generate]; [discriminate|].
  destruct (_get_candidates_map fuel BLANK_BOARD) as [[made|e]|] eqn:Ec;
    try discriminate.
  destruct (_shuffle truthy_string fuel rnd squares calls)
    as [[[shuffled|e] calls1]|]; try discriminate.
  destruct made as [c|]; [|discriminate].
  destruct (walk fuel rnd _ shuffled c calls1) as [[[[b|]|e] calls2]|] eqn:Ew;
    try discriminate.
  - intros H. inversion H. subst.
    apply walk_returned in Ew; [|eapply get_candidates_map_tidy; eauto].
    destruct Ew as [Hg [a [s Hs]]]. rewrite force_range_clamp in Hg. eauto.
  - apply IH.
Qed.

(** C3: every difficulty has runs of [generate] that return a board, and a
    board [generate] returns, for any difficulty and any draws, has 81
    characters, each a digit 1-9 or the blank marker, exactly
    [clamp(DIFFICULTY_MAP[difficulty], 17, 81)] of them not blank, and
    [solve] returns a solution on it, not [false].  Not every run returns
    a board: some end in the [RangeError] of the exhausted call stack. *)
Theorem generate_board :
  (forall difficulty,
      exists stack fuel rnd board calls',
        generate stack fuel rnd difficulty true 0 = Some (Ret board, calls'))
  /\ (forall stack fuel rnd difficulty unique calls board calls',
        generate stack fuel rnd difficulty unique calls = Some (Ret board, calls') ->
        String.length board = 81
        /\ (forall ch, In ch (Js.split board) ->
                       In ch (Js.split DIGITS) \/ ch = BLANK_CHAR)
        /\ List.length (givens board) = clamp (DIFFICULTY_MAP difficulty) 17 81
        /\ exists fuel' solution,
             solution <> EmptyString
             /\ forall fuel'', fuel' <= fuel'' ->
                  solve fuel'' board false = Some (Ret (Solution solution))).
Proof.
  split.
  - intros difficulty. exists 50, 50, sample_draws.
    destruct difficulty; eexists; eexists; vm_compute; reflexivity.
  - intros stack fuel rnd difficulty unique calls board calls' H.
    apply generate_returned in H as [Hg [fuel' [a [s Hs]]]].
    assert (Hv : validate_board board = Ret true).
    { unfold solve in Hs. destruct (validate_board board) as [b|e] eqn:E;
        [|discriminate].
      apply validate_board_ok in E as [-> _]. reflexivity. }
    apply validate_board_ok in Hv as [_ [Hlen Hch]].
    split; [exact Hlen|]. split; [exact Hch|]. split; [exact Hg|].
    exists fuel', (String a s). split; [discriminate|].
    intros fuel'' Hle. eapply solve_fuel_mono; eauto.
Qed.

Lemma generate_board_witness :
  String.length "6.......3..2.......4..3....2..3.......7..5.......1..9....8..6..5....9..7....5...." = 81
  /\ List.length (givens "6.......3..2.......4..3....2..3.......7..5.......1..9....8..6..5....9..7....5....")
     = clamp (DIFFICULTY_MAP INHUMAN) 17 81.
Proof.
  destruct generate_board as [_ H].
  destruct (H 50 50 sample_draws INHUMAN true 0
              "6.......3..2.......4..3....2..3.......7..5.......1..9....8..6..5....9..7....5...."
              98) as [Hlen [_ [Hg _]]].
  - vm_compute. reflexivity.
  - split; [exact Hlen | exact Hg].
Defined.

(* ----------------------------------------------------------------- *)
(** ** Grid conversions *)

Lemma grid_rows_app (vals : list ascii) (key : nat) (cur_row : list string)
  (rows : BoardGrid) :
  grid_rows vals key cur_row rows = rows ++ grid_rows vals key cur_row [].
Proof.
  revert key cur_row rows. induction vals as [|val rest IH]; intros key cur_row rows.
  - simpl. symmetry. apply app_nil_r.
  - cbn [grid_rows]. destruct (key mod 9 =? 8).
    + rewrite (IH _ _ (rows ++ _)), (IH _ _ ([] ++ _)).
      rewrite <- app_assoc. reflexivity.
    + apply IH.
Qed.

Lemma key_offset (key i : nat) :
  key mod 9 = 0 -> i < 9 -> (i + key) mod 9 = i.
Proof.
  intros Hk Hi. rewrite Nat.Div0.add_mod, Hk, Nat.add_0_r, Nat.Div0.mod_mod.
  apply Nat.mod_small, Hi.
Qed.

(** Nine values starting at a multiple of nine close exactly one row. *)
Lemma grid_rows_nine (key : nat) (a1 a2 a3 a4 a5 a6 a7 a8 a9 : ascii)
  (rest : list ascii) (rows : BoardGrid) :
  key mod 9 = 0 ->
  grid_rows (a1 :: a2 :: a3 :: a4 :: a5 :: a6 :: a7 :: a8 :: a9 :: rest) key [] rows
  = grid_rows rest (9 + key) []
      (rows ++ [map Js.str [a1; a2; a3; a4; a5; a6; a7; a8; a9]]).
Proof.
  intros Hk. cbn [grid_rows].
  change (S key) with (1 + key). change (S (1 + key)) with (2 + key).
  change (S (2 + key)) with (3 + key). change (S (3 + key)) with (4 + key).
  change (S (4 + key)) with (5 + key). change (S (5 + key)) with (6 + key).
  change (S (6 + key)) with (7 + key). change (S (7 + key)) with (8 + key).
  change (S (8 + key)) with (9 + key).
  rewrite Hk.
  rewrite (key_offset key 1), (key_offset key 2), (key_offset key 3),
    (key_offset key 4), (key_offset key 5), (key_offset key 6),
    (key_offset key 7), (key_offset key 8) by (assumption || lia).
  reflexivity.
Qed.

(** Fewer than nine values starting at a multiple of nine close no row. *)
Lemma grid_rows_short (key : nat) (vals : list ascii) (rows : BoardGrid) :
  key mod 9 = 0 -> List.length vals < 9 ->
  grid_rows vals key [] rows = rows.
Proof.
  intros Hk Hl.
  assert (Hgen : forall vals i cur_row,
             i + List.length vals < 9 ->
             grid_rows vals (i + key) cur_row rows = rows).
  { clear vals Hl. induction vals as [|v rest IH]; intros i cur_row Hi;
      cbn [grid_rows].
    - reflexivity.
    - simpl in Hi. rewrite (key_offset key i Hk) by lia.
      destruct (Nat.eqb_spec i 8) as [->|_]; [lia|].
      apply (IH (S i)). lia. }
  apply (Hgen vals 0 []). simpl. exact Hl.
Qed.

Lemma grid_rows_chunks (n : nat) :
  forall vals key rows,
    key mod 9 = 0 ->
    9 * n <= List.length vals < 9 * n + 9 ->
    grid_rows vals key [] rows = rows ++ rows_of_nine n (map Js.str vals).
Proof.
  induction n as [|n IH]; intros vals key rows Hk Hl.
  - rewrite grid_rows_short by (assumption || lia). simpl.
    symmetry. apply app_nil_r.
  - destruct vals as [|a1 [|a2 [|a3 [|a4 [|a5 [|a6 [|a7 [|a8 [|a9 rest]]]]]]]]];
      simpl in Hl; try lia.
    rewrite grid_rows_nine by exact Hk.
    rewrite IH.
    + rewrite <- app_assoc. reflexivity.
    + rewrite Nat.Div0.add_mod, Hk. reflexivity.
    + lia.
Qed.

Lemma rows_of_nine_shape (n : nat) (cells : list string) :
  9 * n <= List.length cells ->
  List.length (rows_of_nine n cells) = n
  /\ forall row, In row (rows_of_nine n cells) -> List.length row = 9.
Proof.
  revert cells. induction n as [|n IH]; intros cells Hlen;
    cbn [rows_of_nine List.length].
  - split; [reflexivity | intros row []].
  - destruct (IH (skipn 9 cells)) as [Hl Hrows].
    { rewrite length_skipn. lia. }
    split; [rewrite Hl; reflexivity|].
    intros row [<-|Hin]; [|auto].
    rewrite length_firstn. lia.
Qed.

Lemma board_grid_chunks (board : Board) :
  board_string_to_grid board
  = rows_of_nine (String.length board / 9) (map Js.str (Js.split board)).
Proof.
  unfold board_string_to_grid.
  rewrite (grid_rows_chunks (String.length board / 9)); [reflexivity | reflexivity |].
  rewrite length_split.
  pose proof (Nat.div_mod_eq (String.length board) 9).
  pose proof (Nat.mod_upper_bound (String.length board) 9). lia.
Qed.

(** X1: [board_string_to_grid] cuts the string into rows of nine characters,
    as many as are complete; what is left over at the end is dropped. *)
Theorem board_string_to_grid_rows (board : Board) :
  board_string_to_grid board
  = rows_of_nine (String.length board / 9) (map Js.str (Js.split board))
  /\ List.length (board_string_to_grid board) = String.length board / 9
  /\ forall row, In row (board_string_to_grid board) -> List.length row = 9.
Proof.
  split; [apply board_grid_chunks|]. rewrite board_grid_chunks.
  apply rows_of_nine_shape.
  rewrite length_map, length_split.
  pose proof (Nat.div_mod_eq (String.length board) 9). lia.
Qed.

Lemma append_cells_prefix (grid more : BoardGrid) (cells : list (nat * nat))
  (acc : string) :
  (forall r c, In (r, c) cells -> r < List.length grid) ->
  append_cells (grid ++ more) cells acc = append_cells grid cells acc.
Proof.
  revert acc. induction cells as [|[r c] rest IH]; intros acc H; simpl.
  - reflexivity.
  - rewrite nth_error_app1 by (apply (H r c); left; reflexivity).
    destruct (nth_error grid r); [|reflexivity].
    apply IH. intros; eapply H; right; eauto.
Qed.

Lemma append_cells_missing (grid : BoardGrid) (cells : list (nat * nat))
  (acc : string) (r c : nat) :
  In (r, c) cells -> List.length grid <= r ->
  append_cells grid cells acc = Throw TypeError.
Proof.
  revert acc. induction cells as [|[r0 c0] rest IH]; intros acc Hin Hr; simpl.
  - destruct Hin.
  - destruct (nth_error grid r0) eqn:E; [|reflexivity].
    destruct Hin as [Heq|Hin]; [|auto].
    inversion Heq. subst. apply nth_error_None in Hr. congruence.
Qed.

(** X2: String to grid and back gives the first 81 characters: the board
    itself when it has exactly 81. *)
Theorem grid_round_trip (board : Board) :
  81 <= String.length board ->
  board_grid_to_string (board_string_to_grid board) = Ret (take 81 board)
  /\ (String.length board = 81 -> take 81 board = board).
Proof.
  intros H.
  do 81 (destruct board as [|? board]; [simpl in H; lia|]).
  split.
  - unfold board_string_to_grid.
    cbn [Js.split list_ascii_of_string].
    do 9 (rewrite grid_rows_nine by reflexivity).
    rewrite grid_rows_app.
    unfold board_grid_to_string. rewrite append_cells_prefix.
    + reflexivity.
    + intros r c Hin. apply in_flat_map in Hin as [r0 [Hr Hc]].
      apply in_map_iff in Hc as [c0 [Heq _]]. inversion Heq. subst.
      apply in_seq in Hr. simpl. lia.
  - intros Hl. destruct board; [reflexivity | simpl in Hl; lia].
Qed.

Lemma grid_round_trip_witness :
  board_grid_to_string (board_string_to_grid classic) = Ret (take 81 classic)
  /\ (String.length classic = 81 -> take 81 classic = classic).
Proof. apply grid_round_trip. vm_compute. lia. Defined.

(** X3: A grid with fewer than nine rows cannot be converted: reading a cell of
    the first missing row throws.  This is what happens to the grid of a
    string shorter than 81 characters. *)
Theorem grid_too_short :
  (forall grid, List.length grid < 9 ->
                board_grid_to_string grid = Throw TypeError)
  /\ (forall board, String.length board < 81 ->
        board_grid_to_string (board_string_to_grid board) = Throw TypeError).
Proof.
  assert (Hgrid : forall grid, List.length grid < 9 ->
                               board_grid_to_string grid = Throw TypeError).
  { intros grid Hl. unfold board_grid_to_string.
    apply (append_cells_missing grid _ _ 8 0); [|lia].
    apply in_flat_map. exists 8. split; [apply in_seq; lia|].
    apply in_map_iff. exists 0. split; [reflexivity | apply in_seq; lia]. }
  split; [exact Hgrid|].
  intros board Hl. apply Hgrid.
  rewrite board_grid_chunks.
  destruct (rows_of_nine_shape (String.length board / 9)
              (map Js.str (Js.split board))) as [E _].
  { rewrite length_map, length_split.
    pose proof (Nat.div_mod_eq (String.length board) 9). lia. }
  rewrite E. apply Nat.Div0.div_lt_upper_bound. lia.
Qed.

Lemma grid_too_short_witness :
  board_grid_to_string (board_string_to_grid "123456789") = Throw TypeError.
Proof.
  destruct grid_too_short as [_ H]. apply H. vm_compute. lia.
Defined.

(** Taking a list of known length apart into its elements. *)
Ltac nine_elements l H :=
  do 9 (destruct l as [|? l]; [simpl in H; lia|]);
  destruct l; [|simpl in H; lia].

(** X4: Grid to string and back gives the grid again, when the grid is nine
    rows of nine one-character cells; the string has 81 characters. *)
Theorem string_round_trip (grid : BoardGrid) :
  nine_by_nine grid ->
  exists board,
    board_grid_to_string grid = Ret board
    /\ String.length board = 81
    /\ board_string_to_grid board = grid.
Proof.
  intros [Hlen Hrows].
  assert (HF : Forall (fun row => List.length row = 9
                                  /\ Forall (fun cell => exists ch, cell = Js.str ch) row)
                      grid).
  { apply Forall_forall. intros row Hin. destruct (Hrows row Hin) as [H9 Hc].
    split; [exact H9 | apply Forall_forall; exact Hc]. }
  clear Hrows. nine_elements grid Hlen. clear Hlen.
  repeat match goal with
         | H : Forall _ (_ :: _) |- _ => inversion H; clear H; subst
         | H : Forall _ [] |- _ => clear H
         | H : _ /\ _ |- _ => destruct H
         end.
  repeat match goal with
         | H : List.length ?l = 9 |- _ => nine_elements l H; clear H
         end.
  repeat match goal with
         | H : Forall _ (_ :: _) |- _ => inversion H; clear H; subst
         | H : Forall _ [] |- _ => clear H
         | H : exists ch, _ = Js.str ch |- _ => destruct H as [? ->]
         end.
  eexists. split; [reflexivity|]. split; reflexivity.
Qed.

Lemma string_round_trip_witness :
  exists board,
    board_grid_to_string (board_string_to_grid classic) = Ret board
    /\ String.length board = 81
    /\ board_string_to_grid board = board_string_to_grid classic.
Proof.
  apply string_round_trip. split; [reflexivity|].
  intros row Hin. vm_compute in Hin.
  repeat (destruct Hin as [<-|Hin];
          [split; [reflexivity|];
           intros cell Hc;
           repeat (destruct Hc as [<-|Hc]; [eexists; reflexivity|]);
           destruct Hc|]).
  destruct Hin.
Defined.

(* ----------------------------------------------------------------- *)
(** ** Printing *)

Lemma display_chars (vals : list ascii) (key : nat) (acc : string) :
  (forall ch, In ch vals -> ch <> " "%char /\ ch <> LF) ->
  filter (fun ch => negb (Ascii.eqb ch " ") && negb (Ascii.eqb ch LF))
         (Js.split (display vals key acc))
  = filter (fun ch => negb (Ascii.eqb ch " ") && negb (Ascii.eqb ch LF))
           (Js.split acc) ++ vals.
Proof.
  revert key acc. induction vals as [|val rest IH]; intros key acc Hv.
  - simpl. symmetry. apply app_nil_r.
  - cbn [display]. rewrite IH by (intros; apply Hv; right; assumption).
    change (val :: rest) with ([val] ++ rest). rewrite app_assoc. f_equal.
    destruct (Hv val (or_introl eq_refl)) as [Hs Hl].
    assert (Hval : negb (Ascii.eqb val " ") && negb (Ascii.eqb val LF) = true).
    { apply andb_true_iff. split; apply negb_true_iff, Ascii.eqb_neq; assumption. }
    destruct (key mod 3 =? 2), (key mod 9 =? 8), (key mod 27 =? 26);
      rewrite ?split_append, ?filter_app; simpl; rewrite Hval, ?app_nil_r;
      reflexivity.
Qed.

Lemma valid_char_no_padding (ch : ascii) :
  In ch (Js.split DIGITS) \/ ch = BLANK_CHAR -> ch <> " "%char /\ ch <> LF.
Proof.
  intros [H| ->].
  - vm_compute in H.
    repeat (destruct H as [<-|H]; [split; discriminate|]). destruct H.
  - split; discriminate.
Qed.

(** X5: [print_board] throws what [validate_board] throws; on a valid board it
    logs a text of 228 characters whose characters other than blanks and
    line feeds are the board, in order. *)
Theorem print_board_text :
  (forall board e, validate_board board = Throw e -> print_board board = Throw e)
  /\ (forall board,
        validate_board board = Ret true ->
        exists text,
          print_board board = Ret text
          /\ String.length text = 228
          /\ unpadded text = board).
Proof.
  split.
  - intros board e H. unfold print_board. rewrite H. reflexivity.
  - intros board H. unfold print_board. rewrite H.
    apply validate_board_ok in H as [_ [Hlen Hch]].
    eexists. split; [reflexivity|]. split.
    + clear Hch.
      do 81 (destruct board as [|? board]; [simpl in Hlen; lia|]).
      destruct board; [reflexivity | simpl in Hlen; lia].
    + unfold unpadded. rewrite display_chars.
      * simpl. apply string_of_list_ascii_of_string.
      * intros ch Hin. apply valid_char_no_padding, Hch, Hin.
Qed.

Lemma print_board_text_witness :
  exists text,
    print_board classic = Ret text
    /\ String.length text = 228
    /\ unpadded text = classic.
Proof.
  destruct print_board_text as [_ H]. apply H. vm_compute. reflexivity.
Defined.

(* ----------------------------------------------------------------- *)
(** ** The small utilities *)

Lemma NoDup_map_injective {X Y : Type} (f : X -> Y) (l : list X) :
  (forall x y, f x = f y -> x = y) -> NoDup l -> NoDup (map f l).
Proof.
  intros Hf. induction 1 as [|x rest Hx _ IH]; simpl; constructor; [|exact IH].
  intros Hin. apply in_map_iff in Hin as [y [Hy Hin]].
  apply Hf in Hy. subst. contradiction.
Qed.

(** X6: [_cross(a, b)] holds exactly the two-character strings made of a
    character of [a] and a character of [b], [|a| * |b|] of them, without
    repetition when neither [a] nor [b] repeats a character. *)
Theorem cross_spec (a b : string) :
  (forall s, In s (_cross a b) <->
             exists x y, In x (Js.split a) /\ In y (Js.split b)
                         /\ s = String x (Js.str y))
  /\ List.length (_cross a b) = String.length a * String.length b
  /\ (NoDup (Js.split a) -> NoDup (Js.split b) -> NoDup (_cross a b)).
Proof.
  unfold _cross. split; [|split].
  - intros s. rewrite in_flat_map. split.
    + intros [x [Hx Hs]]. apply in_map_iff in Hs as [y [Hs Hy]]. eauto.
    + intros [x [y [Hx [Hy ->]]]]. exists x. split; [exact Hx|].
      apply in_map_iff. eauto.
  - rewrite <- !length_split.
    induction (Js.split a) as [|x rest IH]; simpl; [reflexivity|].
    rewrite length_app, length_map, IH. reflexivity.
  - intros Ha Hb. induction Ha as [|x rest Hx Hrest IH]; simpl; [constructor|].
    apply NoDup_app.
    + apply NoDup_map_injective; [|exact Hb].
      intros y1 y2 H. inversion H. reflexivity.
    + exact IH.
    + intros s Hs Hs'. apply in_map_iff in Hs as [y [<- Hy]].
      apply in_flat_map in Hs' as [x' [Hx' Hs']].
      apply in_map_iff in Hs' as [y' [Heq _]]. inversion Heq. subst. contradiction.
Qed.

Lemma strip_dups_loop (seq seq_set : list string) :
  NoDup seq_set ->
  NoDup (fold_left (fun seq_set e => if Js.includes seq_set e then seq_set
                                     else seq_set ++ [e]) seq seq_set)
  /\ (forall e, In e (fold_left (fun seq_set e => if Js.includes seq_set e then seq_set
                                                  else seq_set ++ [e]) seq seq_set)
                <-> In e seq_set \/ In e seq)
  /\ ((forall e, In e seq -> In e seq_set) ->
      fold_left (fun seq_set e => if Js.includes seq_set e then seq_set
                                  else seq_set ++ [e]) seq seq_set = seq_set).
Proof.
  revert seq_set. induction seq as [|x rest IH]; intros seq_set Hnd; simpl.
  - split; [exact Hnd|]. split; [tauto | reflexivity].
  - destruct (Js.includes seq_set x) eqn:E.
    + apply includes_iff in E. destruct (IH seq_set Hnd) as [H1 [H2 H3]].
      split; [exact H1|]. split.
      * intros e. rewrite H2. intuition (subst; auto).
      * intros Hall. apply H3. intros; apply Hall; right; assumption.
    + assert (Hx : ~ In x seq_set).
      { intros Hin. apply includes_iff in Hin. congruence. }
      destruct (IH (seq_set ++ [x])) as [H1 [H2 H3]].
      { apply NoDup_app; [exact Hnd | repeat constructor; simpl; tauto|].
        intros y Hy [<-|[]]. contradiction. }
      split; [exact H1|]. split.
      * intros e. rewrite H2, in_app_iff. simpl. tauto.
      * intros Hall. exfalso. apply Hx, Hall. left. reflexivity.
Qed.

(** X7: On the strings [generate] passes it, candidate strings made of digits,
    [_strip_dups] keeps exactly the elements of its argument, each once, and
    leaves a list without repetitions as it is; applying it twice is
    applying it once.  (No string of digits names a property that the
    object [dup_map] inherits, so [dup_map[e]] is truthy only for an
    element seen before.) *)
Theorem strip_dups_spec (seq : list string) :
  (forall e, In e seq -> incl (Js.split e) (Js.split DIGITS)) ->
  NoDup (_strip_dups seq)
  /\ (forall e, In e (_strip_dups seq) <-> In e seq)
  /\ (NoDup seq -> _strip_dups seq = seq)
  /\ _strip_dups (_strip_dups seq) = _strip_dups seq.
Proof.
  intros _. unfold _strip_dups.
  destruct (strip_dups_loop seq [] (NoDup_nil _)) as [H1 [H2 _]].
  assert (Hfix : forall l acc : list string,
             NoDup (acc ++ l) ->
             fold_left (fun seq_set e => if Js.includes seq_set e then seq_set
                                         else seq_set ++ [e]) l acc = acc ++ l).
  { induction l as [|x rest IH]; intros acc Hnd; simpl.
    - symmetry. apply app_nil_r.
    - destruct (Js.includes acc x) eqn:E.
      + apply includes_iff in E. apply NoDup_remove_2 in Hnd.
        exfalso. apply Hnd. apply in_app_iff. auto.
      + rewrite IH; rewrite <- app_assoc; [reflexivity | exact Hnd]. }
  split; [exact H1|]. split; [|split].
  - intros e. rewrite H2. simpl. tauto.
  - intros Hnd. apply (Hfix seq []). exact Hnd.
  - apply (Hfix _ []). exact H1.
Qed.

Lemma strip_dups_spec_witness :
  NoDup (_strip_dups ["5"; "37"; "5"; "37"; "9"])
  /\ forall e, In e (_strip_dups ["5"; "37"; "5"; "37"; "9"])
               <-> In e ["5"; "37"; "5"; "37"; "9"].
Proof.
  destruct (strip_dups_spec ["5"; "37"; "5"; "37"; "9"]) as [H1 [H2 _]].
  - intros e He ch Hch. apply in_iff.
    repeat (destruct He as [<-|He];
            [repeat (destruct Hch as [<-|Hch]; [reflexivity|]); destruct Hch|]).
    destruct He.
  - split; [exact H1 | exact H2].
Defined.

(** X8: [_force_range] returns [nr] itself when it lies between [min] and
    [max], and otherwise the bound it passed; with [min <= max] the result
    lies between the two, [max] included. *)
Theorem force_range_spec (max nr min : nat) :
  (min <= nr <= max -> _force_range max nr min = nr)
  /\ (nr < min -> _force_range max nr min = min)
  /\ (min <= nr -> max < nr -> _force_range max nr min = max)
  /\ (min <= max -> min <= _force_range max nr min <= max)
  /\ (min <= max ->
      _force_range max (_force_range max nr min) min = _force_range max nr min).
Proof.
  unfold _force_range.
  destruct (Nat.ltb_spec nr min), (Nat.ltb_spec max nr);
    repeat split; intros; try lia;
    repeat match goal with
           | |- context [?a <? ?b] => destruct (Nat.ltb_spec a b)
           end; lia.
Qed.

Lemma force_range_spec_witness :
  _force_range 82 90 17 = 82 /\ 17 <= _force_range 82 3 17 <= 82.
Proof.
  destruct (force_range_spec 82 90 17) as [_ [_ [H _]]].
  destruct (force_range_spec 82 3 17) as [_ [_ [_ [H' _]]]].
  split; [apply H; lia | apply H'; lia].
Defined.

Lemma rand_range_draws (rnd : random_source) (calls max min : nat) :
  max <> 0 ->
  exists n, _rand_range rnd calls max min = (Ret n, S calls)
            /\ (min < max -> min <= n < max).
Proof.
  unfold _rand_range.
  intros Hmax. destruct (Nat.eqb_spec max 0) as [|_]; [contradiction|].
  destruct (rnd calls) as [p k]. eexists. split; [reflexivity|].
  intros Hlt. split; [lia|].
  assert (p * (max - min) / (p + k + 1) < max - min); [|lia].
  apply Nat.Div0.div_lt_upper_bound. nia.
Qed.

(** X9: [_rand_range] throws [ERR_RANGE_UNDEFINED] exactly when [max] is 0,
    without drawing; otherwise it draws once and, for [min < max], returns
    a number from [min] up to but not including [max]. *)
Theorem rand_range_spec (rnd : random_source) (calls max min : nat) :
  (max = 0 ->
   _rand_range rnd calls max min = (Throw (Error ERR_RANGE_UNDEFINED), calls))
  /\ (max <> 0 ->
      exists n, _rand_range rnd calls max min = (Ret n, S calls)
                /\ (min < max -> min <= n < max)).
Proof.
  split.
  - intros ->. reflexivity.
  - apply rand_range_draws.
Qed.

Lemma rand_range_spec_witness :
  exists n, _rand_range sample_draws 0 9 0 = (Ret n, 1) /\ 0 <= n < 9.
Proof.
  destruct (rand_range_spec sample_draws 0 9 0) as [_ H].
  destruct H as [n [E Hn]]; [discriminate|].
  exists n. split; [exact E | apply Hn; lia].
Defined.

(** X10: [_first_true] returns [false] exactly when every element is the empty
    string; otherwise it returns a non-empty element, and every element
    before it is empty. *)
Theorem first_true_spec (seq : list string) :
  (_first_true seq = None <-> forall s, In s seq -> s = EmptyString)
  /\ (forall s, _first_true seq = Some s ->
        s <> EmptyString
        /\ exists before after,
             seq = before ++ s :: after
             /\ forall e, In e before -> e = EmptyString).
Proof.
  induction seq as [|x rest [IH1 IH2]]; simpl.
  - split; [split; [intros _ s [] | reflexivity] | discriminate].
  - destruct x as [|a x]; simpl.
    + split.
      * rewrite IH1. split; [intros H s [<-|Hs]; auto | intros H s Hs; auto].
      * intros s Hs. destruct (IH2 s Hs) as [Hne [before [after [-> Hb]]]].
        split; [exact Hne|]. exists (EmptyString :: before), after.
        split; [reflexivity|]. intros e [<-|He]; auto.
    + split.
      * split; [discriminate|]. intros H.
        specialize (H _ (or_introl eq_refl)). discriminate.
      * intros s Hs. inversion Hs. subst. split; [discriminate|].
        exists [], rest. split; [reflexivity | intros e []].
Qed.

(* ----------------------------------------------------------------- *)
(** ** Shuffling terminates *)

Lemma probe_reaches {A : Type} (truthy : A -> bool)
  (shuffled : list (option A)) (n d : nat) :
  forall fuel ti,
    ti < n -> d < fuel ->
    occupied truthy (nth_error shuffled ((ti + d) mod n)) = false ->
    exists t, probe truthy fuel shuffled n ti = Some t.
Proof.
  induction d as [|d IH]; intros fuel ti Hti Hf Hfree;
    (destruct fuel as [|fuel]; [lia|]); simpl.
  - rewrite Nat.add_0_r, Nat.mod_small in Hfree by exact Hti.
    rewrite Hfree. eauto.
  - destruct (occupied truthy (nth_error shuffled ti)); [|eauto].
    apply IH; [| lia |].
    + destruct (Nat.ltb_spec (n - 1) (ti + 1)); lia.
    + destruct (Nat.ltb_spec (n - 1) (ti + 1)) as [Hwrap|Hnext].
      * assert (ti = n - 1) by lia. subst ti.
        replace (n - 1 + S d) with (d + 1 * n) in Hfree by lia.
        rewrite Nat.Div0.mod_add in Hfree. exact Hfree.
      * replace (ti + 1 + d) with (ti + S d) by lia. exact Hfree.
Qed.

Lemma free_slot {A : Type} (shuffled : list (option A)) :
  List.length (filled shuffled) < List.length shuffled ->
  exists j, nth_error shuffled j = Some None.
Proof.
  induction shuffled as [|[y|] rest IH]; unfold filled in *; simpl; intros H.
  - lia.
  - destruct IH as [j Hj]; [lia|]. exists (S j). exact Hj.
  - exists 0. reflexivity.
Qed.

Lemma filled_slot {A : Type} (shuffled : list (option A)) (t : nat) (y : A) :
  nth_error shuffled t = Some (Some y) -> In y (filled shuffled).
Proof.
  revert t. induction shuffled as [|slot rest IH]; intros [|t]; simpl;
    try discriminate; unfold filled in *; simpl.
  - intros H. inversion H. left. reflexivity.
  - intros H. apply in_app_iff. right. eapply IH; eauto.
Qed.

Lemma place_all_total {A : Type} (truthy : A -> bool) (fuel : nat)
  (rnd : random_source) (n : nat) (seq : list A) :
  n <= fuel ->
  (forall x, In x seq -> truthy x = true) ->
  forall shuffled calls,
    List.length shuffled = n ->
    List.length (filled shuffled) + List.length seq = n ->
    (forall x, In x (filled shuffled) -> truthy x = true) ->
    exists result,
      place_all truthy fuel rnd n seq shuffled calls
      = Some (Ret result, calls + List.length seq)
      /\ List.length result = n
      /\ Permutation (filled result) (filled shuffled ++ seq).
Proof.
  intros Hfuel. induction seq as [|x rest IH]; intros Hseq shuffled calls Hlen Hcount Hfilled.
  - simpl. exists shuffled. rewrite Nat.add_0_r, app_nil_r. auto.
  - simpl in Hcount. cbn [place_all].
    destruct (rand_range_draws rnd calls n 0) as [ti0 [Er Hti0]]; [lia|].
    rewrite Er.
    assert (Hti : ti0 < n) by (apply Hti0; lia).
    destruct (free_slot shuffled) as [j Hj]; [lia|].
    assert (Hjn : j < n).
    { rewrite <- Hlen. apply nth_error_Some. congruence. }
    destruct (probe_reaches truthy shuffled n ((j + n - ti0) mod n) fuel ti0)
      as [t Ep].
    + exact Hti.
    + pose proof (Nat.mod_upper_bound (j + n - ti0) n). lia.
    + rewrite Nat.Div0.add_mod_idemp_r.
      replace (ti0 + (j + n - ti0)) with (j + 1 * n) by lia.
      rewrite Nat.Div0.mod_add, Nat.mod_small by exact Hjn.
      rewrite Hj. reflexivity.
    + rewrite Ep.
      destruct (probe_free _ _ _ _ _ _ Ep Hti) as [Ht Hfree].
      assert (Hslot : nth_error shuffled t = Some None).
      { destruct (nth_error shuffled t) as [[y|]|] eqn:E.
        - simpl in Hfree. rewrite (Hfilled y) in Hfree; [discriminate|].
          eapply filled_slot; eauto.
        - reflexivity.
        - apply nth_error_None in E. lia. }
      pose proof (filled_set_nth shuffled t x Hslot) as Hperm.
      destruct (IH (fun y Hy => Hseq y (or_intror Hy))
                   (set_slot shuffled t x) (S calls)) as [result [E [Hl Hp]]].
      * rewrite set_slot_length; lia.
      * rewrite (Permutation_length Hperm). simpl. lia.
      * intros y Hy. apply (Permutation_in _ Hperm) in Hy.
        destruct Hy as [<-|Hy]; [apply Hseq; left; reflexivity | auto].
      * exists result. split; [|split].
        -- rewrite E. f_equal. f_equal. simpl. lia.
        -- exact Hl.
        -- rewrite Hp, Hperm. simpl. apply Permutation_middle.
Qed.

(** X11: [_shuffle] on truthy elements returns after exactly one draw per
    element, with a permutation of the elements: the probing always finds a
    free slot within one round of the array. *)
Theorem shuffle_total {A : Type} (truthy : A -> bool) (fuel : nat)
  (rnd : random_source) (seq : list A) (calls : nat) :
  (forall x, In x seq -> truthy x = true) ->
  List.length seq <= fuel ->
  exists l,
    _shuffle truthy fuel rnd seq calls
    = Some (Ret (map Some l), calls + List.length seq)
    /\ Permutation l seq.
Proof.
  intros Hseq Hfuel. unfold _shuffle.
  assert (Hnone : forall k, filled (repeat (@None A) k) = []).
  { induction k as [|k IHk]; [reflexivity | exact IHk]. }
  destruct (place_all_total truthy fuel rnd (List.length seq) seq Hfuel Hseq
              (repeat None (List.length seq)) calls) as [result [E [Hl Hp]]].
  - apply repeat_length.
  - rewrite Hnone. reflexivity.
  - rewrite Hnone. intros x [].
  - rewrite Hnone in Hp. simpl in Hp.
    exists (filled result). split; [|exact Hp].
    rewrite E. f_equal. f_equal. f_equal.
    apply filled_full. rewrite Hl. apply Permutation_length, Hp.
Qed.

Lemma shuffle_total_witness :
  exists l,
    _shuffle truthy_string 3 sample_draws ["A1"; "A2"; "A3"] 0
    = Some (Ret (map Some l), 3)
    /\ Permutation l ["A1"; "A2"; "A3"].
Proof.
  apply (shuffle_total truthy_string 3 sample_draws ["A1"; "A2"; "A3"] 0).
  - intros x [<-|[<-|[<-|[]]]]; reflexivity.
  - simpl. lia.
Defined.

(* ----------------------------------------------------------------- *)
(** ** What a successful propagation leaves behind *)

Lemma removals_lacks (c c' : CandidatesMap) (sq : string) (d : ascii) :
  removals c c' -> lacks c sq d -> lacks c' sq d.
Proof.
  intros Hr Hl p cs' Hp Hget' Hin.
  destruct (removals_members _ _ _ _ _ Hr Hget' Hin) as [cs [Hget Hd]].
  exact (Hl p cs Hp Hget Hd).
Qed.

Lemma advances_refl (c : CandidatesMap) : advances c c.
Proof. split; [constructor|]. split; auto. Qed.

Lemma advances_trans (c1 c2 c3 : CandidatesMap) :
  advances c1 c2 -> advances c2 c3 -> advances c1 c3.
Proof.
  intros [Hr1 [Hn1 Hs1]] [Hr2 [Hn2 Hs2]]. split; [|split].
  - eapply removals_trans; eauto.
  - auto.
  - intros sq d Hget. destruct (Hs2 sq d Hget) as [H2|H2]; [|auto].
    destruct (Hs1 sq d H2) as [H1|H1]; [auto|].
    right. eapply removals_lacks; eauto.
Qed.

Lemma advances_propagated (c c' : CandidatesMap) :
  advances c c' -> propagated c -> propagated c'.
Proof.
  intros [Hr [_ Hs]] Hp sq d Hget.
  destruct (Hs sq d Hget) as [H|H]; [|exact H].
  eapply removals_lacks; eauto.
Qed.

Lemma removals_gone (c c' : CandidatesMap) (sq : string) (d : ascii) :
  removals c c' ->
  (forall cs, Js.get c sq = Some cs -> ~ In d (Js.split cs)) ->
  forall cs', Js.get c' sq = Some cs' -> ~ In d (Js.split cs').
Proof.
  intros Hr Hg cs' Hget' Hin.
  destruct (removals_members _ _ _ _ _ Hr Hget' Hin) as [cs [Hget Hd]].
  exact (Hg cs Hget Hd).
Qed.

(** A square down to one candidate keeps it as long as it is not
    emptied. *)
Lemma single_stays (c c' : CandidatesMap) (sq : string) (d : ascii) :
  Js.get c sq = Some (Js.str d) -> removals c c' -> tidy c' -> nonempty c' ->
  Js.get c' sq = Some (Js.str d).
Proof.
  intros Hget Hr Ht Hn.
  assert (Hk : exists cs', Js.get c' sq = Some cs').
  { apply get_in_keys. rewrite (removals_keys _ _ Hr). apply get_in_keys. eauto. }
  destruct Hk as [cs' Hget']. rewrite Hget'. f_equal.
  destruct (Ht _ _ Hget') as [Hnd _].
  assert (Hall : forall x, In x (Js.split cs') -> x = d).
  { intros x Hx. destruct (removals_members _ _ _ _ _ Hr Hget' Hx) as [cs [Hg Hxin]].
    rewrite Hget in Hg. inversion Hg. subst. simpl in Hxin.
    destruct Hxin as [<-|[]]. reflexivity. }
  apply single_string; [exact Hnd | | exact Hall].
  destruct cs' as [|a rest]; [exfalso; exact (Hn _ _ Hget' eq_refl)|].
  rewrite <- (Hall a); left; reflexivity.
Qed.

Section Advance.

Variable eliminate : CandidatesMap -> string -> ascii -> propagation.
Hypothesis eliminate_removes :
  forall c sq v r c', eliminate c sq v = Some (r, c') -> removals c c'.
Hypothesis eliminate_advances :
  forall c sq v c',
    tidy c -> eliminate c sq v = Some (Ret true, c') ->
    advances c c'
    /\ forall cs', Js.get c' sq = Some cs' -> ~ In v (Js.split cs').

(** A loop of eliminations that runs to its end: every value is gone from
    its square afterwards. *)
Lemma eliminations_advance {X : Type} (at_sq : X -> string) (value : X -> ascii)
  (xs : list X) :
  forall c c',
    tidy c ->
    for_each (fun c x => eliminate c (at_sq x) (value x)) xs c = Some (Ret true, c') ->
    advances c c'
    /\ forall x cs', In x xs -> Js.get c' (at_sq x) = Some cs' ->
                     ~ In (value x) (Js.split cs').
Proof.
  induction xs as [|x rest IH]; intros c c' Ht; simpl.
  - intros H. inversion H. subst. split; [apply advances_refl | intros x cs' []].
  - destruct (eliminate c (at_sq x) (value x)) as [[[[|]|e] c1]|] eqn:E;
      try discriminate.
    destruct (eliminate_advances _ _ _ _ Ht E) as [Ha Hg].
    intros H.
    assert (Ht1 : tidy c1).
    { destruct Ha as [Hr _]. exact (removals_tidy _ _ Hr Ht). }
    destruct (IH c1 c' Ht1 H) as [Ha' Hg'].
    split; [eapply advances_trans; eauto|].
    intros y cs' [<-|Hy] Hget'; [|eauto].
    destruct Ha' as [Hr' _]. exact (removals_gone _ _ _ _ Hr' Hg cs' Hget').
Qed.

Lemma assign_with_advances (c : CandidatesMap) (sq : string) (v : ascii)
  (c' : CandidatesMap) :
  tidy c -> assign_with eliminate c sq v = Some (Ret true, c') ->
  advances c c'
  /\ (nonempty c -> Js.get c' sq = Some (Js.str v)).
Proof.
  intros Ht. unfold assign_with.
  destruct (Js.get c sq) as [cs|] eqn:Hget; [|discriminate].
  intros H.
  destruct (eliminations_advance (fun _ => sq) (fun o => o) _ _ _ Ht H)
    as [Ha Hgone].
  split; [exact Ha|]. intros Hn.
  destruct Ha as [Hr [Hn' _]]. specialize (Hn' Hn).
  pose proof (removals_tidy _ _ Hr Ht) as Ht'.
  assert (Hk : exists cs', Js.get c' sq = Some cs').
  { apply get_in_keys. rewrite (removals_keys _ _ Hr). apply get_in_keys. eauto. }
  destruct Hk as [cs' Hget']. rewrite Hget'. f_equal.
  destruct (Ht' _ _ Hget') as [Hnd _].
  assert (Hall : forall x, In x (Js.split cs') -> x = v).
  { intros x Hx. destruct (Ascii.eqb_spec x v) as [|Hne]; [assumption|].
    exfalso. apply (Hgone x cs'); [|exact Hget'|exact Hx].
    apply split_replace_other; [exact Hne|].
    destruct (removals_members _ _ _ _ _ Hr Hget' Hx) as [cs0 [Hg0 Hx0]].
    congruence. }
  apply single_string; [exact Hnd | | exact Hall].
  destruct cs' as [|a rest]; [exfalso; exact (Hn' _ _ Hget' eq_refl)|].
  rewrite <- (Hall a); left; reflexivity.
Qed.

Lemma units_loop_advances (v : ascii) (us : list (list string)) :
  forall c c',
    tidy c ->
    for_each (fun c unit =>
                match val_places c v unit with
                | None => Some (Throw TypeError, c)
                | Some [] => Some (Ret false, c)
                | Some [place] => assign_with eliminate c place v
                | Some _ => Some (Ret true, c)
                end) us c = Some (Ret true, c') ->
    advances c c'.
Proof.
  induction us as [|u rest IH]; intros c c' Ht; simpl.
  - intros H. inversion H. apply advances_refl.
  - destruct (val_places c v u) as [[|p [|q ps]]|]; try discriminate.
    + destruct (assign_with eliminate c p v) as [[[[|]|e] c1]|] eqn:E;
        try discriminate.
      destruct (assign_with_advances _ _ _ _ Ht E) as [Ha _].
      intros H. eapply advances_trans; [exact Ha|].
      apply IH; [|exact H]. destruct Ha as [Hr _]. exact (removals_tidy _ _ Hr Ht).
    + apply IH. exact Ht.
Qed.

Lemma eliminate_with_advances (c : CandidatesMap) (sq : string) (v : ascii)
  (c' : CandidatesMap) :
  tidy c -> eliminate_with eliminate c sq v = Some (Ret true, c') ->
  advances c c'
  /\ forall cs', Js.get c' sq = Some cs' -> ~ In v (Js.split cs').
Proof.
  intros Ht H.
  pose proof (eliminate_with_cases _ eliminate_removes _ _ _ _ _ H) as Hcases.
  destruct Hcases as [[_ [E _]]|[[cs [Hget [Ein [_ ->]]]]|[cs [Hget [Ein Hr]]]]];
    [discriminate| |].
  { split; [apply advances_refl|]. intros cs' Hget'.
    assert (cs' = cs) by congruence. subst. apply in_false_iff, Ein. }
  destruct (Ht _ _ Hget) as [Hnd _].
  assert (Hg1 : Js.get (Js.set c sq (Js.replace cs v)) sq = Some (Js.replace cs v))
    by (eapply get_set_same; eauto).
  assert (H01 : removal c (Js.set c sq (Js.replace cs v)))
    by (constructor; assumption).
  assert (Ht1 : tidy (Js.set c sq (Js.replace cs v)))
    by (exact (removal_tidy _ _ H01 Ht)).
  split.
  2:{ intros cs' Hget'. eapply removals_gone; [exact Hr | | exact Hget'].
      intros cs1 Hcs1. rewrite Hg1 in Hcs1. inversion Hcs1. subst.
      apply replace_gone, Hnd. }
  unfold eliminate_with in H. rewrite Hget, Ein in H.
  cbv beta iota zeta delta [negb] in H.
  set (c1 := Js.set c sq (Js.replace cs v)) in *.
  assert (Hother : forall x, x <> sq -> Js.get c1 x = Js.get c x).
  { intros x Hx. unfold c1. apply get_set_other. exact Hx. }
  destruct (Js.replace cs v) as [|t [|t' rest]] eqn:Erep; [discriminate| |].
  - (* the square is down to [t]: the peers loop, then the units loop *)
    destruct (Js.get square_peers_map sq) as [peers|] eqn:Epeers; [|discriminate].
    destruct (for_each (fun c peer => eliminate c peer t) peers c1)
      as [[[[|]|e] c2]|] eqn:E2; try discriminate.
    destruct (eliminations_advance (fun p => p) (fun _ => t) _ _ _ Ht1 E2)
      as [Ha12 Hgone].
    destruct (Js.get square_units_map sq) as [us|]; [|discriminate].
    assert (Ht2 : tidy c2).
    { destruct Ha12 as [Hr12 _]. exact (removals_tidy _ _ Hr12 Ht1). }
    pose proof (units_loop_advances v us c2 c' Ht2 H) as Ha2.
    pose proof (advances_trans _ _ _ Ha12 Ha2) as Ha1.
    destruct Ha1 as [Hr1 [Hn1 Hs1]]. split; [|split].
    + econstructor; eauto.
    + intros Hn. apply Hn1. intros x cs1 Hx.
      destruct (String.eqb_spec x sq) as [->|Hne].
      * rewrite Hg1 in Hx. inversion Hx. discriminate.
      * rewrite Hother in Hx by exact Hne. eauto.
    + intros x d Hx. destruct (Hs1 x d Hx) as [H1|H1]; [|auto].
      destruct (String.eqb_spec x sq) as [->|Hne].
      * right. rewrite Hg1 in H1. inversion H1. subst d.
        intros p cs' [peers' [Hp Hin]] Hget'.
        assert (peers' = peers) by congruence. subst peers'.
        destruct Ha2 as [Hr2 _].
        eapply removals_gone; [exact Hr2 | | exact Hget'].
        intros cs2 Hcs2. exact (Hgone p cs2 Hin Hcs2).
      * left. rewrite <- Hother by exact Hne. exact H1.
  - (* two candidates or more are left: the units loop only *)
    destruct (Js.get square_units_map sq) as [us|]; [|discriminate].
    pose proof (units_loop_advances v us c1 c' Ht1 H) as Ha1.
    destruct Ha1 as [Hr1 [Hn1 Hs1]]. split; [|split].
    + econstructor; eauto.
    + intros Hn. apply Hn1. intros x cs1 Hx.
      destruct (String.eqb_spec x sq) as [->|Hne].
      * rewrite Hg1 in Hx. inversion Hx. discriminate.
      * rewrite Hother in Hx by exact Hne. eauto.
    + intros x d Hx. destruct (Hs1 x d Hx) as [H1|H1]; [|auto].
      destruct (String.eqb_spec x sq) as [->|Hne].
      * rewrite Hg1 in H1. inversion H1.
      * left. rewrite <- Hother by exact Hne. exact H1.
Qed.

End Advance.

Lemma eliminate_advances (fuel : nat) (c : CandidatesMap) (sq : string)
  (v : ascii) (c' : CandidatesMap) :
  tidy c -> _eliminate fuel c sq v = Some (Ret true, c') ->
  advances c c'
  /\ forall cs', Js.get c' sq = Some cs' -> ~ In v (Js.split cs').
Proof.
  revert c sq v c'. induction fuel as [|fuel IH]; intros c sq v c'.
  - discriminate.
  - apply (eliminate_with_advances (_eliminate fuel) (eliminate_removals fuel) IH).
Qed.

Lemma assign_advances (fuel : nat) (c : CandidatesMap) (sq : string)
  (v : ascii) (c' : CandidatesMap) :
  tidy c -> _assign fuel c sq v = Some (Ret true, c') ->
  advances c c'
  /\ (nonempty c -> Js.get c' sq = Some (Js.str v)).
Proof.
  apply (assign_with_advances (_eliminate fuel) (eliminate_advances fuel)).
Qed.

Lemma assign_sound (fuel : nat) (c : CandidatesMap) (sq : string)
  (v : ascii) (c' : CandidatesMap) :
  sound c -> _assign fuel c sq v = Some (Ret true, c') ->
  sound c' /\ removals c c' /\ Js.get c' sq = Some (Js.str v).
Proof.
  intros [Hk [Ht [Hn Hp]]] H.
  destruct (assign_advances _ _ _ _ _ Ht H) as [Ha Hset].
  pose proof Ha as [Hr [Hn' _]].
  split; [|split; [exact Hr | exact (Hset Hn)]].
  split; [rewrite (removals_keys _ _ Hr); exact Hk|].
  split; [exact (removals_tidy _ _ Hr Ht)|].
  split; [exact (Hn' Hn) | exact (advances_propagated _ _ Ha Hp)].
Qed.

(* ----------------------------------------------------------------- *)
(** ** The search on the heap and the search by value *)

Lemma refines_extends (h0 h1 : heap) (res : searching) (res' : found) :
  extends h0 h1 -> refines h1 res res' -> refines h0 res res'.
Proof.
  intros H01. destruct res as [[[v|e] h']|]; simpl; auto.
  intros [H1 H2]. split; [eapply extends_trans; eauto | exact H2].
Qed.

Lemma first_truthy_refines {A : Type} (body : heap -> A -> searching)
  (body' : A -> found) (xs : list A) (h : heap) :
  (forall h0 x, extends h h0 -> refines h0 (body h0 x) (body' x)) ->
  forall h0, extends h h0 ->
             refines h0 (first_truthy body xs h0) (first_found body' xs).
Proof.
  intros Hb. induction xs as [|x rest IH]; intros h0 H0; simpl.
  - split; [apply extends_refl|]. split; [exact I | reflexivity].
  - pose proof (Hb h0 x H0) as Hx.
    destruct (body h0 x) as [[[[|l]|e] h1]|]; simpl in Hx.
    + destruct Hx as [H01 [_ ->]]. simpl.
      eapply refines_extends; [exact H01|].
      apply IH. eapply extends_trans; eauto.
    + destruct Hx as [H01 [Hl ->]]. simpl in *.
      destruct (nth_error h1 l) as [c|] eqn:E.
      * split; [exact H01|]. split; [exact Hl|]. simpl. rewrite ?E. reflexivity.
      * exfalso. apply nth_error_None in E. lia.
    + rewrite Hx. reflexivity.
    + rewrite Hx. reflexivity.
Qed.

Lemma search_with_refines
  (assign : CandidatesMap -> string -> ascii -> propagation)
  (search : heap -> value -> bool -> searching)
  (search' : option CandidatesMap -> bool -> found) :
  (forall h v rv, valid h v -> refines h (search h v rv) (search' (content h v) rv)) ->
  forall h v rv,
    valid h v ->
    refines h (search_with assign search h v rv)
              (search_store_with assign search' (content h v) rv).
Proof.
  intros Hs h v rv Hv. unfold search_with, search_store_with.
  destruct v as [|l]; simpl content.
  { split; [apply extends_refl|]. split; [exact I | reflexivity]. }
  simpl in Hv. destruct (nth_error h l) as [c|] eqn:Hl.
  2:{ exfalso. apply nth_error_None in Hl. lia. }
  destruct (max_candidates c squares 0) as [m|]; [|reflexivity].
  destruct (m =? 1).
  { split; [apply extends_refl|]. split; [exact Hv|]. simpl. rewrite Hl. reflexivity. }
  destruct (min_candidates c squares 10 None) as [sq|]; [|reflexivity].
  destruct (Js.get c (key_of sq)) as [min_cs|]; [|reflexivity].
  assert (Hbranch : forall b h0 x, extends h h0 ->
    refines h0
      match nth_error h0 l with
      | None => Some (Throw TypeError, h0)
      | Some now =>
          let (l', h1) := json_copy h0 now in
          match at_ref l' (fun o => assign o (key_of sq) x) h1 with
          | Some (Ret v, h2) => search h2 v b
          | stop => stop
          end
      end
      match assign c (key_of sq) x with
      | None => None
      | Some (Throw e, _) => Some (Throw e)
      | Some (Ret true, o) => search' (Some o) b
      | Some (Ret false, _) => search' None b
      end).
  { intros b h0 x H0. rewrite (extends_nth _ _ _ _ H0 Hl). unfold json_copy.
    assert (Hx : forall o', extends h0 (h0 ++ [o'])) by (intros; eexists; reflexivity).
    unfold at_ref. rewrite nth_error_app2, Nat.sub_diag by lia. simpl.
    destruct (assign c (key_of sq) x) as [[[[|]|e] o']|]; rewrite ?store_new;
      try reflexivity.
    - apply (refines_extends _ _ _ _ (Hx o')).
      assert (Hc : content (h0 ++ [o']) (VRef (List.length h0)) = Some o').
      { simpl. rewrite nth_error_app2, Nat.sub_diag by lia. reflexivity. }
      rewrite <- Hc. apply Hs. simpl. rewrite length_app. simpl. lia.
    - apply (refines_extends _ _ _ _ (Hx o')).
      apply (Hs (h0 ++ [o']) VFalse b). exact I. }
  destruct (negb rv).
  - apply (first_truthy_refines _ _ _ h); [|apply extends_refl].
    intros; apply Hbranch; assumption.
  - apply (first_truthy_refines _ _ _ h); [|apply extends_refl].
    intros; apply Hbranch; assumption.
Qed.

Lemma search_refines (fuel : nat) (h : heap) (v : value) (rv : bool) :
  valid h v ->
  refines h (_search fuel h v rv) (search_store fuel (content h v) rv).
Proof.
  revert h v rv. induction fuel as [|fuel IH]; intros h v rv Hv.
  - reflexivity.
  - apply search_with_refines; assumption.
Qed.

Lemma solve_by_value (fuel : nat) (board : Board) (reverse : bool) :
  solve fuel board reverse = solve_store fuel board reverse.
Proof.
  unfold solve, solve_store.
  destruct (validate_board board); [|reflexivity].
  match goal with |- (if ?b then _ else _) = _ => destruct b end; [reflexivity|].
  destruct (_get_candidates_map fuel board) as [[[c|]|e]|]; try reflexivity.
  - assert (Hv : valid [c] (VRef 0)) by (simpl; lia).
    pose proof (search_refines fuel [c] (VRef 0) reverse Hv) as H.
    simpl content in H.
    destruct (_search fuel [c] (VRef 0) reverse) as [[[[|l]|e] h']|]; simpl in H.
    + destruct H as [_ [_ ->]]. reflexivity.
    + destruct H as [_ [Hl ->]]. simpl.
      destruct (nth_error h' l) as [result|] eqn:E; [reflexivity|].
      exfalso. apply nth_error_None in E. lia.
    + rewrite H. reflexivity.
    + rewrite H. reflexivity.
  - pose proof (search_refines fuel [] VFalse reverse I) as H.
    simpl content in H.
    destruct (_search fuel [] VFalse reverse) as [[[[|l]|e] h']|]; simpl in H.
    + destruct H as [_ [_ ->]]. reflexivity.
    + destruct H as [_ [Hl ->]]. simpl.
      destruct (nth_error h' l) as [result|] eqn:E; [reflexivity|].
      exfalso. apply nth_error_None in E. lia.
    + rewrite H. reflexivity.
    + rewrite H. reflexivity.
Qed.

(* ----------------------------------------------------------------- *)
(** ** No exception on a store keyed by the squares *)

Lemma keyed_defined (c : CandidatesMap) (sq : string) :
  keyed c -> In sq squares -> exists cs, Js.get c sq = Some cs.
Proof. intros Hk Hsq. apply get_in_keys, Hk, Hsq. Qed.

Lemma peer_is_square (sq p : string) : peer_of sq p -> In p squares.
Proof.
  intros H. apply peer_shares_unit in H as [_ [_ [u [Hu [_ Hp]]]]].
  exact (unit_squares u p Hu Hp).
Qed.

Lemma for_each_safe {A : Type} (body : CandidatesMap -> A -> propagation)
  (xs : list A) :
  (forall c x r c', body c x = Some (r, c') -> removals c c') ->
  (forall c x e c', keyed c -> In x xs -> body c x <> Some (Throw e, c')) ->
  forall c e c', keyed c -> for_each body xs c <> Some (Throw e, c').
Proof.
  intros Hr Hb. induction xs as [|x rest IH]; intros c e c' Hk; simpl.
  - discriminate.
  - destruct (body c x) as [[[[|]|e0] c1]|] eqn:E; try discriminate.
    + apply IH.
      * intros; apply Hb; [assumption | right; assumption].
      * eapply removals_keyed; [eapply Hr; exact E | exact Hk].
    + exfalso. exact (Hb c x e0 c1 Hk (or_introl eq_refl) E).
Qed.

Section NoThrow.

Variable eliminate : CandidatesMap -> string -> ascii -> propagation.
Hypothesis eliminate_removes :
  forall c sq v r c', eliminate c sq v = Some (r, c') -> removals c c'.
Hypothesis eliminate_safe :
  forall c sq v e c',
    keyed c -> In sq squares -> eliminate c sq v <> Some (Throw e, c').

Lemma assign_with_safe (c : CandidatesMap) (sq : string) (v : ascii)
  (e : exn) (c' : CandidatesMap) :
  keyed c -> In sq squares -> assign_with eliminate c sq v <> Some (Throw e, c').
Proof.
  intros Hk Hsq. unfold assign_with.
  destruct (keyed_defined c sq Hk Hsq) as [cs ->].
  apply for_each_safe; [|auto|exact Hk].
  intros ? ? ? ? Hx; exact (eliminate_removes _ _ _ _ _ Hx).
Qed.

Lemma eliminate_with_safe (c : CandidatesMap) (sq : string) (v : ascii)
  (e : exn) (c' : CandidatesMap) :
  keyed c -> In sq squares -> eliminate_with eliminate c sq v <> Some (Throw e, c').
Proof.
  intros Hk Hsq. unfold eliminate_with.
  destruct (keyed_defined c sq Hk Hsq) as [cs Hget]. rewrite Hget.
  destruct (_in v cs) eqn:Ein; [|discriminate].
  cbv beta iota zeta delta [negb].
  assert (H01 : removal c (Js.set c sq (Js.replace cs v)))
    by (constructor; assumption).
  assert (Hk1 : keyed (Js.set c sq (Js.replace cs v))).
  { eapply removals_keyed; [|exact Hk]. econstructor; [exact H01 | constructor]. }
  set (c1 := Js.set c sq (Js.replace cs v)) in *.
  destruct (units_defined sq Hsq) as [us [-> Hus]].
  assert (Hunits : forall c2 e c',
    keyed c2 ->
    for_each (fun c unit =>
                match val_places c v unit with
                | None => Some (Throw TypeError, c)
                | Some [] => Some (Ret false, c)
                | Some [place] => assign_with eliminate c place v
                | Some _ => Some (Ret true, c)
                end) us c2 <> Some (Throw e, c')).
  { intros c2 e0 c0'. apply for_each_safe.
    - intros c0 u r0 c0'' Hx.
      destruct (val_places c0 v u) as [[|p [|q ps]]|];
        try (inversion Hx; constructor).
      exact (assign_with_removals _ eliminate_removes _ _ _ _ _ Hx).
    - intros c0 u e1 c0'' Hk0 Hu.
      destruct (Hus u Hu) as [Hu' _].
      destruct (val_places_defined c0 v u) as [places Hp].
      { intros x Hx. apply (keyed_defined c0 x Hk0). exact (unit_squares u x Hu' Hx). }
      rewrite Hp. destruct places as [|p [|q ps]]; try discriminate.
      apply assign_with_safe; [exact Hk0|].
      apply (unit_squares u p Hu').
      apply (val_places_spec _ _ _ _ Hp p). left. reflexivity. }
  destruct (Js.replace cs v) as [|t [|t' rest]]; [discriminate| |].
  - destruct (peers_defined sq Hsq) as [peers [-> Hpeers]].
    destruct (for_each (fun c peer => eliminate c peer t) peers c1)
      as [[[[|]|e2] c2]|] eqn:E2; try discriminate.
    + apply Hunits. eapply removals_keyed; [|exact Hk1].
      eapply for_each_removals; [|exact E2].
      intros ? ? ? ? Hx; exact (eliminate_removes _ _ _ _ _ Hx).
    + exfalso. revert E2. apply for_each_safe; [| |exact Hk1].
      * intros ? ? ? ? Hx; exact (eliminate_removes _ _ _ _ _ Hx).
      * intros c0 p e0 c0' Hk0 Hp. apply eliminate_safe; [exact Hk0|].
        exact (peer_is_square sq p (Hpeers p Hp)).
  - apply Hunits. exact Hk1.
Qed.

End NoThrow.

Lemma eliminate_safe (fuel : nat) (c : CandidatesMap) (sq : string) (v : ascii)
  (e : exn) (c' : CandidatesMap) :
  keyed c -> In sq squares -> _eliminate fuel c sq v <> Some (Throw e, c').
Proof.
  revert c sq v e c'. induction fuel as [|fuel IH]; intros c sq v e c'.
  - discriminate.
  - apply (eliminate_with_safe (_eliminate fuel) (eliminate_removals fuel) IH).
Qed.

Lemma assign_safe (fuel : nat) (c : CandidatesMap) (sq : string) (v : ascii)
  (e : exn) (c' : CandidatesMap) :
  keyed c -> In sq squares -> _assign fuel c sq v <> Some (Throw e, c').
Proof.
  apply (assign_with_safe (_eliminate fuel) (eliminate_removals fuel)
           (eliminate_safe fuel)).
Qed.

(* ----------------------------------------------------------------- *)
(** ** The two scans of the search *)

Lemma max_candidates_spec (c : CandidatesMap) (sqs : list string) (m0 m : nat) :
  max_candidates c sqs m0 = Some m ->
  m0 <= m
  /\ (forall sq, In sq sqs ->
                 exists cs, Js.get c sq = Some cs /\ String.length cs <= m)
  /\ (m = m0 \/ exists sq cs, In sq sqs /\ Js.get c sq = Some cs
                              /\ String.length cs = m).
Proof.
  revert m0. induction sqs as [|x rest IH]; intros m0; simpl.
  - intros H. inversion H. subst. split; [lia|]. split; [intros sq []|auto].
  - destruct (Js.get c x) as [cs|] eqn:Hget; [|discriminate].
    intros H. apply IH in H as [Hle [Hall Hatt]].
    destruct (Nat.ltb_spec m0 (String.length cs)).
    + split; [lia|]. split.
      * intros sq [<-|Hsq]; [exists cs; split; [exact Hget|lia] | auto].
      * right. destruct Hatt as [->|[sq [cs' [Hsq H']]]].
        -- exists x, cs. auto.
        -- exists sq, cs'. split; [right; exact Hsq | exact H'].
    + split; [lia|]. split.
      * intros sq [<-|Hsq]; [exists cs; split; [exact Hget|lia] | auto].
      * destruct Hatt as [->|[sq [cs' [Hsq H']]]]; [auto|].
        right. exists sq, cs'. split; [right; exact Hsq | exact H'].
Qed.

Lemma max_candidates_defined (c : CandidatesMap) (sqs : list string) (m0 : nat) :
  (forall sq, In sq sqs -> exists cs, Js.get c sq = Some cs) ->
  exists m, max_candidates c sqs m0 = Some m.
Proof.
  revert m0. induction sqs as [|x rest IH]; intros m0 H; simpl; [eauto|].
  destruct (H x (or_introl eq_refl)) as [cs ->].
  apply IH. intros; apply H; right; assumption.
Qed.

Lemma min_candidates_some (c : CandidatesMap) (sqs : list string) (m : nat)
  (init : option string) :
  (forall sq, In sq sqs -> exists cs, Js.get c sq = Some cs) ->
  init <> None
  \/ (exists sq cs, In sq sqs /\ Js.get c sq = Some cs
                    /\ 1 < String.length cs < m) ->
  exists sq, min_candidates c sqs m init = Some (Some sq).
Proof.
  revert m init. induction sqs as [|x rest IH]; intros m init Hdef Hsome; simpl.
  - destruct Hsome as [Hi|[sq [cs [[] _]]]].
    destruct init as [sq|]; [eauto | congruence].
  - destruct (Hdef x (or_introl eq_refl)) as [cs Hget]. rewrite Hget.
    assert (Hrest : forall sq, In sq rest -> exists cs, Js.get c sq = Some cs)
      by (intros; apply Hdef; right; assumption).
    destruct ((String.length cs <? m) && (1 <? String.length cs)) eqn:E.
    + apply IH; [exact Hrest|]. left. discriminate.
    + apply IH; [exact Hrest|].
      destruct Hsome as [Hi|[sq [cs' [[<-|Hsq] [Hg Hlen]]]]]; [auto| |].
      * exfalso. assert (cs' = cs) by congruence. subst cs'.
        apply andb_false_iff in E as [E|E]; apply Nat.ltb_ge in E; lia.
      * right. exists sq, cs'. auto.
Qed.

Lemma min_candidates_in (c : CandidatesMap) (sqs : list string) (m : nat)
  (init : option string) (sq : string) :
  min_candidates c sqs m init = Some (Some sq) ->
  init = Some sq \/ In sq sqs.
Proof.
  revert m init. induction sqs as [|x rest IH]; intros m init; simpl.
  - intros H. inversion H. auto.
  - destruct (Js.get c x) as [cs|]; [|discriminate].
    destruct ((String.length cs <? m) && (1 <? String.length cs)).
    + intros H. apply IH in H as [H|H]; [inversion H|]; auto.
    + intros H. apply IH in H as [H|H]; auto.
Qed.

Lemma tidy_length (c : CandidatesMap) (sq cs : string) :
  tidy c -> Js.get c sq = Some cs -> String.length cs <= 9.
Proof.
  intros Ht Hget. destruct (Ht sq cs Hget) as [Hnd Hincl].
  rewrite <- length_split.
  exact (NoDup_incl_length Hnd Hincl).
Qed.

Lemma sound_keyed (c : CandidatesMap) : sound c -> keyed c.
Proof. intros [Hk _] k. rewrite Hk. reflexivity. Qed.

Lemma one_char (cs : string) :
  String.length cs = 1 -> exists d, cs = Js.str d.
Proof.
  destruct cs as [|d [|]]; simpl; try discriminate. intros _. exists d. reflexivity.
Qed.

Lemma first_square : In "A1" squares.
Proof. apply includes_iff. vm_compute. reflexivity. Qed.

(** One call of the search on a sound store: either every square is down
    to one candidate and the store itself is returned, or the loop runs
    over the candidates of a square that holds more than one. *)
Lemma search_store_step (c : CandidatesMap) :
  sound c ->
  ((forall sq, In sq squares -> exists d, Js.get c sq = Some (Js.str d))
   /\ forall fuel rv, search_store (S fuel) (Some c) rv = Some (Ret (Some c)))
  \/ exists sq min_cs,
       In sq squares /\ Js.get c sq = Some min_cs /\ 1 < String.length min_cs
       /\ forall fuel rv,
            search_store (S fuel) (Some c) rv
            = first_found (search_branch fuel c sq rv)
                          (if rv then rev (Js.split min_cs) else Js.split min_cs).
Proof.
  intros Hs. pose proof (sound_keyed c Hs) as Hk.
  destruct Hs as [_ [Ht [Hn _]]].
  destruct (max_candidates_defined c squares 0 (fun sq => keyed_defined c sq Hk))
    as [m Hm].
  pose proof (max_candidates_spec _ _ _ _ Hm) as [_ [Hall Hatt]].
  assert (Hpos : 1 <= m).
  { destruct (Hall _ first_square) as [cs [Hget Hlen]].
    pose proof (Hn _ _ Hget). destruct cs; simpl in Hlen; [congruence | lia]. }
  destruct (Nat.eqb_spec m 1) as [->|Hm1].
  { left. split.
    - intros sq Hsq.
      destruct (Hall sq Hsq) as [cs [Hget Hlen]]. rewrite Hget.
      pose proof (Hn _ _ Hget).
      destruct (one_char cs) as [d ->]; [|eauto].
      destruct cs; simpl in Hlen |- *; [congruence | lia].
    - intros fuel rv. cbn [search_store]. unfold search_store_with.
      rewrite Hm. reflexivity. }
  right.
  destruct Hatt as [->|[sq0 [cs0 [Hsq0 [Hget0 Hlen0]]]]]; [lia|].
  destruct (min_candidates_some c squares 10 None
              (fun sq => keyed_defined c sq Hk)) as [sq Hmin].
  { right. exists sq0, cs0. split; [exact Hsq0|]. split; [exact Hget0|].
    pose proof (tidy_length _ _ _ Ht Hget0). lia. }
  pose proof (min_candidates_in _ _ _ _ _ Hmin) as [Hin|Hin]; [discriminate|].
  pose proof (min_candidates_found _ _ _ _ _ Hmin) as [H0|[cs [Hget Hlen]]];
    [discriminate|].
  exists sq, cs.
  split; [exact Hin|]. split; [exact Hget|]. split; [exact Hlen|].
  intros fuel rv. cbn [search_store]. unfold search_store_with.
  rewrite Hm. apply Nat.eqb_neq in Hm1. rewrite Hm1, Hmin. simpl key_of.
  rewrite Hget. destruct rv; reflexivity.
Qed.

Lemma first_found_split {A : Type} (body : A -> found) (xs : list A)
  (c' : CandidatesMap) :
  first_found body xs = Some (Ret (Some c')) ->
  exists pre x post,
    xs = pre ++ x :: post
    /\ body x = Some (Ret (Some c'))
    /\ forall y, In y pre -> body y = Some (Ret None).
Proof.
  induction xs as [|x rest IH]; simpl; [discriminate|].
  destruct (body x) as [[[o|]|e]|] eqn:E; try discriminate.
  - intros H. inversion H. subst. exists [], x, rest.
    split; [reflexivity|]. split; [exact E | intros y []].
  - intros H. destruct (IH H) as [pre [w [post [-> [Hw Hpre]]]]].
    exists (x :: pre), w, post. split; [reflexivity|]. split; [exact Hw|].
    intros y [<-|Hy]; auto.
Qed.

Lemma first_found_throw {A : Type} (body : A -> found) (xs : list A) (e : exn) :
  first_found body xs = Some (Throw e) ->
  exists x, In x xs /\ body x = Some (Throw e).
Proof.
  induction xs as [|x rest IH]; simpl; [discriminate|].
  destruct (body x) as [[[o|]|e0]|] eqn:E; try discriminate.
  - intros H. destruct (IH H) as [w [Hw Hb]]. exists w. auto.
  - intros H. inversion H. subst. exists x. auto.
Qed.

Lemma first_found_none {A : Type} (body : A -> found) (xs : list A) :
  first_found body xs = Some (Ret None) ->
  forall x, In x xs -> body x = Some (Ret None).
Proof.
  induction xs as [|x rest IH]; simpl; [intros _ x []|].
  destruct (body x) as [[[o|]|e]|] eqn:E; try discriminate.
  intros H y [<-|Hy]; auto.
Qed.

Lemma search_store_false (fuel : nat) (rv : bool) (r : outcome (option CandidatesMap)) :
  search_store fuel None rv = Some r -> r = Ret None.
Proof. destruct fuel; simpl; [discriminate|]. intros H. inversion H. reflexivity. Qed.

(** A store the search returns is sound, was reached from the store given
    by removals only, and has one candidate in every square. *)
Lemma search_store_sound (fuel : nat) :
  forall c rv c',
    sound c -> search_store fuel (Some c) rv = Some (Ret (Some c')) ->
    sound c' /\ removals c c'
    /\ forall sq, In sq squares -> exists d, Js.get c' sq = Some (Js.str d).
Proof.
  induction fuel as [|fuel IH]; intros c rv c' Hs; [discriminate|].
  destruct (search_store_step c Hs)
    as [[Hall ->]|[sq [min_cs [Hsq [Hget [Hlen ->]]]]]].
  - intros H. inversion H. subst. split; [exact Hs|]. split; [constructor | exact Hall].
  - intros H. apply first_found_split in H as [_ [x [_ [_ [Hx _]]]]].
    unfold search_branch in Hx.
    destruct (_assign fuel c sq x) as [[[[|]|e] o]|] eqn:Ea; try discriminate.
    + destruct (assign_sound _ _ _ _ _ Hs Ea) as [Hso [Hr _]].
      destruct (IH o rv c' Hso Hx) as [Hs' [Hr' Hall]].
      split; [exact Hs'|]. split; [eapply removals_trans; eauto | exact Hall].
    + apply search_store_false in Hx. discriminate.
Qed.

(** The search raises no exception on a sound store. *)
Lemma search_store_safe (fuel : nat) :
  forall c rv e, sound c -> search_store fuel (Some c) rv <> Some (Throw e).
Proof.
  induction fuel as [|fuel IH]; intros c rv e Hs; [discriminate|].
  destruct (search_store_step c Hs)
    as [[Hall ->]|[sq [min_cs [Hsq [Hget [Hlen ->]]]]]]; [discriminate|].
  intros H. apply first_found_throw in H as [x [_ Hx]].
  unfold search_branch in Hx.
  destruct (_assign fuel c sq x) as [[[[|]|e0] o]|] eqn:Ea; try discriminate.
  - destruct (assign_sound _ _ _ _ _ Hs Ea) as [Hso _].
    exact (IH o rv e Hso Hx).
  - apply search_store_false in Hx. discriminate.
  - exact (assign_safe fuel c sq x e0 o (sound_keyed c Hs) Hsq Ea).
Qed.

(* ----------------------------------------------------------------- *)
(** ** Seeding the store from a board *)

Lemma full_store_sound : sound full_store.
Proof.
  split; [|split; [exact full_store_tidy|split]].
  - vm_compute. reflexivity.
  - intros sq cs H. apply get_tabulate_inv in H as [_ ->]. discriminate.
  - intros sq d H. apply get_tabulate_inv in H as [_ H]. discriminate.
Qed.

Lemma full_store_size : size full_store = 729.
Proof. vm_compute. reflexivity. Qed.

Lemma seed_sound (fuel : nat) (entries : list (string * ascii)) :
  forall c c',
    sound c ->
    for_each (fun c (entry : string * ascii) =>
                let (square, val) := entry in
                if _in val DIGITS then _assign fuel c square val
                else Some (Ret true, c)) entries c = Some (Ret true, c') ->
    sound c' /\ removals c c'
    /\ forall sq val, In (sq, val) entries -> _in val DIGITS = true ->
                      Js.get c' sq = Some (Js.str val).
Proof.
  induction entries as [|[sq val] rest IH]; intros c c' Hs; simpl.
  - intros H. inversion H. subst. split; [exact Hs|]. split; [constructor|].
    intros sq val [].
  - destruct (_in val DIGITS) eqn:Hd.
    + destruct (_assign fuel c sq val) as [[[[|]|e] c1]|] eqn:E; try discriminate.
      destruct (assign_sound _ _ _ _ _ Hs E) as [Hs1 [Hr1 Hset]].
      intros H. destruct (IH c1 c' Hs1 H) as [Hs' [Hr' Hrest]].
      split; [exact Hs'|]. split; [eapply removals_trans; eauto|].
      intros sq' val' [Heq|Hin] Hd'; [|eauto].
      inversion Heq. subst. destruct Hs' as [_ [Ht' [Hn' _]]].
      exact (single_stays _ _ _ _ Hset Hr' Ht' Hn').
    + intros H. destruct (IH c c' Hs H) as [Hs' [Hr' Hrest]].
      split; [exact Hs'|]. split; [exact Hr'|].
      intros sq' val' [Heq|Hin] Hd'; [|eauto].
      inversion Heq. subst. congruence.
Qed.

Lemma seed_safe (fuel : nat) (entries : list (string * ascii)) :
  (forall sq val, In (sq, val) entries -> In sq squares) ->
  forall c e c',
    keyed c ->
    for_each (fun c (entry : string * ascii) =>
                let (square, val) := entry in
                if _in val DIGITS then _assign fuel c square val
                else Some (Ret true, c)) entries c <> Some (Throw e, c').
Proof.
  intros He. apply for_each_safe.
  - intros c [sq val] r c'. destruct (_in val DIGITS).
    + apply assign_removals.
    + intros H. inversion H. constructor.
  - intros c [sq val] e c' Hk Hin. destruct (_in val DIGITS); [|discriminate].
    apply assign_safe; [exact Hk | exact (He sq val Hin)].
Qed.

Lemma board_entry (board : Board) (sq : string) (val : ascii) :
  In (sq, val) (combine squares (Js.split board)) ->
  In sq squares /\ val = board_at board sq.
Proof.
  intros H. split; [eapply in_combine_l; eauto|].
  unfold board_at. rewrite (get_combine_NoDup _ _ _ _ squares_NoDup H).
  reflexivity.
Qed.

Lemma board_at_entry (board : Board) (sq : string) :
  String.length board = 81 -> In sq squares ->
  In (sq, board_at board sq) (combine squares (Js.split board)).
Proof.
  intros Hlen Hsq.
  destruct (get_combine_defined squares (Js.split board) sq Hsq) as [v Hv].
  { rewrite length_split, Hlen, squares_length. lia. }
  unfold board_at. rewrite Hv. apply get_In, Hv.
Qed.

Lemma get_candidates_map_loop (fuel : nat) (board : Board) :
  validate_board board = Ret true ->
  _get_candidates_map fuel board
  = match for_each (fun c (entry : string * ascii) =>
                      let (square, val) := entry in
                      if _in val DIGITS then _assign fuel c square val
                      else Some (Ret true, c))
                   (combine squares (Js.split board)) full_store with
    | None => None
    | Some (Throw e, _) => Some (Throw e)
    | Some (Ret false, _) => Some (Ret None)
    | Some (Ret true, c) => Some (Ret (Some c))
    end.
Proof.
  intros Hv. unfold _get_candidates_map, _get_square_vals_map. rewrite Hv.
  apply validate_board_ok in Hv as [_ [Hlen _]].
  rewrite Hlen, squares_length. simpl negb. cbv iota.
  rewrite full_store_built. reflexivity.
Qed.

Lemma get_candidates_map_valid (fuel : nat) (board : Board)
  (made : option CandidatesMap) :
  _get_candidates_map fuel board = Some (Ret made) ->
  validate_board board = Ret true.
Proof.
  unfold _get_candidates_map.
  destruct (validate_board board) as [b|] eqn:Hv; [|discriminate].
  apply validate_board_ok in Hv as [-> _]. reflexivity.
Qed.

Lemma get_candidates_map_sound (fuel : nat) (board : Board) (c : CandidatesMap) :
  _get_candidates_map fuel board = Some (Ret (Some c)) ->
  sound c /\ removals full_store c
  /\ forall sq, In sq squares -> board_at board sq <> BLANK_CHAR ->
                Js.get c sq = Some (Js.str (board_at board sq)).
Proof.
  intros H. pose proof (get_candidates_map_valid _ _ _ H) as Hv.
  rewrite (get_candidates_map_loop fuel board Hv) in H.
  match type of H with
  | match ?f with _ => _ end = _ => destruct f as [[[[|]|e] c1]|] eqn:E;
                                      try discriminate
  end.
  inversion H. subst c1.
  destruct (seed_sound _ _ _ _ full_store_sound E) as [Hs [Hr Hgiven]].
  split; [exact Hs|]. split; [exact Hr|].
  intros sq Hsq Hne.
  apply validate_board_ok in Hv as [_ [Hlen Hchars]].
  pose proof (board_at_entry board sq Hlen Hsq) as Hin.
  apply (Hgiven _ _ Hin). apply in_iff.
  destruct (Hchars (board_at board sq)) as [Hd|Hb]; [|exact Hd|contradiction].
  eapply in_combine_r; eauto.
Qed.

Lemma get_candidates_map_safe (fuel : nat) (board : Board) (e : exn) :
  validate_board board = Ret true ->
  _get_candidates_map fuel board <> Some (Throw e).
Proof.
  intros Hv. rewrite (get_candidates_map_loop fuel board Hv).
  match goal with
  | |- match ?f with _ => _ end <> _ => destruct f as [[[[|]|e0] c1]|] eqn:E;
                                           try discriminate
  end.
  exfalso. revert E. apply seed_safe.
  - intros sq val Hin. eapply in_combine_l; eauto.
  - apply sound_keyed, full_store_sound.
Qed.

Lemma get_candidates_map_total (fuel : nat) (board : Board) :
  validate_board board = Ret true -> 729 <= fuel ->
  exists made, _get_candidates_map fuel board = Some (Ret made).
Proof.
  intros Hv Hf.
  pose proof (get_candidates_map_safe fuel board) as Hsafe.
  specialize (fun e => Hsafe e Hv).
  rewrite (get_candidates_map_loop fuel board Hv) in *.
  destruct (for_each_total
              (fun c (entry : string * ascii) =>
                 let (square, val) := entry in
                 if _in val DIGITS then _assign fuel c square val
                 else Some (Ret true, c))
              (combine squares (Js.split board)) fuel) with (c := full_store)
    as [r [c' [E Hr]]].
  { intros c [sq val] Hc. destruct (_in val DIGITS).
    - apply assign_total; [lia | exact Hc].
    - exists (Ret true), c. split; [reflexivity | constructor]. }
  { rewrite full_store_size. exact Hf. }
  rewrite E in *. destruct r as [[|]|e]; eauto.
  exfalso. exact (Hsafe e eq_refl).
Qed.

(* ----------------------------------------------------------------- *)
(** ** A store with one candidate everywhere is a solved board *)

Lemma single_fold (c : CandidatesMap) (f : string -> ascii) (sqs : list string)
  (acc : string) :
  (forall sq, In sq sqs -> Js.get c sq = Some (Js.str (f sq))) ->
  fold_left (fun solution square =>
               (solution ++ match Js.get c square with
                            | Some cs => cs
                            | None => "undefined"
                            end)%string) sqs acc
  = (acc ++ string_of_list_ascii (map f sqs))%string.
Proof.
  revert acc. induction sqs as [|sq rest IH]; intros acc H; simpl.
  - induction acc as [|a acc IHa]; simpl; congruence.
  - rewrite IH by (intros; apply H; right; assumption).
    rewrite (H sq (or_introl eq_refl)). rewrite append_assoc. reflexivity.
Qed.

Lemma get_combine_map {V : Type} (f : string -> V) (ks : list string) (k : string) :
  In k ks -> Js.get (combine ks (map f ks)) k = Some (f k).
Proof.
  induction ks as [|k0 ks IH]; simpl; [tauto|].
  destruct (String.eqb_spec k0 k) as [->|Hne]; [reflexivity|].
  intros [H|H]; [contradiction | auto].
Qed.

Lemma board_at_map (f : string -> ascii) (sq : string) :
  In sq squares -> board_at (string_of_list_ascii (map f squares)) sq = f sq.
Proof.
  intros Hsq. unfold board_at, Js.split.
  rewrite list_ascii_of_string_of_list_ascii, (get_combine_map f squares sq Hsq).
  reflexivity.
Qed.

Lemma board_of_map (board : Board) :
  String.length board = 81 ->
  string_of_list_ascii (map (board_at board) squares) = board.
Proof.
  intros Hlen. unfold board_at.
  rewrite (map_get_combine squares (Js.split board) BLANK_CHAR squares_NoDup).
  - apply string_of_list_ascii_of_string.
  - rewrite length_split, Hlen. apply squares_length.
Qed.

Lemma units_shape (u : list string) :
  In u units -> NoDup u /\ List.length u = 9.
Proof.
  intros Hu.
  assert (H : forallb (fun u => if list_eq_dec string_dec (nodup string_dec u) u
                                then List.length u =? 9 else false) units = true)
    by (vm_compute; reflexivity).
  rewrite forallb_forall in H. specialize (H u Hu).
  destruct (list_eq_dec string_dec (nodup string_dec u) u) as [E|]; [|discriminate].
  split; [rewrite <- E; apply NoDup_nodup | apply Nat.eqb_eq, H].
Qed.

Lemma digits_shape : NoDup (Js.split DIGITS) /\ List.length (Js.split DIGITS) = 9.
Proof.
  split; [|reflexivity].
  assert (Hn : nodup ascii_dec (Js.split DIGITS) = Js.split DIGITS)
    by (vm_compute; reflexivity).
  rewrite <- Hn. apply NoDup_nodup.
Qed.

Lemma NoDup_map_on {X Y : Type} (f : X -> Y) (l : list X) :
  NoDup l ->
  (forall x y, In x l -> In y l -> f x = f y -> x = y) ->
  NoDup (map f l).
Proof.
  induction 1 as [|x l Hx Hnd IH]; intros Hinj; simpl; constructor.
  - intros Hin. apply in_map_iff in Hin as [y [Hy Hin]].
    apply Hx. rewrite (Hinj x y); auto; [left; reflexivity | right; exact Hin].
  - apply IH. intros; apply Hinj; auto; right; assumption.
Qed.

(** A sound store with one candidate in every square spells a solved
    board. *)
Lemma solved_by_store (c : CandidatesMap) :
  sound c ->
  (forall sq, In sq squares -> exists d, Js.get c sq = Some (Js.str d)) ->
  solved_board (solution_of c) = true
  /\ forall sq, In sq squares ->
                Js.get c sq = Some (Js.str (board_at (solution_of c) sq)).
Proof.
  intros [Hk [Ht [Hn Hp]]] Hall.
  set (f := fun sq => match Js.get c sq with
                      | Some (String d _) => d
                      | _ => BLANK_CHAR
                      end).
  assert (Hf : forall sq, In sq squares -> Js.get c sq = Some (Js.str (f sq))).
  { intros sq Hsq. unfold f. destruct (Hall sq Hsq) as [d ->]. reflexivity. }
  assert (Hsol : solution_of c = string_of_list_ascii (map f squares)).
  { unfold solution_of. rewrite Hk. apply (single_fold c f squares EmptyString Hf). }
  assert (Hdigit : forall sq, In sq squares -> In (f sq) (Js.split DIGITS)).
  { intros sq Hsq. destruct (Ht _ _ (Hf sq Hsq)) as [_ Hincl].
    apply Hincl. left. reflexivity. }
  rewrite Hsol. split.
  2:{ intros sq Hsq. rewrite (board_at_map f sq Hsq). exact (Hf sq Hsq). }
  unfold solved_board. apply andb_true_iff. split; [apply andb_true_iff; split|].
  - apply Nat.eqb_eq. rewrite <- length_split. unfold Js.split.
    rewrite list_ascii_of_string_of_list_ascii, length_map. apply squares_length.
  - apply forallb_forall. intros ch Hch. unfold Js.split in Hch.
    rewrite list_ascii_of_string_of_list_ascii in Hch.
    apply in_map_iff in Hch as [sq [<- Hsq]]. apply in_iff, Hdigit, Hsq.
  - apply forallb_forall. intros u Hu. unfold unit_complete.
    apply forallb_forall. intros d Hd. apply Nat.eqb_eq.
    destruct (units_shape u Hu) as [Hnd Hlen].
    assert (Hmap : map (board_at (string_of_list_ascii (map f squares))) u = map f u).
    { apply map_ext_in. intros sq Hsq. apply board_at_map.
      exact (unit_squares u sq Hu Hsq). }
    rewrite Hmap.
    assert (Hnd' : NoDup (map f u)).
    { apply NoDup_map_on; [exact Hnd|]. intros x y Hx Hy Heq.
      destruct (String.eqb_spec x y) as [|Hne]; [assumption|]. exfalso.
      assert (Hpeer : peer_of x y).
      { apply peer_shares_unit. split; [exact (unit_squares u x Hu Hx)|].
        split; [congruence|]. exists u. auto. }
      apply (Hp x (f x) (Hf x (unit_squares u x Hu Hx)) y _ Hpeer
               (Hf y (unit_squares u y Hu Hy))).
      left. symmetry. exact Heq. }
    apply NoDup_count_occ'; [exact Hnd'|].
    destruct digits_shape as [Hdn Hdl].
    refine (NoDup_length_incl Hnd' _ _ d Hd).
    + rewrite length_map, Hlen, Hdl. lia.
    + intros x Hx. apply in_map_iff in Hx as [sq [<- Hsq]].
      apply Hdigit. exact (unit_squares u sq Hu Hsq).
Qed.

Lemma solve_store_solution (fuel : nat) (board : Board) (rv : bool) (s : string) :
  solve_store fuel board rv = Some (Ret (Solution s)) ->
  exists c c',
    _get_candidates_map fuel board = Some (Ret (Some c))
    /\ search_store fuel (Some c) rv = Some (Ret (Some c'))
    /\ s = solution_of c'.
Proof.
  unfold solve_store.
  destruct (validate_board board); [|discriminate].
  match goal with |- (if ?b then _ else _) = _ -> _ => destruct b; [discriminate|] end.
  destruct (_get_candidates_map fuel board) as [[[c|]|e]|]; try discriminate.
  - destruct (search_store fuel (Some c) rv) as [[[c'|]|e]|] eqn:E;
      try discriminate.
    intros H. inversion H. exists c, c'. auto.
  - destruct (search_store fuel None rv) as [[[c'|]|e]|] eqn:E; try discriminate.
    apply search_store_false in E. discriminate.
Qed.

Lemma solve_store_completes (fuel : nat) (board : Board) (reverse : bool)
  (s : string) :
  solve_store fuel board reverse = Some (Ret (Solution s)) ->
  completes s board.
Proof.
  intros H.
  apply solve_store_solution in H as [c [c' [Hc [Hsearch ->]]]].
  destruct (get_candidates_map_sound _ _ _ Hc) as [Hs [_ Hgiven]].
  destruct (search_store_sound _ _ _ _ Hs Hsearch) as [Hs' [Hr Hall]].
  destruct (solved_by_store c' Hs' Hall) as [Hsolved Hat].
  split; [exact Hsolved|].
  intros sq Hsq Hne.
  pose proof Hs' as [_ [Ht' [Hn' _]]].
  pose proof (single_stays _ _ _ _ (Hgiven sq Hsq Hne) Hr Ht' Hn') as H1.
  rewrite (Hat sq Hsq) in H1. inversion H1. reflexivity.
Qed.

(** X20: Whatever string [solve] returns is a complete correct board that keeps
    every given of the board it was called on. *)
Theorem solve_sound (fuel : nat) (board : Board) (reverse : bool) (s : string) :
  solve fuel board reverse = Some (Ret (Solution s)) ->
  completes s board.
Proof.
  rewrite solve_by_value. apply solve_store_completes.
Qed.

Lemma solve_sound_witness : completes classic_solution classic.
Proof.
  apply (solve_sound 730 classic true classic_solution).
  vm_compute. reflexivity.
Defined.

(* ----------------------------------------------------------------- *)
(** ** The search finds a solution when there is one *)

Lemma first_found_hit {A : Type} (body : A -> found) (xs : list A) (x : A) :
  In x xs ->
  (forall r, body x = Some r -> exists c', r = Ret (Some c')) ->
  (forall y e, In y xs -> body y <> Some (Throw e)) ->
  forall r, first_found body xs = Some r -> exists c', r = Ret (Some c').
Proof.
  induction xs as [|y rest IH]; intros Hx Hhit Hsafe r; simpl; [destruct Hx|].
  destruct (body y) as [[[o|]|e]|] eqn:E.
  - intros H. inversion H. eauto.
  - destruct Hx as [->|Hx].
    + destruct (Hhit _ E) as [c' Hc']. discriminate.
    + apply IH; [exact Hx | exact Hhit|].
      intros; apply Hsafe; right; assumption.
  - exfalso. exact (Hsafe y e (or_introl eq_refl) E).
  - discriminate.
Qed.

Lemma search_branch_safe (fuel : nat) (c : CandidatesMap) (sq : string)
  (rv : bool) (x : ascii) (e : exn) :
  sound c -> In sq squares ->
  search_branch fuel c sq rv x <> Some (Throw e).
Proof.
  intros Hs Hsq Hx. unfold search_branch in Hx.
  destruct (_assign fuel c sq x) as [[[[|]|e0] o]|] eqn:Ea; try discriminate.
  - destruct (assign_sound _ _ _ _ _ Hs Ea) as [Hso _].
    exact (search_store_safe fuel o rv e Hso Hx).
  - apply search_store_false in Hx. discriminate.
  - exact (assign_safe fuel c sq x e0 o (sound_keyed c Hs) Hsq Ea).
Qed.

Lemma in_order {A : Type} (rv : bool) (l : list A) (x : A) :
  In x (if rv then rev l else l) <-> In x l.
Proof. destruct rv; [symmetry; apply in_rev | reflexivity]. Qed.

Lemma NoDup_app_cons_inj {A : Type} (a b a' b' : list A) (x : A) :
  NoDup (a ++ x :: b) -> a ++ x :: b = a' ++ x :: b' -> a = a' /\ b = b'.
Proof.
  revert a'. induction a as [|y a IH]; intros a' Hnd Heq.
  - destruct a' as [|y' a']; simpl in Hnd, Heq.
    + injection Heq as Hb. auto.
    + injection Heq as Hxy Hb. exfalso.
      apply NoDup_cons_iff in Hnd as [Hx _]. apply Hx. rewrite Hb.
      apply in_or_app. right. left. reflexivity.
  - destruct a' as [|y' a']; simpl in Hnd, Heq.
    + injection Heq as Hxy Hb. exfalso.
      apply NoDup_cons_iff in Hnd as [Hx _]. apply Hx. rewrite Hxy.
      apply in_or_app. right. left. reflexivity.
    + injection Heq as Hxy Hb.
      apply NoDup_cons_iff in Hnd as [_ Hnd].
      destruct (IH a' Hnd Hb) as [Ha Hb']. subst. auto.
Qed.

Section Complete.

Variable sol : string -> ascii.
Hypothesis sol_home :
  forall u d, In u units -> In d (Js.split DIGITS) ->
              exists x, In x u /\ sol x = d.
Hypothesis sol_once :
  forall u x y, In u units -> In x u -> In y u -> sol x = sol y -> x = y.

Lemma search_store_complete (fuel : nat) :
  forall c rv r,
    sound c -> agrees sol c ->
    search_store fuel (Some c) rv = Some r ->
    exists c', r = Ret (Some c').
Proof.
  induction fuel as [|fuel IH]; intros c rv r Hs Ha; [discriminate|].
  destruct (search_store_step c Hs)
    as [[Hall ->]|[sq [min_cs [Hsq [Hget [Hlen ->]]]]]].
  - intros H. inversion H. eauto.
  - apply (first_found_hit _ _ (sol sq)).
    + apply in_order. destruct Ha as [_ Hh].
      destruct (Hh sq Hsq) as [cs [Hcs Hin]]. congruence.
    + intros r0 Hr0. unfold search_branch in Hr0.
      destruct (_assign fuel c sq (sol sq)) as [[b o]|] eqn:Ea; [|discriminate].
      pose proof (assign_ok sol sol_home sol_once _ _ _ _ _ Hsq Ha Ea)
        as [-> [Hao _]].
      destruct (assign_sound _ _ _ _ _ Hs Ea) as [Hso _].
      exact (IH o rv r0 Hso Hao Hr0).
    + intros y e _. apply search_branch_safe; assumption.
Qed.

(** When the search forwards and the search backwards end in stores that
    agree on every square, that is the solution. *)
Lemma search_store_unique (n : nat) :
  forall f1 f2 c S1 S2,
    size c < n -> sound c -> agrees sol c ->
    search_store f1 (Some c) false = Some (Ret (Some S1)) ->
    search_store f2 (Some c) true = Some (Ret (Some S2)) ->
    (forall x, In x squares -> Js.get S1 x = Js.get S2 x) ->
    forall x, In x squares -> Js.get S1 x = Some (Js.str (sol x)).
Proof.
  induction n as [|n IH]; intros f1 f2 c S1 S2 Hn Hs Ha H1 H2 Hsame; [lia|].
  destruct f1 as [|f1]; [discriminate|]. destruct f2 as [|f2]; [discriminate|].
  destruct (search_store_step c Hs)
    as [[Hall Hret]|[sq [min_cs [Hsq [Hget [Hlen Hloop]]]]]].
  - rewrite Hret in H1. inversion H1. subst S1. intros x Hx.
    destruct (Hall x Hx) as [d Hd]. rewrite Hd.
    destruct Ha as [_ Hh]. destruct (Hh x Hx) as [cs [Hcs Hin]].
    rewrite Hd in Hcs. inversion Hcs. subst cs.
    destruct Hin as [<-|[]]. reflexivity.
  - rewrite Hloop in H1, H2.
    apply first_found_split in H1 as [pre1 [w1 [post1 [Hvals1 [Hw1 Hpre1]]]]].
    apply first_found_split in H2 as [pre2 [w2 [post2 [Hvals2 [Hw2 Hpre2]]]]].
    (* what the winning value of either loop leaves in the square *)
    assert (Hwin : forall f rv w S,
      search_branch f c sq rv w = Some (Ret (Some S)) ->
      exists o, _assign f c sq w = Some (Ret true, o)
                /\ sound o
                /\ search_store f (Some o) rv = Some (Ret (Some S))
                /\ Js.get S sq = Some (Js.str w)).
    { intros f rv w S Hw. unfold search_branch in Hw.
      destruct (_assign f c sq w) as [[[[|]|e] o]|] eqn:Ea; try discriminate.
      - destruct (assign_sound _ _ _ _ _ Hs Ea) as [Hso [_ Hset]].
        exists o. split; [reflexivity|]. split; [exact Hso|]. split; [exact Hw|].
        destruct (search_store_sound _ _ _ _ Hso Hw) as [[_ [Ht' [Hn' _]]] [Hr' _]].
        exact (single_stays _ _ _ _ Hset Hr' Ht' Hn').
      - apply search_store_false in Hw. discriminate. }
    (* the value of the solution never fails *)
    assert (Hsol : forall f rv, search_branch f c sq rv (sol sq) <> Some (Ret None)).
    { intros f rv Hr0. unfold search_branch in Hr0.
      destruct (_assign f c sq (sol sq)) as [[b o]|] eqn:Ea; [|discriminate].
      pose proof (assign_ok sol sol_home sol_once _ _ _ _ _ Hsq Ha Ea)
        as [-> [Hao _]].
      destruct (assign_sound _ _ _ _ _ Hs Ea) as [Hso _].
      destruct (search_store_complete f o rv _ Hso Hao Hr0) as [c' Hc'].
      discriminate. }
    destruct (Hwin _ _ _ _ Hw1) as [o1 [Ea1 [Hso1 [Hs1 Hg1]]]].
    destruct (Hwin _ _ _ _ Hw2) as [o2 [Ea2 [Hso2 [Hs2 Hg2]]]].
    assert (w2 = w1).
    { rewrite (Hsame sq Hsq), Hg2 in Hg1. inversion Hg1. reflexivity. }
    subst w2.
    assert (Hin : In (sol sq) (Js.split min_cs)).
    { destruct Ha as [_ Hh]. destruct (Hh sq Hsq) as [cs [Hcs Hin]]. congruence. }
    assert (Hnd : NoDup (Js.split min_cs)).
    { destruct Hs as [_ [Ht _]]. exact (proj1 (Ht _ _ Hget)). }
    assert (w1 = sol sq).
    { rewrite Hvals1 in Hin. apply in_app_or in Hin as [Hin|[Hin|Hin]].
      - exfalso. exact (Hsol _ _ (Hpre1 _ Hin)).
      - exact Hin.
      - exfalso. apply (Hsol f2 true), Hpre2.
        assert (Hrev : rev post1 ++ w1 :: rev pre1 = pre2 ++ w1 :: post2).
        { rewrite <- Hvals2, Hvals1, rev_app_distr. simpl.
          rewrite <- app_assoc. reflexivity. }
        assert (Hnd' : NoDup (rev post1 ++ w1 :: rev pre1)).
        { rewrite Hrev, <- Hvals2. apply NoDup_rev. exact Hnd. }
        destruct (NoDup_app_cons_inj _ _ _ _ _ Hnd' Hrev) as [<- _].
        apply in_rev in Hin. exact Hin. }
    subst w1.
    assert (o2 = o1).
    { apply (assign_fuel_mono f1 (Nat.max f1 f2)) in Ea1; [|lia].
      apply (assign_fuel_mono f2 (Nat.max f1 f2)) in Ea2; [|lia].
      congruence. }
    subst o2.
    pose proof (assign_ok sol sol_home sol_once _ _ _ _ _ Hsq Ha Ea1)
      as [_ [Hao _]].
    pose proof (assign_strict _ _ _ _ _ _ _ Ea1 Hget Hlen) as Hsize.
    apply (IH f1 f2 o1 S1 S2); auto. lia.
Qed.

End Complete.

(* ----------------------------------------------------------------- *)
(** ** [solve] decides whether the board can be completed *)

Lemma completes_solution (s board : Board) :
  completes s board ->
  (forall u d, In u units -> In d (Js.split DIGITS) ->
               exists x, In x u /\ board_at s x = d)
  /\ (forall u x y, In u units -> In x u -> In y u ->
                    board_at s x = board_at s y -> x = y).
Proof.
  intros [Hs _]. split; [exact (solved_home s Hs) | exact (solved_once s Hs)].
Qed.

Lemma seed_complete (s : Board) (fuel : nat) (entries : list (string * ascii)) :
  solved_board s = true ->
  forall c r c',
    (forall sq val, In (sq, val) entries ->
                    In sq squares
                    /\ (_in val DIGITS = true -> val = board_at s sq)) ->
    agrees (board_at s) c ->
    for_each (fun c (entry : string * ascii) =>
                let (square, val) := entry in
                if _in val DIGITS then _assign fuel c square val
                else Some (Ret true, c)) entries c = Some (r, c') ->
    r = Ret true /\ agrees (board_at s) c'.
Proof.
  intros Hs. induction entries as [|[sq val] rest IH]; intros c r c' He Hc; simpl.
  - intros H. inversion H. subst. auto.
  - destruct (He sq val (or_introl eq_refl)) as [Hsq Hval].
    assert (Hrest : forall sq val, In (sq, val) rest ->
                      In sq squares
                      /\ (_in val DIGITS = true -> val = board_at s sq))
      by (intros; apply He; right; assumption).
    destruct (_in val DIGITS).
    + rewrite (Hval eq_refl).
      destruct (_assign fuel c sq (board_at s sq)) as [[r1 c1]|] eqn:E;
        [|discriminate].
      apply (assign_ok (board_at s) (solved_home s Hs) (solved_once s Hs)) in E;
        [|exact Hsq|exact Hc].
      destruct E as [-> [Hc1 _]]. apply IH; assumption.
    + apply IH; assumption.
Qed.

Lemma get_candidates_map_complete (s board : Board) (fuel : nat)
  (made : option CandidatesMap) :
  completes s board ->
  _get_candidates_map fuel board = Some (Ret made) ->
  exists c, made = Some c /\ agrees (board_at s) c.
Proof.
  intros [Hs Hkeep] H. pose proof (get_candidates_map_valid _ _ _ H) as Hv.
  rewrite (get_candidates_map_loop fuel board Hv) in H.
  match type of H with
  | match ?f with _ => _ end = _ => destruct f as [[r c1]|] eqn:E; [|discriminate]
  end.
  apply (seed_complete s fuel _ Hs) in E as [-> Ha].
  - inversion H. eauto.
  - intros sq val Hin. destruct (board_entry board sq val Hin) as [Hsq ->].
    split; [exact Hsq|]. intros Hd. symmetry. apply Hkeep; [exact Hsq|].
    intros Hb. rewrite Hb in Hd. apply in_iff in Hd. exact (blank_no_digit Hd).
  - exact (full_store_agrees s Hs).
Qed.

Lemma solve_store_complete (s board : Board) (fuel : nat) (rv : bool)
  (r : solve_result) :
  completes s board ->
  solve_store fuel board rv = Some (Ret r) ->
  exists s', r = Solution s'.
Proof.
  intros Hc. unfold solve_store.
  destruct (validate_board board); [|discriminate].
  match goal with |- (if ?b then _ else _) = _ -> _ => destruct b; [discriminate|] end.
  destruct (_get_candidates_map fuel board) as [[made|e]|] eqn:Em; try discriminate.
  destruct (get_candidates_map_complete _ _ _ _ Hc Em) as [c [-> Ha]].
  destruct (get_candidates_map_sound _ _ _ Em) as [Hs _].
  destruct (completes_solution _ _ Hc) as [Hhome Honce].
  destruct (search_store fuel (Some c) rv) as [r0|] eqn:E; [|discriminate].
  destruct (search_store_complete _ Hhome Honce _ _ _ _ Hs Ha E) as [c' ->].
  intros H. inversion H. eauto.
Qed.

Lemma search_store_total (fuel : nat) (c : CandidatesMap) (rv : bool) :
  keyed c -> size c < fuel ->
  exists r, search_store fuel (Some c) rv = Some r.
Proof.
  intros Hk Hc.
  destruct (search_total fuel [c] 0 c rv eq_refl Hk Hc) as [r [h' [E _]]].
  assert (Hv : valid [c] (VRef 0)) by (simpl; lia).
  pose proof (search_refines fuel [c] (VRef 0) rv Hv) as H.
  rewrite E in H. simpl in H. destruct r as [v|e].
  - destruct H as [_ [_ H]]. eauto.
  - eauto.
Qed.

(** X21: When [solve] returns [false], the board has no completion: no complete
    correct board keeps all its givens. *)
Theorem solve_false_no_solution (fuel : nat) (board : Board) (reverse : bool) :
  solve fuel board reverse = Some (Ret NoSolution) ->
  forall s, ~ completes s board.
Proof.
  rewrite solve_by_value. intros H s Hc.
  destruct (solve_store_complete _ _ _ _ _ Hc H) as [s' Hs']. discriminate.
Qed.

Lemma solve_false_no_solution_witness :
  ~ exists s,
      completes s
        "3.3.2.6..9..3.5..1..18.64....81.29..7.......8..67.82....26.95..8..2.3..9..5.1.3..".
Proof.
  intros [s Hs]. revert s Hs.
  apply (solve_false_no_solution 730 _ false).
  vm_compute. reflexivity.
Defined.

(** X22: On a valid board with 17 givens or more [solve] returns, a solution or
    [false], and raises no exception, whichever way it searches. *)
Theorem solve_total (fuel : nat) (board : Board) (reverse : bool) :
  validate_board board = Ret true ->
  17 <= List.length (givens board) ->
  730 <= fuel ->
  exists r, solve fuel board reverse = Some (Ret r).
Proof.
  intros Hv Hg Hf. rewrite solve_by_value. unfold solve_store.
  rewrite Hv, (nr_givens_valid board Hv).
  destruct (Nat.ltb_spec (List.length (givens board)) MIN_GIVENS) as [Hlt|_];
    [unfold MIN_GIVENS in Hlt; lia|].
  destruct (get_candidates_map_total fuel board Hv) as [made Em]; [lia|].
  rewrite Em. destruct made as [c|].
  - destruct (get_candidates_map_sound _ _ _ Em) as [Hs [Hr _]].
    destruct (search_store_total fuel c reverse) as [r E].
    + exact (sound_keyed c Hs).
    + apply removals_size in Hr. rewrite full_store_size in Hr. lia.
    + rewrite E. destruct r as [[c'|]|e]; eauto.
      exfalso. exact (search_store_safe fuel c reverse e Hs E).
  - destruct fuel as [|fuel]; [lia|]. simpl. eauto.
Qed.

Lemma solve_total_witness : exists r, solve 730 classic true = Some (Ret r).
Proof.
  apply (solve_total 730 classic true).
  - reflexivity.
  - vm_compute. lia.
  - lia.
Defined.

(** X23: When the search forwards and the search backwards return the same
    string, that string is the only completion of the board. *)
Theorem solve_unique (fuel fuel' : nat) (board : Board) (s : string) :
  solve fuel board false = Some (Ret (Solution s)) ->
  solve fuel' board true = Some (Ret (Solution s)) ->
  forall s', completes s' board -> s' = s.
Proof.
  rewrite !solve_by_value. intros H1 H2 s' Hc.
  apply solve_store_solution in H1 as [c1 [S1 [Hc1 [Hs1 HS1]]]].
  apply solve_store_solution in H2 as [c2 [S2 [Hc2 [Hs2 HS2]]]].
  assert (c2 = c1).
  { apply (get_candidates_map_fuel_mono fuel (Nat.max fuel fuel')) in Hc1; [|lia].
    apply (get_candidates_map_fuel_mono fuel' (Nat.max fuel fuel')) in Hc2; [|lia].
    congruence. }
  subst c2.
  destruct (get_candidates_map_sound _ _ _ Hc1) as [Hs _].
  destruct (get_candidates_map_complete _ _ _ _ Hc Hc1) as [c [Heq Ha]].
  inversion Heq. subst c.
  destruct (search_store_sound _ _ _ _ Hs Hs1) as [Hsound1 [_ Hall1]].
  destruct (search_store_sound _ _ _ _ Hs Hs2) as [Hsound2 [_ Hall2]].
  destruct (solved_by_store S1 Hsound1 Hall1) as [_ Hat1].
  destruct (solved_by_store S2 Hsound2 Hall2) as [_ Hat2].
  assert (Hsame : forall x, In x squares -> Js.get S1 x = Js.get S2 x).
  { intros x Hx. rewrite (Hat1 x Hx), (Hat2 x Hx), <- HS1, <- HS2. reflexivity. }
  destruct (completes_solution _ _ Hc) as [Hhome Honce].
  pose proof (search_store_unique _ Hhome Honce (S (size c1)) _ _ _ _ _
                (Nat.lt_succ_diag_r _) Hs Ha Hs1 Hs2 Hsame) as Hsol.
  assert (Hlen : String.length s' = 81) by (exact (solved_length s' (proj1 Hc))).
  rewrite <- (board_of_map s' Hlen), HS1.
  unfold solution_of. rewrite (proj1 Hsound1).
  symmetry. apply (single_fold S1 (board_at s') squares EmptyString Hsol).
Qed.

Lemma solve_unique_witness :
  solve 730 classic false = Some (Ret (Solution classic_solution))
  /\ solve 730 classic true = Some (Ret (Solution classic_solution))
  /\ forall s', completes s' classic -> s' = classic_solution.
Proof.
  assert (H1 : solve 730 classic false = Some (Ret (Solution classic_solution)))
    by (vm_compute; reflexivity).
  assert (H2 : solve 730 classic true = Some (Ret (Solution classic_solution)))
    by (vm_compute; reflexivity).
  split; [exact H1|]. split; [exact H2|].
  exact (solve_unique 730 730 classic classic_solution H1 H2).
Defined.

(* ----------------------------------------------------------------- *)
(** ** Propagation, seeding and search on their own *)

(** X12: A call of [_eliminate] that returns the store has removed the value
    from the square; all it did was remove candidates, and it left no
    square without candidates. *)
Theorem eliminate_removes_value (fuel : nat) (c : CandidatesMap)
  (square : string) (val : ascii) (c' : CandidatesMap) :
  tidy c ->
  _eliminate fuel c square val = Some (Ret true, c') ->
  removals c c'
  /\ (forall cs', Js.get c' square = Some cs' -> ~ In val (Js.split cs'))
  /\ (nonempty c -> nonempty c').
Proof.
  intros Ht H. destruct (eliminate_advances _ _ _ _ _ Ht H) as [[Hr [Hn _]] Hg].
  auto.
Qed.

Lemma eliminate_removes_value_witness :
  exists c',
    _eliminate 5 full_store "A1" "3" = Some (Ret true, c')
    /\ forall cs', Js.get c' "A1" = Some cs' -> ~ In "3"%char (Js.split cs').
Proof.
  assert (E : {c' | _eliminate 5 full_store "A1" "3" = Some (Ret true, c')})
    by (eexists; vm_compute; reflexivity).
  destruct E as [c' E]. exists c'. split; [exact E|].
  exact (proj1 (proj2 (eliminate_removes_value 5 full_store "A1" "3" c'
                         full_store_tidy E))).
Defined.

(** X13: A call of [_assign] that returns the store, made on a sound store,
    leaves the square with the value as its only candidate and the value
    with none of its peers, and the store sound again. *)
Theorem assign_sets_value (fuel : nat) (c : CandidatesMap)
  (square : string) (val : ascii) (c' : CandidatesMap) :
  sound c ->
  _assign fuel c square val = Some (Ret true, c') ->
  Js.get c' square = Some (Js.str val)
  /\ lacks c' square val
  /\ removals c c'
  /\ sound c'.
Proof.
  intros Hs H. destruct (assign_sound _ _ _ _ _ Hs H) as [Hs' [Hr Hset]].
  split; [exact Hset|]. split; [|auto].
  destruct Hs' as [_ [_ [_ Hp]]]. exact (Hp _ _ Hset).
Qed.

Lemma assign_sets_value_witness :
  exists c',
    _assign 20 full_store "E5" "7" = Some (Ret true, c')
    /\ Js.get c' "E5" = Some "7"
    /\ lacks c' "E5" "7".
Proof.
  assert (E : {c' | _assign 20 full_store "E5" "7" = Some (Ret true, c')})
    by (eexists; vm_compute; reflexivity).
  destruct E as [c' E]. exists c'. split; [exact E|].
  pose proof (assign_sets_value 20 full_store "E5" "7" c' full_store_sound E)
    as [H1 [H2 _]].
  split; [exact H1 | exact H2].
Defined.

(** X14: On a store that has an entry for each of the 81 squares, [_eliminate]
    and [_assign] called on a square raise no exception. *)
Theorem propagation_never_throws (fuel : nat) (c : CandidatesMap)
  (square : string) (val : ascii) (e : exn) (c' : CandidatesMap) :
  keyed c -> In square squares ->
  _eliminate fuel c square val <> Some (Throw e, c')
  /\ _assign fuel c square val <> Some (Throw e, c').
Proof.
  intros Hk Hsq. split; [apply eliminate_safe | apply assign_safe]; assumption.
Qed.

Lemma propagation_never_throws_witness :
  _eliminate 730 full_store "A1" "3" <> Some (Throw TypeError, full_store)
  /\ _assign 730 full_store "A1" "3" <> Some (Throw TypeError, full_store).
Proof.
  apply (propagation_never_throws 730 full_store "A1" "3").
  - exact full_store_keyed.
  - exact first_square.
Defined.

(** X15: Propagation never loses a solution: on a store whose candidates still
    hold every digit of a solved board, eliminating another digit than the
    board's from a square, or assigning the board's digit to it, returns the
    store, and the store still holds every digit of the board. *)
Theorem propagation_keeps_solution (s : Board) (fuel : nat) (c : CandidatesMap)
  (square : string) :
  solved_board s = true ->
  agrees (board_at s) c ->
  In square squares ->
  (forall val r c',
      val <> board_at s square ->
      _eliminate fuel c square val = Some (r, c') ->
      r = Ret true /\ agrees (board_at s) c')
  /\ (forall r c',
        _assign fuel c square (board_at s square) = Some (r, c') ->
        r = Ret true /\ agrees (board_at s) c').
Proof.
  intros Hs Ha Hsq. split.
  - intros val r c' Hne H.
    destruct (eliminate_ok (board_at s) (solved_home s Hs) (solved_once s Hs)
                _ _ _ _ _ _ Hsq Hne Ha H) as [Hr [Ha' _]]. auto.
  - intros r c' H.
    destruct (assign_ok (board_at s) (solved_home s Hs) (solved_once s Hs)
                _ _ _ _ _ Hsq Ha H) as [Hr [Ha' _]]. auto.
Qed.

Lemma propagation_keeps_solution_witness :
  solved_board classic_solution = true
  /\ forall r c',
       _assign 730 full_store "A1" (board_at classic_solution "A1") = Some (r, c') ->
       r = Ret true /\ agrees (board_at classic_solution) c'.
Proof.
  assert (Hs : solved_board classic_solution = true) by (vm_compute; reflexivity).
  split; [exact Hs|].
  exact (proj2 (propagation_keeps_solution classic_solution 730 full_store "A1"
                  Hs (full_store_agrees classic_solution Hs) first_square)).
Defined.

(** X16: The store [_get_candidates_map] returns has the 81 squares as its keys
    and non-empty repetition-free strings of digits as candidates; every
    given of the board is the only candidate of its square and a candidate
    of none of its peers. *)
Theorem candidates_map_seeded (fuel : nat) (board : Board) (c : CandidatesMap) :
  _get_candidates_map fuel board = Some (Ret (Some c)) ->
  Js.keys c = squares
  /\ (forall sq cs, Js.get c sq = Some cs ->
                    cs <> EmptyString
                    /\ NoDup (Js.split cs)
                    /\ incl (Js.split cs) (Js.split DIGITS))
  /\ (forall sq, In sq squares -> board_at board sq <> BLANK_CHAR ->
                 Js.get c sq = Some (Js.str (board_at board sq))
                 /\ lacks c sq (board_at board sq)).
Proof.
  intros H. destruct (get_candidates_map_sound _ _ _ H) as [Hs [_ Hg]].
  destruct Hs as [Hk [Ht [Hn Hp]]]. split; [exact Hk|]. split.
  - intros sq cs Hget. split; [exact (Hn _ _ Hget) | exact (Ht _ _ Hget)].
  - intros sq Hsq Hne. pose proof (Hg sq Hsq Hne) as Hget.
    split; [exact Hget | exact (Hp _ _ Hget)].
Qed.

Lemma candidates_map_seeded_witness :
  exists c,
    _get_candidates_map 730 classic = Some (Ret (Some c))
    /\ Js.get c "A3" = Some "3"
    /\ lacks c "A3" "3".
Proof.
  assert (E : {c | _get_candidates_map 730 classic = Some (Ret (Some c))})
    by (eexists; vm_compute; reflexivity).
  destruct E as [c E]. exists c. split; [exact E|].
  destruct (candidates_map_seeded 730 classic c E) as [_ [_ H]].
  apply (H "A3").
  - apply includes_iff. vm_compute. reflexivity.
  - vm_compute. discriminate.
Defined.

(** X17: When [_get_candidates_map] returns [false], the givens contradict each
    other: the board has no completion. *)
Theorem candidates_map_false (fuel : nat) (board : Board) :
  _get_candidates_map fuel board = Some (Ret None) ->
  forall s, ~ completes s board.
Proof.
  intros H s Hc.
  destruct (get_candidates_map_complete _ _ _ _ Hc H) as [c [Heq _]].
  discriminate.
Qed.

Lemma candidates_map_false_witness :
  ~ exists s,
      completes s
        "3.3.2.6..9..3.5..1..18.64....81.29..7.......8..67.82....26.95..8..2.3..9..5.1.3..".
Proof.
  intros [s Hs]. revert s Hs.
  apply (candidates_map_false 730). vm_compute. reflexivity.
Defined.

(** X18: A store [_search] returns a reference to has exactly one candidate in
    every square, no two peers with the same one, and was reached from the
    store the search was given by removing candidates. *)
Theorem search_result_solved (fuel : nat) (h : heap) (l : nat)
  (c : CandidatesMap) (reverse : bool) (l' : nat) (h' : heap) :
  nth_error h l = Some c ->
  sound c ->
  _search fuel h (VRef l) reverse = Some (Ret (VRef l'), h') ->
  exists c',
    nth_error h' l' = Some c'
    /\ removals c c'
    /\ (forall sq, In sq squares -> exists d, Js.get c' sq = Some (Js.str d))
    /\ propagated c'.
Proof.
  intros Hl Hs H.
  assert (Hv : valid h (VRef l)).
  { simpl. apply nth_error_Some. congruence. }
  pose proof (search_refines fuel h (VRef l) reverse Hv) as Href.
  rewrite H in Href. simpl in Href. rewrite Hl in Href.
  destruct Href as [_ [Hl' Href]].
  destruct (nth_error h' l') as [c'|] eqn:E.
  2:{ exfalso. apply nth_error_None in E. lia. }
  destruct (search_store_sound _ _ _ _ Hs Href) as [[_ [_ [_ Hp]]] [Hr Hall]].
  exists c'. auto.
Qed.

Lemma search_result_solved_witness :
  exists l' h' c',
    _search 730 [full_store] (VRef 0) false = Some (Ret (VRef l'), h')
    /\ nth_error h' l' = Some c'
    /\ propagated c'.
Proof.
  assert (E : {l' & {h' | _search 730 [full_store] (VRef 0) false
                          = Some (Ret (VRef l'), h')}})
    by (eexists; eexists; vm_compute; reflexivity).
  destruct E as [l' [h' E]].
  destruct (search_result_solved 730 [full_store] 0 full_store false l' h'
              eq_refl full_store_sound E) as [c' [H1 [_ [_ H2]]]].
  exists l', h', c'. auto.
Defined.

(** X19: [_search] raises no exception on a sound store. *)
Theorem search_never_throws (fuel : nat) (h : heap) (l : nat)
  (c : CandidatesMap) (reverse : bool) (e : exn) (h' : heap) :
  nth_error h l = Some c ->
  sound c ->
  _search fuel h (VRef l) reverse <> Some (Throw e, h').
Proof.
  intros Hl Hs H.
  assert (Hv : valid h (VRef l)).
  { simpl. apply nth_error_Some. congruence. }
  pose proof (search_refines fuel h (VRef l) reverse Hv) as Href.
  rewrite H in Href. simpl in Href. rewrite Hl in Href.
  exact (search_store_safe fuel c reverse e Hs Href).
Qed.

Lemma search_never_throws_witness :
  _search 730 [full_store] (VRef 0) true <> Some (Throw TypeError, [full_store]).
Proof.
  exact (search_never_throws 730 [full_store] 0 full_store true TypeError
           [full_store] eq_refl full_store_sound).
Defined.

(* ----------------------------------------------------------------- *)
(** ** The generator raises no exception *)

Lemma place_all_places {A : Type} (truthy : A -> bool) (fuel : nat)
  (rnd : random_source) (n : nat) (seq : list A) :
  (forall x, In x seq -> truthy x = true) ->
  forall shuffled calls result calls',
    place_all truthy fuel rnd n seq shuffled calls = Some (Ret result, calls') ->
    List.length shuffled = n ->
    (forall x, In x (filled shuffled) -> truthy x = true) ->
    List.length result = n
    /\ Permutation (filled result) (filled shuffled ++ seq).
Proof.
  induction seq as [|x rest IH]; intros Hseq shuffled calls result calls'; simpl.
  - intros H Hlen _. inversion H. subst. rewrite app_nil_r. auto.
  - destruct (_rand_range rnd calls n 0) as [[ti|e] calls1] eqn:Er; [|discriminate].
    destruct (probe truthy fuel shuffled n ti) as [t|] eqn:Ep; [|discriminate].
    intros H Hlen Hfilled.
    apply rand_range_lt in Er.
    destruct (probe_free _ _ _ _ _ _ Ep Er) as [Ht Hfree].
    assert (Hslot : nth_error shuffled t = Some None).
    { destruct (nth_error shuffled t) as [[y|]|] eqn:E.
      - simpl in Hfree. rewrite (Hfilled y) in Hfree; [discriminate|].
        eapply filled_slot; eauto.
      - reflexivity.
      - apply nth_error_None in E. lia. }
    pose proof (filled_set_nth shuffled t x Hslot) as Hperm.
    apply IH in H.
    + destruct H as [Hl Hp]. split; [exact Hl|].
      rewrite Hp, Hperm. simpl. apply Permutation_middle.
    + intros; apply Hseq; right; assumption.
    + rewrite set_slot_length; lia.
    + intros y Hy. apply (Permutation_in _ Hperm) in Hy.
      destruct Hy as [<-|Hy]; [apply Hseq; left; reflexivity | auto].
Qed.

Lemma place_all_safe {A : Type} (truthy : A -> bool) (fuel : nat)
  (rnd : random_source) (n : nat) (seq : list A) :
  n <> 0 ->
  forall shuffled calls e calls',
    place_all truthy fuel rnd n seq shuffled calls <> Some (Throw e, calls').
Proof.
  intros Hn. induction seq as [|x rest IH]; intros shuffled calls e calls'; simpl.
  - discriminate.
  - destruct (rand_range_draws rnd calls n 0 Hn) as [ti [-> _]].
    destruct (probe truthy fuel shuffled n ti); [apply IH | discriminate].
Qed.

(** Whenever [_shuffle] returns on truthy elements, it returns a
    permutation of them. *)
Lemma shuffle_places {A : Type} (truthy : A -> bool) (fuel : nat)
  (rnd : random_source) (seq : list A) (calls : nat)
  (r : outcome (list (option A))) (calls' : nat) :
  (forall x, In x seq -> truthy x = true) ->
  _shuffle truthy fuel rnd seq calls = Some (r, calls') ->
  exists l, r = Ret (map Some l) /\ Permutation l seq.
Proof.
  intros Hseq. unfold _shuffle. intros H.
  assert (Hnone : forall k, filled (repeat (@None A) k) = []).
  { induction k as [|k IHk]; [reflexivity | exact IHk]. }
  destruct r as [result|e].
  - apply (place_all_places truthy fuel rnd _ seq Hseq) in H.
    + destruct H as [Hl Hp]. rewrite Hnone in Hp. simpl in Hp.
      exists (filled result). split; [|exact Hp]. f_equal.
      apply filled_full. rewrite Hl. apply Permutation_length, Hp.
    + apply repeat_length.
    + rewrite Hnone. intros x [].
  - exfalso. destruct seq as [|x rest]; [simpl in H; discriminate|].
    revert H. apply place_all_safe. simpl. discriminate.
Qed.

Lemma single_candidates_defined (c : CandidatesMap) (sqs : list string) :
  (forall sq, In sq sqs -> exists cs, Js.get c sq = Some cs) ->
  exists singles, single_candidates c sqs = Some singles.
Proof.
  induction sqs as [|sq rest IH]; intros H; simpl; [eauto|].
  destruct (H sq (or_introl eq_refl)) as [cs ->].
  destruct IH as [ss ->]; [intros; apply H; right; assumption|]. eauto.
Qed.

Lemma board_of_defined (c : CandidatesMap) (sqs : list string) (i : nat) :
  (forall sq, In sq sqs -> exists cs, Js.get c sq = Some cs) ->
  exists r, board_of c sqs i = Some r.
Proof.
  revert i. induction sqs as [|sq rest IH]; intros i H; simpl; [eauto|].
  destruct (H sq (or_introl eq_refl)) as [cs ->].
  destruct (IH (S i)) as [[b idxs] ->]; [intros; apply H; right; assumption|].
  eauto.
Qed.

Lemma board_of_shape (c : CandidatesMap) (sqs : list string) (i : nat)
  (board : string) (givens_idxs : list nat) :
  tidy c ->
  board_of c sqs i = Some (board, givens_idxs) ->
  String.length board = List.length sqs
  /\ forall ch, In ch (Js.split board) ->
                In ch (Js.split DIGITS) \/ ch = BLANK_CHAR.
Proof.
  intros Ht. revert i board givens_idxs.
  induction sqs as [|sq rest IH]; intros i board givens_idxs; simpl.
  - intros H. inversion H. subst. simpl. split; [reflexivity | intros ch []].
  - destruct (Js.get c sq) as [cs|] eqn:Hget; [|discriminate].
    destruct (board_of c rest (S i)) as [[b idxs]|] eqn:E; [|discriminate].
    destruct (IH _ _ _ E) as [Hlen Hch].
    destruct (Nat.eqb_spec (String.length cs) 1) as [Hone|_].
    + destruct cs as [|ch [|? ?]]; try discriminate.
      intros H. inversion H. subst. clear H.
      split; [simpl; congruence|]. intros x Hx.
      change (In x (ch :: Js.split b)) in Hx.
      destruct Hx as [<-|Hx]; [|exact (Hch x Hx)].
      left. destruct (Ht _ _ Hget) as [_ Hincl]. apply Hincl. left. reflexivity.
    + intros H. inversion H. subst. clear H.
      split; [simpl; congruence|]. intros x Hx.
      change (In x (BLANK_CHAR :: Js.split b)) in Hx.
      destruct Hx as [<-|Hx]; [right; reflexivity | exact (Hch x Hx)].
Qed.

Lemma firstn_incl {A : Type} (n : nat) (l : list A) (x : A) :
  In x (firstn n l) -> In x l.
Proof.
  revert l. induction n as [|n IH]; intros [|y l]; simpl; try tauto.
  intros [H|H]; auto.
Qed.

Lemma skipn_incl {A : Type} (n : nat) (l : list A) (x : A) :
  In x (skipn n l) -> In x l.
Proof.
  revert l. induction n as [|n IH]; intros [|y l]; simpl; try tauto.
  intros H. right. auto.
Qed.

Lemma blank_out_shape (board : string) (t : nat) :
  t < String.length board ->
  String.length (blank_out board (Some t)) = String.length board
  /\ forall ch, In ch (Js.split (blank_out board (Some t))) ->
                In ch (Js.split board) \/ ch = BLANK_CHAR.
Proof.
  intros Ht. unfold blank_out. split.
  - rewrite <- !length_split, split_append. cbn [Js.split list_ascii_of_string].
    fold (Js.split (drop (t + 1) board)).
    rewrite length_app, split_take, length_firstn. cbn [List.length].
    rewrite split_drop, length_skipn, length_split. lia.
  - intros ch. rewrite split_append. cbn [Js.split list_ascii_of_string].
    fold (Js.split (drop (t + 1) board)).
    rewrite split_take, split_drop. intros H.
    apply in_app_or in H as [H|[H|H]].
    + left. eapply firstn_incl; eauto.
    + right. auto.
    + left. eapply skipn_incl; eauto.
Qed.

Lemma trim_shape (count : nat) :
  forall (l : list nat) (board : string),
    (forall t, In t l -> t < String.length board) ->
    count <= List.length l ->
    String.length (trim count (map Some l) board) = String.length board
    /\ forall ch, In ch (Js.split (trim count (map Some l) board)) ->
                  In ch (Js.split board) \/ ch = BLANK_CHAR.
Proof.
  induction count as [|count IH]; intros l board Hl Hc; cbn [trim].
  - auto.
  - destruct l as [|t rest]; simpl in Hc; [lia|]. cbn [map].
    destruct (blank_out_shape board t (Hl t (or_introl eq_refl))) as [Hlen Hch].
    destruct (IH rest (blank_out board (Some t))) as [Hlen' Hch'].
    + intros t' Ht'. rewrite Hlen. apply Hl. right. exact Ht'.
    + lia.
    + split; [congruence|]. intros ch Hin.
      destruct (Hch' ch Hin) as [H|H]; auto.
Qed.

Lemma solve_safe (fuel : nat) (board : Board) (reverse : bool) (e : exn) :
  validate_board board = Ret true ->
  17 <= List.length (givens board) ->
  solve fuel board reverse <> Some (Throw e).
Proof.
  intros Hv Hg. rewrite solve_by_value. unfold solve_store.
  rewrite Hv, (nr_givens_valid board Hv).
  destruct (Nat.ltb_spec (List.length (givens board)) MIN_GIVENS) as [Hlt|_];
    [unfold MIN_GIVENS in Hlt; lia|].
  destruct (_get_candidates_map fuel board) as [[[c|]|e0]|] eqn:Em;
    try discriminate.
  - destruct (get_candidates_map_sound _ _ _ Em) as [Hs _].
    destruct (search_store fuel (Some c) reverse) as [[[c'|]|e1]|] eqn:E;
      try discriminate.
    exfalso. exact (search_store_safe fuel c reverse e1 Hs E).
  - destruct fuel; simpl; discriminate.
  - exfalso. exact (get_candidates_map_safe fuel board e0 Hv Em).
Qed.

Lemma blank_board_seeded (fuel : nat) :
  _get_candidates_map fuel BLANK_BOARD = Some (Ret (Some full_store)).
Proof. vm_compute. reflexivity. Qed.

Lemma squares_truthy (s : string) : In s squares -> truthy_string s = true.
Proof.
  intros H.
  assert (Hall : forallb truthy_string squares = true) by (vm_compute; reflexivity).
  rewrite forallb_forall in Hall. auto.
Qed.

Lemma walk_safe (fuel : nat) (rnd : random_source) (g : nat)
  (slots : list (option string)) :
  17 <= g ->
  forall c calls e calls',
    sound c ->
    (forall slot, In slot slots -> exists s, slot = Some s /\ In s squares) ->
    walk fuel rnd g slots c calls <> Some (Throw e, calls').
Proof.
  intros Hg. induction slots as [|slot rest IH]; intros c calls e calls' Hs Hslots;
    cbn [walk]; [discriminate|].
  assert (Hrest : forall slot, In slot rest -> exists s, slot = Some s /\ In s squares)
    by (intros; apply Hslots; right; assumption).
  destruct (Hslots slot (or_introl eq_refl)) as [sq [-> Hsq]].
  pose proof (sound_keyed c Hs) as Hk.
  destruct (keyed_defined c sq Hk Hsq) as [cs Hget]. rewrite Hget.
  assert (Hne : String.length cs <> 0).
  { destruct Hs as [_ [_ [Hn _]]]. pose proof (Hn _ _ Hget).
    destruct cs; simpl; congruence. }
  destruct (rand_range_draws rnd calls (String.length cs) 0 Hne) as [idx [-> Hidx]].
  destruct (nth_error (Js.split cs) idx) as [rand_candidate|] eqn:En.
  2:{ exfalso. apply nth_error_None in En. rewrite length_split in En. lia. }
  destruct (_assign fuel c sq rand_candidate) as [[[[|]|e0] c1]|] eqn:Ea;
    try discriminate.
  2:{ exfalso. exact (assign_safe fuel c sq rand_candidate e0 c1 Hk Hsq Ea). }
  destruct (assign_sound _ _ _ _ _ Hs Ea) as [Hs1 _].
  pose proof (sound_keyed c1 Hs1) as Hk1.
  pose proof Hs1 as [_ [Ht1 _]].
  destruct (single_candidates_defined c1 squares (fun sq => keyed_defined c1 sq Hk1))
    as [singles Es].
  rewrite Es.
  destruct ((g <=? List.length singles)
            && (8 <=? List.length (_strip_dups singles))) eqn:Econd;
    [|apply IH; assumption].
  apply andb_true_iff in Econd as [Eg _]. apply Nat.leb_le in Eg.
  destruct (board_of_defined c1 squares 0 (fun sq => keyed_defined c1 sq Hk1))
    as [[b idxs] Eb].
  rewrite Eb.
  rewrite (singles_count _ _ _ _ _ _ Es Eb) in Eg.
  destruct (board_of_givens _ _ _ _ _ Ht1 Eb) as [Hlen [Hnd Hidxs]].
  destruct (board_of_shape _ _ _ _ _ Ht1 Eb) as [Hb81 Hbch].
  rewrite squares_length in Hb81.
  destruct (Nat.ltb_spec g (List.length idxs)) as [Hlt|Hge].
  - destruct (_shuffle (fun _ : nat => true) fuel rnd idxs (S calls))
      as [[r calls2]|] eqn:Esh; [|discriminate].
    apply (shuffle_places (fun _ : nat => true)) in Esh as [l [-> Hperm]];
      [|reflexivity].
    assert (Hin : forall t, In t l ->
              exists ch, nth_error (Js.split b) t = Some ch /\ ch <> BLANK_CHAR).
    { intros t Hin. apply (Permutation_in _ Hperm) in Hin.
      destruct (Hidxs t Hin) as [_ H0]. rewrite Nat.sub_0_r in H0. exact H0. }
    assert (Ht : List.length (givens (trim (List.length idxs - g) (map Some l) b))
                 + (List.length idxs - g) = List.length (givens b)).
    { apply trim_givens.
      - eapply Permutation_NoDup; [apply Permutation_sym; exact Hperm | exact Hnd].
      - exact Hin.
      - rewrite (Permutation_length Hperm). lia. }
    destruct (trim_shape (List.length idxs - g) l b) as [Hl81 Hch].
    { intros t Ht0. destruct (Hin t Ht0) as [ch [Hn _]].
      rewrite <- length_split. apply nth_error_Some. congruence. }
    { rewrite (Permutation_length Hperm). lia. }
    destruct (solve fuel (trim (List.length idxs - g) (map Some l) b) false)
      as [[[|[|a s]]|e0]|] eqn:Eso; try discriminate;
      try (apply IH; assumption).
    exfalso. revert Eso. apply solve_safe; [|lia].
    apply validate_board_accepts; [congruence|].
    intros ch Hc. destruct (Hch ch Hc) as [H|H]; auto.
  - destruct (solve fuel b false)
      as [[[|[|a s]]|e0]|] eqn:Eso; try discriminate;
      try (apply IH; assumption).
    exfalso. revert Eso. apply solve_safe; [|lia].
    apply validate_board_accepts; assumption.
Qed.

(** X24: the only exception [generate] raises is the [RangeError] of a
    call stack exhausted by its retries: on a stack with room it raises
    none, neither an error code nor a [TypeError], whatever the difficulty
    and the draws. *)
Theorem generate_throws_only (stack fuel : nat) (rnd : random_source)
  (difficulty : Difficulty) (unique : bool) (calls : nat)
  (e : exn) (calls' : nat) :
  generate stack fuel rnd difficulty unique calls = Some (Throw e, calls') ->
  e = RangeError.
Proof.
  revert unique calls. induction stack as [|stack IH]; intros unique calls;
    cbn [generate].
  { intros H. inversion H. reflexivity. }
  rewrite blank_board_seeded.
  destruct (_shuffle truthy_string fuel rnd squares calls)
    as [[r calls1]|] eqn:Esh; [|discriminate].
  apply (shuffle_places truthy_string) in Esh as [l [-> Hperm]];
    [|exact squares_truthy].
  destruct (walk fuel rnd _ (map Some l) full_store calls1)
    as [[[[b|]|e0] calls2]|] eqn:Ew; try discriminate.
  - apply IH.
  - exfalso. revert Ew. apply walk_safe.
    + rewrite force_range_clamp. unfold clamp. lia.
    + exact full_store_sound.
    + intros slot Hin. apply in_map_iff in Hin as [s [<- Hs]].
      exists s. split; [reflexivity|]. exact (Permutation_in _ Hperm Hs).
Qed.

Lemma generate_throws_only_witness :
  exists e calls',
    generate 3 730 zero_draws EASY true 0 = Some (Throw e, calls')
    /\ e = RangeError.
Proof.
  exists RangeError, 285. split; [vm_compute; reflexivity|].
  apply (generate_throws_only 3 730 zero_draws EASY true 0 RangeError 285).
  vm_compute. reflexivity.
Defined.

(** X25: A board [generate] returns can be completed: some complete correct
    board keeps all its givens. *)
Theorem generate_solvable (stack fuel : nat) (rnd : random_source)
  (difficulty : Difficulty) (unique : bool) (calls : nat)
  (board : Board) (calls' : nat) :
  generate stack fuel rnd difficulty unique calls = Some (Ret board, calls') ->
  exists s, completes s board.
Proof.
  intros H. apply generate_returned in H as [_ [fuel' [a [s Hs]]]].
  exists (String a s). rewrite solve_by_value in Hs.
  exact (solve_store_completes _ _ _ _ Hs).
Qed.

Lemma generate_solvable_witness :
  exists s,
    completes s
      "6.......3..2.......4..3....2..3.......7..5.......1..9....8..6..5....9..7....5....".
Proof.
  apply (generate_solvable 50 50 sample_draws INHUMAN true 0 _ 98).
  vm_compute. reflexivity.
Defined.

(* ----------------------------------------------------------------- *)
(** ** The exceptions of seeding and solving *)

(** X26: [_get_candidates_map] throws what [validate_board] throws and
    nothing else: once the board is validated, the size check of
    [_get_square_vals_map] cannot fail and the propagation finds an entry
    wherever it looks. *)
Theorem candidates_map_errors (fuel : nat) (board : Board) :
  (forall e, validate_board board = Throw e ->
             _get_candidates_map fuel board = Some (Throw e))
  /\ (forall e, _get_candidates_map fuel board = Some (Throw e) ->
                validate_board board = Throw e).
Proof.
  split.
  - intros e H. unfold _get_candidates_map. rewrite H. reflexivity.
  - intros e H. destruct (validate_board board) as [b|e0] eqn:Hv.
    + exfalso. pose proof (validate_board_ok _ _ Hv) as [-> _].
      exact (get_candidates_map_safe fuel board e Hv H).
    + unfold _get_candidates_map in H. rewrite Hv in H. congruence.
Qed.

(** X27: the only exceptions of [solve] are those of [validate_board] and,
    on a valid board with fewer than 17 givens,
    [ERR_GIVENS_SIZE_INSUFFICIENT]; seeding and search add none. *)
Theorem solve_throws_only (fuel : nat) (board : Board) (reverse : bool) (e : exn) :
  solve fuel board reverse = Some (Throw e) ->
  validate_board board = Throw e
  \/ (validate_board board = Ret true
      /\ List.length (givens board) < 17
      /\ e = Error ERR_GIVENS_SIZE_INSUFFICIENT).
Proof.
  intros H. destruct (validate_board board) as [b|e0] eqn:Hv.
  - right. pose proof (validate_board_ok _ _ Hv) as [-> _].
    split; [reflexivity|].
    destruct (Nat.lt_ge_cases (List.length (givens board)) 17) as [Hlt|Hge].
    + split; [exact Hlt|].
      unfold solve in H. rewrite Hv, (nr_givens_valid board Hv) in H.
      apply Nat.ltb_lt in Hlt. unfold MIN_GIVENS in H. rewrite Hlt in H.
      congruence.
    + exfalso. exact (solve_safe fuel board reverse e Hv Hge H).
  - left. unfold solve in H. rewrite Hv in H. congruence.
Qed.

Lemma solve_throws_only_witness :
  validate_board "1234567891234567................................................................."
  = Throw (Error ERR_GIVENS_SIZE_INSUFFICIENT)
  \/ (validate_board "1234567891234567................................................................."
      = Ret true
      /\ List.length (givens "1234567891234567.................................................................")
         < 17
      /\ Error ERR_GIVENS_SIZE_INSUFFICIENT = Error ERR_GIVENS_SIZE_INSUFFICIENT).
Proof.
  apply (solve_throws_only 100 _ false). vm_compute. reflexivity.
Defined.

(* ----------------------------------------------------------------- *)
(** ** Runs of the generator that never return *)

Lemma probe_fuel_mono {A : Type} (truthy : A -> bool) (fuel fuel' : nat)
  (shuffled : list (option A)) (n : nat) :
  fuel <= fuel' ->
  forall ti t,
    probe truthy fuel shuffled n ti = Some t ->
    probe truthy fuel' shuffled n ti = Some t.
Proof.
  revert fuel'. induction fuel as [|fuel IH]; intros fuel' Hle ti t; simpl;
    [discriminate|].
  destruct fuel' as [|fuel']; [lia|]. simpl.
  destruct (occupied truthy (nth_error shuffled ti)); [|auto].
  apply IH. lia.
Qed.

Lemma place_all_fuel_mono {A : Type} (truthy : A -> bool) (fuel fuel' : nat)
  (rnd : random_source) (n : nat) (seq : list A) :
  fuel <= fuel' ->
  forall shuffled calls r,
    place_all truthy fuel rnd n seq shuffled calls = Some r ->
    place_all truthy fuel' rnd n seq shuffled calls = Some r.
Proof.
  intros Hle. induction seq as [|x rest IH]; intros shuffled calls r; simpl;
    [auto|].
  destruct (_rand_range rnd calls n 0) as [[ti|e] calls1]; [|auto].
  destruct (probe truthy fuel shuffled n ti) as [t|] eqn:Ep; [|discriminate].
  rewrite (probe_fuel_mono truthy fuel fuel' shuffled n Hle ti t Ep).
  apply IH.
Qed.

Lemma shuffle_fuel_mono {A : Type} (truthy : A -> bool) (fuel fuel' : nat)
  (rnd : random_source) (seq : list A) (calls : nat)
  (r : outcome (list (option A)) * nat) :
  fuel <= fuel' ->
  _shuffle truthy fuel rnd seq calls = Some r ->
  _shuffle truthy fuel' rnd seq calls = Some r.
Proof. intros Hle. unfold _shuffle. apply place_all_fuel_mono. exact Hle. Qed.

Lemma walk_fuel_mono (fuel fuel' : nat) (rnd : random_source) (g : nat)
  (slots : list (option string)) :
  fuel <= fuel' ->
  forall c calls r,
    walk fuel rnd g slots c calls = Some r ->
    walk fuel' rnd g slots c calls = Some r.
Proof.
  intros Hle. induction slots as [|slot rest IH]; intros c calls r;
    cbn [walk]; [auto|].
  destruct (Js.get c _) as [cs|]; [|auto].
  destruct (_rand_range rnd calls (String.length cs) 0) as [[idx|e] calls1];
    [|auto].
  destruct (nth_error (Js.split cs) idx) as [rand_candidate|]; [|auto].
  destruct (_assign fuel c _ rand_candidate) as [[b c1]|] eqn:Ea; [|discriminate].
  rewrite (assign_fuel_mono _ _ _ _ _ _ Hle Ea).
  destruct b as [[|]|e]; try (intros H; exact H).
  destruct (single_candidates c1 squares) as [singles|]; [|auto].
  destruct ((g <=? List.length singles)
            && (8 <=? List.length (_strip_dups singles))); [|apply IH].
  destruct (board_of c1 squares 0) as [[b idxs]|]; [|auto].
  destruct (g <? List.length idxs).
  - destruct (_shuffle (fun _ : nat => true) fuel rnd idxs calls1)
      as [[sh calls2]|] eqn:Esh; [|discriminate].
    rewrite (shuffle_fuel_mono _ _ _ _ _ _ _ Hle Esh).
    destruct sh as [shuffled|e]; [|auto].
    destruct (solve fuel (trim (List.length idxs - g) shuffled b) false)
      as [so|] eqn:Eso; [|discriminate].
    rewrite (solve_fuel_mono _ _ _ _ _ Hle Eso).
    destruct so as [[|[|a s]]|e]; try (intros H; exact H); apply IH.
  - destruct (solve fuel b false) as [so|] eqn:Eso; [|discriminate].
    rewrite (solve_fuel_mono _ _ _ _ _ Hle Eso).
    destruct so as [[|[|a s]]|e]; try (intros H; exact H); apply IH.
Qed.

(** With every draw 0 the shuffle leaves the squares in order, after 81
    draws. *)
Lemma zero_shuffle (fuel calls : nat) :
  81 <= fuel ->
  _shuffle truthy_string fuel zero_draws squares calls
  = Some (Ret (map Some squares), 81 + calls).
Proof.
  intros Hf. apply (shuffle_fuel_mono truthy_string 81 fuel); [exact Hf|].
  vm_compute. reflexivity.
Qed.

(** And the walk takes the first candidate of every square: the fourteenth
    assignment contradicts the others, for every difficulty. *)
Lemma zero_walk (fuel : nat) (difficulty : Difficulty) (calls : nat) :
  730 <= fuel ->
  walk fuel zero_draws
       (_force_range (NR_SQUARES + 1) (DIFFICULTY_MAP difficulty) MIN_GIVENS)
       (map Some squares) full_store (81 + calls)
  = Some (Ret GaveUp, 95 + calls).
Proof.
  intros Hf. apply (walk_fuel_mono 730 fuel); [exact Hf|].
  destruct difficulty; vm_compute; reflexivity.
Qed.

Lemma zero_attempt (fuel : nat) (difficulty : Difficulty) (calls : nat) :
  (forall r, _shuffle truthy_string fuel zero_draws squares calls = Some r ->
             r = (Ret (map Some squares), 81 + calls))
  /\ (forall r,
        walk fuel zero_draws
             (_force_range (NR_SQUARES + 1) (DIFFICULTY_MAP difficulty) MIN_GIVENS)
             (map Some squares) full_store (81 + calls) = Some r ->
        r = (Ret GaveUp, 95 + calls)).
Proof.
  split; intros r H.
  - apply (shuffle_fuel_mono _ fuel (Nat.max fuel 81)) in H; [|lia].
    rewrite zero_shuffle in H by lia. congruence.
  - apply (walk_fuel_mono fuel (Nat.max fuel 730)) in H; [|lia].
    rewrite zero_walk in H by lia. congruence.
Qed.

Lemma zero_generate (stack : nat) :
  forall fuel difficulty unique calls r,
    generate stack fuel zero_draws difficulty unique calls = Some r ->
    exists calls', r = (Throw RangeError, calls').
Proof.
  induction stack as [|stack IH]; intros fuel difficulty unique calls r;
    cbn [generate].
  { intros H. inversion H. eauto. }
  rewrite blank_board_seeded.
  destruct (zero_attempt fuel difficulty calls) as [Hsh Hw].
  destruct (_shuffle truthy_string fuel zero_draws squares calls)
    as [sh|]; [|discriminate].
  rewrite (Hsh sh eq_refl).
  destruct (walk fuel zero_draws _ (map Some squares) full_store (81 + calls))
    as [w|]; [|discriminate].
  rewrite (Hw w eq_refl). apply IH.
Qed.

Lemma zero_generate_total (stack : nat) :
  forall fuel difficulty unique calls,
    730 <= fuel ->
    generate stack fuel zero_draws difficulty unique calls
    = Some (Throw RangeError, 95 * stack + calls).
Proof.
  induction stack as [|stack IH]; intros fuel difficulty unique calls Hf;
    cbn [generate].
  { rewrite Nat.mul_0_r. reflexivity. }
  rewrite blank_board_seeded, zero_shuffle by lia.
  rewrite zero_walk by exact Hf. rewrite IH by exact Hf.
  f_equal. f_equal. lia.
Qed.

(** C3, as stated, fails: [generate] does not return on every run.  When
    [Math.random] returns 0 at every call, every attempt gives up, for
    every difficulty, so no board is ever returned, and the retries end in
    the [RangeError] of the exhausted call stack, however much room the
    stack has. *)
Theorem generate_zero_draws_throws :
  (forall stack fuel difficulty unique calls board calls',
      generate stack fuel zero_draws difficulty unique calls
      <> Some (Ret board, calls'))
  /\ (forall stack fuel difficulty unique calls,
        730 <= fuel ->
        exists calls',
          generate stack fuel zero_draws difficulty unique calls
          = Some (Throw RangeError, calls')).
Proof.
  split.
  - intros stack fuel difficulty unique calls board calls' H.
    destruct (zero_generate _ _ _ _ _ _ H) as [c Hc]. discriminate.
  - intros stack fuel difficulty unique calls Hf.
    eexists. apply zero_generate_total. exact Hf.
Qed.

(* ----------------------------------------------------------------- *)
(** ** The [unique] parameter *)

(** C10: [generate] never reads [unique]: on the same draws, from the same
    point of the sequence, both values give the same result, board or not.
    Nothing checks that a board has one solution only: a run with
    [unique = true] returns a board that has two. *)
Theorem generate_ignores_unique :
  (forall stack fuel rnd difficulty calls,
      generate stack fuel rnd difficulty true calls
      = generate stack fuel rnd difficulty false calls)
  /\ exists stack fuel rnd difficulty board calls' s1 s2,
       generate stack fuel rnd difficulty true 0 = Some (Ret board, calls')
       /\ completes s1 board
       /\ completes s2 board
       /\ s1 <> s2.
Proof.
  split.
  - intros stack fuel rnd difficulty calls. destruct stack; reflexivity.
  - exists 50, 50, sample_draws, INHUMAN,
      "6.......3..2.......4..3....2..3.......7..5.......1..9....8..6..5....9..7....5....",
      98,
      "615427983732981465849536712286394571197265348354718296421873659563149827978652134",
      "678594213312687459945231768291348576437965821856712394129873645563429187784156932".
    split; [vm_compute; reflexivity|].
    split; [|split].
    + apply (solve_store_completes 100 _ false). vm_compute. reflexivity.
    + apply (solve_store_completes 100 _ true). vm_compute. reflexivity.
    + discriminate.
Qed.
